(** * phoebe.backend.decorators: the distributed job-dispatch layer

    A shallow embedding of [merge_synthetic], [construct_mpirun_command] and
    the [mpirun] decorator's [do_run] of [phoebe/backend/decorators.py],
    with the properties of the dispatch layer stated and proved over it.

    The module is Python 2 code: strings are byte strings, [zip] is eager,
    and [%d] truncates a float argument. *)

From Stdlib Require Import ZArith List String Ascii Bool Lia DecimalString.
From stdpp Require Import base option list gmap strings.

Local Open Scope string_scope.
Local Open Scope list_scope.
Local Open Scope Z_scope.

(** ** Exceptions and outcomes *)

(** The exceptions the embedded code can raise.  [SystemExit] is what
    [sys.exit] raises; it is not an [Exception], but a bare [except:]
    catches it all the same. *)
Inductive exn : Type :=
| ValueError (msg : string)
| OverflowError
| KeyError (key : string)
| TypeError
| IndexError
| AttributeError
| IOError
| PickleError
| ParameterError
| EOFError
| CalledProcessError
| EngineError
| SystemExit (code : Z).

Inductive outcome (A : Type) : Type :=
| Return (a : A)
| Raise (e : exn).
Arguments Return {A} a.
Arguments Raise {A} e.

Definition bind {A B : Type} (m : outcome A) (k : A -> outcome B) : outcome B :=
  match m with
  | Return a => k a
  | Raise e => Raise e
  end.

Notation "x <- m ;;; k" := (bind m (fun x => k))
  (at level 100, m at next level, right associativity).

(** ** Python string primitives *)
Module PyStr.

(** The double quote, which the Torque command line contains. *)
Definition dquote : string := String (ascii_of_nat 34) EmptyString.

Definition newline : ascii := ascii_of_nat 10.
Definition carriage_return : string := String (ascii_of_nat 13) EmptyString.

(** [str.isspace] on a byte string in the C locale: TAB, LF, VT, FF, CR and
    the space. *)
Definition is_space (c : ascii) : bool :=
  let n := nat_of_ascii c in
  (Nat.leb 9 n && Nat.leb n 13) || Nat.eqb n 32.

(** [s.split(sep)] for a one-character separator: never empty. *)
Fixpoint split_on (sep : ascii) (s : string) : list string :=
  match s with
  | EmptyString => [EmptyString]
  | String c s' =>
      if Ascii.eqb c sep then EmptyString :: split_on sep s'
      else match split_on sep s' with
           | [] => [String c EmptyString]
           | l :: ls => String c l :: ls
           end
  end.

(** [l[-k]] for [k >= 1]; [None] stands for the [IndexError]. *)
Definition index_from_end {A : Type} (l : list A) (k : nat) : option A :=
  if Nat.ltb (length l) k then None else l !! (length l - k)%nat.

Fixpoint lstrip (s : string) : string :=
  match s with
  | EmptyString => EmptyString
  | String c s' => if is_space c then lstrip s' else s
  end.

Fixpoint rstrip (s : string) : string :=
  match s with
  | EmptyString => EmptyString
  | String c s' =>
      match rstrip s' with
      | EmptyString => if is_space c then EmptyString else String c EmptyString
      | r => String c r
      end
  end.

Definition strip (s : string) : string := rstrip (lstrip s).

(** [s.split()]: the maximal runs of non-whitespace characters. *)
Fixpoint split_ws (s : string) : list string :=
  match s with
  | EmptyString => []
  | String c s' =>
      if is_space c then split_ws s'
      else match s' with
           | EmptyString => [String c EmptyString]
           | String c' _ =>
               if is_space c' then String c EmptyString :: split_ws s'
               else match split_ws s' with
                    | w :: ws => String c w :: ws
                    | [] => [String c EmptyString]
                    end
           end
  end.

(** [str(n)] and the [{}] of [str.format] on an integer. *)
Definition str_of_int (n : Z) : string := NilZero.string_of_int (Z.to_int n).

(** [float(n)] on an integer: the nearest double, ties to even, as the integer
    it denotes; [None] stands for the [OverflowError] of an integer that
    rounds to [2^1024] or beyond. *)
Definition float_of_int (n : Z) : option Z :=
  let a := Z.abs n in
  let k := Z.log2 a + 1 - 53 in
  let r :=
    if k <=? 0 then a
    else
      let q := Z.shiftr a k in
      let rem := Z.land a (Z.ones k) in
      let half := Z.shiftl 1 (k - 1) in
      let q' := if (half <? rem) || ((rem =? half) && Z.odd q) then q + 1 else q in
      Z.shiftl q' k in
  if 2 ^ 1024 <=? r then None else Some (Z.sgn n * r).

(** ['{:.0f}'.format(n)] on an integer [n]: [n] goes through [float]. *)
Definition format_0f (n : Z) : outcome string :=
  match float_of_int n with
  | None => Raise OverflowError
  | Some v => Return (str_of_int v)
  end.

(** ["%02d" % n]: width two, zero padded, the sign counted in the width. *)
Definition pad2 (n : Z) : string :=
  if (0 <=? n) && (n <? 10) then "0" +:+ str_of_int n else str_of_int n.

End PyStr.

(** ** The resource configuration and the command lines *)
Module Cmd.
Import PyStr.

(** The fields every [mpi] parameter set carries.  [hostfile], [byslot] and
    [directory] are looked up with [in] first, so they can be absent. *)
Record common : Type := {
  np : Z;
  hostfile : option string;
  byslot : option bool;
  python : string;
  directory : option string
}.

(** The last component of the parameter set's context, with the fields the
    branch of that context reads.  Memory is in megabytes and time in
    minutes, both whole numbers here. *)
Inductive backend : Type :=
| Local
| Slurm (memory time : Z) (partition : string)
| Torque (memory time nodes : Z) (email alerts jobname : string).

Record mpirun_par : Type := {
  base : common;
  scheduler : backend
}.

(** [mpirun_par.get_context().split(':')[-1]]. *)
Definition backend_tag (b : backend) : string :=
  match b with
  | Local => "mpi"
  | Slurm _ _ _ => "slurm"
  | Torque _ _ _ _ _ _ => "torque"
  end.

(** Truth value of a string: non-empty. *)
Definition truthy (s : string) : bool := negb (String.eqb s EmptyString).

Definition byslot_flag (c : common) : string :=
  match byslot c with
  | Some true => "--byslot"
  | _ => EmptyString
  end.

Definition hostfile_flag (c : common) : string :=
  match hostfile c with
  | Some h => if truthy h then "--hostfile " +:+ h else EmptyString
  | None => EmptyString
  end.

(** ['--partition={:.0f}'.format(p)] on a string [p]: the format code [f] is
    unknown for a string, which is a [ValueError]. *)
Definition format_0f_str (p : string) : outcome string :=
  Raise (ValueError "Unknown format code 'f' for object of type 'str'").

Definition slurm_memory (memory : Z) : outcome string :=
  if memory =? 0 then Return EmptyString
  else m <- format_0f memory ;;; Return ("--mem=" +:+ m).

Definition slurm_time (time : Z) : outcome string :=
  if time =? 0 then Return EmptyString
  else t <- format_0f time ;;; Return ("--time=" +:+ t).

Definition slurm_partition (partition : string) : outcome string :=
  if negb (truthy partition) then Return EmptyString
  else p <- format_0f_str partition ;;; Return ("--partition=" +:+ p).

Definition torque_memory (memory : Z) : outcome string :=
  if negb (memory =? 0) then m <- format_0f memory ;;; Return (",mppmem=" +:+ m +:+ "M")
  else Return EmptyString.

(** [datetime.timedelta(minutes=t).total_seconds()] for a time [t] that is
    an integer, a whole number of minutes: a [timedelta] holds at most
    999999999 days either way, beyond which it is an [OverflowError]; within,
    the seconds are exact.  A float with a fraction of a minute, which gives
    seconds that are no multiple of 60, is outside this model. *)
Definition total_seconds (minutes : Z) : outcome Z :=
  if Z.abs (minutes / 1440) <=? 999999999 then Return (60 * minutes)
  else Raise OverflowError.

(** ["%02d:%02d:%02d" % (s/3600, s%3600/60, s%60)]: [%d] truncates its float
    argument, [%] takes the sign of the divisor. *)
Definition walltime (minutes : Z) : outcome string :=
  s <- total_seconds minutes ;;;
  Return (pad2 (Z.quot s 3600) +:+ ":" +:+ pad2 (Z.quot (s mod 3600) 60)
          +:+ ":" +:+ pad2 (s mod 60)).

(** The command line each branch of [construct_mpirun_command] builds before
    it runs it.  [mpirun_loc] is the absolute path of the worker script.  The
    Torque branch also looks up the [mpirun] executable and never uses what it
    finds; that lookup is left out. *)
Definition build_command (mpirun_loc : string) (par : mpirun_par) (args : string)
  : outcome string :=
  let c := base par in
  match scheduler par with
  | Local =>
      Return ("mpiexec -np " +:+ str_of_int (np c) +:+ " " +:+ hostfile_flag c
              +:+ " " +:+ byslot_flag c +:+ " " +:+ python c +:+ " "
              +:+ mpirun_loc +:+ " " +:+ args)
  | Slurm memory time partition =>
      memory_ <- slurm_memory memory ;;;
      time_ <- slurm_time time ;;;
      partition_ <- slurm_partition partition ;;;
      Return ("srun " +:+ time_ +:+ " " +:+ memory_ +:+ " " +:+ partition_
              +:+ " mpirun -np " +:+ str_of_int (np c) +:+ " "
              +:+ hostfile_flag c +:+ " " +:+ byslot_flag c +:+ " "
              +:+ python c +:+ " " +:+ mpirun_loc +:+ " " +:+ args)
  | Torque memory time nodes email alerts jobname =>
      memory_ <- torque_memory memory ;;;
      time_ <- walltime time ;;;
      let cmd := "echo " +:+ dquote +:+ "mpirun " +:+ python c +:+ " "
                 +:+ mpirun_loc +:+ " " +:+ args +:+ dquote
                 +:+ " | qsub -V -l nodes=" +:+ str_of_int nodes
                 +:+ ",walltime=" +:+ time_ in
      let cmd :=
        if truthy email then
          let cmd := cmd +:+ " -M " +:+ email in
          if truthy alerts then cmd +:+ " -m " +:+ alerts else cmd
        else cmd in
      let cmd := cmd +:+ " -N " +:+ jobname in
      Return cmd
  end.

End Cmd.

(** ** State with exceptions *)

(** A loop over a list in a state [S] that the first exception leaves: the
    state keeps what the earlier iterations did to it. *)
Fixpoint for_each {S A : Type} (xs : list A) (f : A -> S -> S * outcome unit)
  (s : S) : S * outcome unit :=
  match xs with
  | [] => (s, Return tt)
  | x :: xs' =>
      match f x s with
      | (s', Return _) => for_each xs' f s'
      | (s', Raise e) => (s', Raise e)
      end
  end.

(** ** Synthetic results and their merge *)
Module Merge.

(** What a field of a parameter set holds: a list (of numbers or names), a
    number or a string.  The merge never computes with the numbers, which
    stand here as integers. *)
Inductive atom : Type :=
| ANum (x : Z)
| AStr (s : string).

Inductive value : Type :=
| VList (l : list atom)
| VNum (x : Z)
| VStr (s : string).

(** Modelled from the spec: the [ParameterSet] class of [phoebe.parameters],
    which is not among the sources; the spec's synthetic dataset is an
    ordered mapping from unique names to values, iterated over its keys in
    order, with [in], [[key]] and [[key] = v] those of a dictionary, and a
    [context] string.  The dataset's reference is its [ref] field. *)
Record parset : Type := {
  context : string;
  items : list (string * value)
}.

(** Modelled from the spec: the body classes of the physics engine, which
    are not among the sources.  A body is what this module looks at: whether
    it has a [fix_mesh] method, and the parameter sets that
    [walk_type(type='syn')] yields, in the fixed order of the walk.  Bodies
    live in a heap and are passed by location, so that a replica can be the
    primary itself; two different bodies share no parameter set, as is the
    case of a body and its unpickled copy. *)
Record body : Type := {
  has_fix_mesh : bool;
  syn : list parset
}.

Definition loc : Type := nat.

Fixpoint get (key : string) (its : list (string * value)) : option value :=
  match its with
  | [] => None
  | (k, v) :: rest => if String.eqb k key then Some v else get key rest
  end.

Fixpoint set (key : string) (v : value) (its : list (string * value))
  : list (string * value) :=
  match its with
  | [] => [(key, v)]
  | (k, w) :: rest =>
      if String.eqb k key then (k, v) :: rest else (k, w) :: set key v rest
  end.

Definition keys (ps : parset) : list string := map fst (items ps).

(** [s[-3:] == 'syn']. *)
Definition ends_with_syn (s : string) : bool :=
  String.eqb (substring (String.length s - 3) 3 s) "syn".

(** [key in container]: membership in a list, substring of a string, a
    [TypeError] on a number. *)
Definition contains (container : value) (key : string) : outcome bool :=
  match container with
  | VList l =>
      Return (existsb (fun a => match a with
                                | AStr s => String.eqb s key
                                | ANum _ => false
                                end) l)
  | VStr s => Return (match index 0 key s with Some _ => true | None => false end)
  | VNum _ => Raise TypeError
  end.

(** ['columns' in parset and not key in parset['columns']]. *)
Definition excluded (ps : parset) (key : string) : outcome bool :=
  match get "columns" (items ps) with
  | None => Return false
  | Some cols => b <- contains cols key ;;; Return (negb b)
  end.

Definition set_syn (b : body) (i : nat) (ps : parset) : body :=
  {| has_fix_mesh := has_fix_mesh b; syn := <[i := ps]> (syn b) |}.

Definition set_items (ps : parset) (its : list (string * value)) : parset :=
  {| context := context ps; items := its |}.

(** The [i]-th parameter set of the walk of the body at [l], as the heap
    has it now. *)
Definition syn_at (h : gmap loc body) (l : loc) (i : nat) : option parset :=
  match h !! l with
  | Some b => syn b !! i
  | None => None
  end.

(** [iteration[0][key] += value] for a list [value]: the field is read
    ([KeyError] when absent), extended in place ([TypeError] when it is not a
    list) and stored back. *)
Definition iadd (p : loc) (i : nat) (key : string) (v : list atom)
  (h : gmap loc body) : gmap loc body * outcome unit :=
  match h !! p with
  | None => (h, Raise AttributeError)
  | Some b =>
      match syn b !! i with
      | None => (h, Raise IndexError)
      | Some ps =>
          match get key (items ps) with
          | None => (h, Raise (KeyError key))
          | Some (VList l) =>
              (<[p := set_syn b i (set_items ps (set key (VList (l ++ v)) (items ps)))]> h,
               Return tt)
          | Some _ => (h, Raise TypeError)
          end
      end
  end.

(** The body of [for key in parset], the replica's parameter set being the
    [i]-th of the body at [r], read as it is now. *)
Definition merge_key (p r : loc) (i : nat) (key : string)
  (h : gmap loc body) : gmap loc body * outcome unit :=
  match syn_at h r i with
  | None => (h, Raise IndexError)
  | Some parset =>
      match excluded parset key with
      | Raise e => (h, Raise e)
      | Return true => (h, Return tt)
      | Return false =>
          match get key (items parset) with
          | None => (h, Raise (KeyError key))
          | Some (VList v) => iadd p i key v h
          | Some _ => (h, Return tt)
          end
      end
  end.

(** The body of [for parset in iteration[1:]]. *)
Definition merge_parset (p : loc) (i : nat) (r : loc)
  (h : gmap loc body) : gmap loc body * outcome unit :=
  match syn_at h r i with
  | None => (h, Raise IndexError)
  | Some parset =>
      if ends_with_syn (context parset)
      then for_each (keys parset) (merge_key p r i) h
      else (h, Return tt)
  end.

(** The lengths of the walks [zip] consumes; a location that holds no body
    stands for an object without [walk_type]. *)
Fixpoint walk_lengths (h : gmap loc body) (ls : list loc) : outcome (list nat) :=
  match ls with
  | [] => Return []
  | l :: ls' =>
      match h !! l with
      | None => Raise AttributeError
      | Some b => ns <- walk_lengths h ls' ;;; Return (length (syn b) :: ns)
      end
  end.

(** The number of tuples [zip] makes of the walks: that of the shortest. *)
Definition zip_length (ns : list nat) : nat :=
  match ns with
  | [] => O
  | n :: ns' => fold_left Nat.min ns' n
  end.

Definition merge_synthetic (list_of_bodies : list loc) (h : gmap loc body)
  : gmap loc body * outcome loc :=
  match walk_lengths h list_of_bodies with
  | Raise e => (h, Raise e)
  | Return ns =>
      match for_each (seq 0 (zip_length ns))
              (fun i => for_each (tail list_of_bodies)
                          (merge_parset (hd O list_of_bodies) i)) h with
      | (h', Raise e) => (h', Raise e)
      | (h', Return _) =>
          match list_of_bodies with
          | [] => (h', Raise IndexError)
          | first :: _ => (h', Return first)
          end
      end
  end.

End Merge.

(** ** The world outside: files, external processes, the engine *)
Module Dispatch.
Import PyStr Cmd Merge.

(** The values that travel as positional and keyword arguments. *)
Inductive pyval : Type :=
| PyNone
| PyBool (b : bool)
| PyInt (z : Z)
| PyStr (s : string)
| PyMpi (par : mpirun_par)
| PyParams (options : list (string * Z)).

Definition py_truthy (v : pyval) : bool :=
  match v with
  | PyNone => false
  | PyBool b => b
  | PyInt z => negb (z =? 0)
  | PyStr s => truthy s
  | PyMpi _ | PyParams _ => true
  end.

(** What a pickle file holds. *)
Inductive payload : Type :=
| PSystem (b : body)
| PArgs (a : list pyval)
| PKwargs (k : gmap string pyval).

Inductive content : Type :=
| Blank
| Pickled (p : payload)
| Garbage.

(** The methods of the system the decorator calls; [prepare_ltt] stands with
    them, its datasets coming from a module outside the sources. *)
Inductive method : Type :=
| fix_mesh | init_mesh | prepare_ltt
| bin_oversampling | set_time_0 | compute_pblum_or_l3 | set_pblum_or_l3
| compute_scale_or_offset | postprocess.

Inductive event : Type :=
| Exec (cmd : string)
| Sleep (seconds : Z)
| Call (m : method) (target : loc).

(** The state a dispatch runs in: the objects in memory, the files on disk,
    the number of external processes started so far, and what happened, oldest
    first.  What the code prints is not part of it. *)
Record world : Type := {
  heap : gmap loc body;
  files : gmap string content;
  procs : nat;
  trace : list event
}.

Record proc_result : Type := {
  status : Z;
  stdout : string;
  effect : gmap string content -> gmap string content
}.

(** Everything the code reaches outside itself.  [proc k cmd] is what the
    [k]-th external process does when it runs [cmd]. *)
Record environment : Type := {
  mpirun_loc : string;
  cwd : string;
  default_mpi : mpirun_par;
  compute_params : gmap string pyval -> outcome pyval;
  engine : method -> body -> outcome body;
  picklable : payload -> bool;
  tempname : string -> gmap string content -> outcome string;
  proc : nat -> string -> proc_result;
  fctn_name : string;
  fctn : loc -> list pyval -> gmap string pyval -> world -> world * outcome pyval
}.

Definition act (A : Type) : Type := world -> world * outcome A.

Definition ret {A : Type} (a : A) : act A := fun w => (w, Return a).
Definition raise {A : Type} (e : exn) : act A := fun w => (w, Raise e).
Definition abind {A B : Type} (m : act A) (k : A -> act B) : act B :=
  fun w =>
    match m w with
    | (w', Return a) => k a w'
    | (w', Raise e) => (w', Raise e)
    end.

Notation "x <~ m ;;; k" := (abind m (fun x => k))
  (at level 100, m at next level, right associativity).
Notation "m ;;;; k" := (abind m (fun _ => k))
  (at level 100, right associativity).

Definition log (e : event) (w : world) : world :=
  {| heap := heap w; files := files w; procs := procs w;
     trace := trace w ++ [e] |}.

Definition set_heap (h : gmap loc body) (w : world) : world :=
  {| heap := h; files := files w; procs := procs w; trace := trace w |}.

Definition set_files (f : gmap string content) (w : world) : world :=
  {| heap := heap w; files := f; procs := procs w; trace := trace w |}.

Definition sleep (seconds : Z) : act unit :=
  fun w => (log (Sleep seconds) w, Return tt).

(** Start an external process through the shell and wait for it. *)
Definition run_process (E : environment) (cmd : string) : act proc_result :=
  fun w =>
    let r := proc E (procs w) cmd in
    ({| heap := heap w; files := effect r (files w); procs := S (procs w);
        trace := trace w ++ [Exec cmd] |}, Return r).

(** [subprocess.call(cmd, shell=True)]. *)
Definition call (E : environment) (cmd : string) : act Z :=
  r <~ run_process E cmd ;;; ret (status r).

(** [subprocess.check_output(cmd, shell=True)]. *)
Definition check_output (E : environment) (cmd : string) : act string :=
  r <~ run_process E cmd ;;;
  if status r =? 0 then ret (stdout r) else raise CalledProcessError.

Definition call_method (E : environment) (m : method) (l : loc) : act unit :=
  fun w =>
    match heap w !! l with
    | None => (w, Raise AttributeError)
    | Some b =>
        match engine E m b with
        | Return b' => (log (Call m l) (set_heap (<[l := b']> (heap w)) w), Return tt)
        | Raise e => (log (Call m l) w, Raise e)
        end
    end.

(** [tempfile.NamedTemporaryFile(delete=False, dir=direc)]: the file exists,
    empty, once the call returns. *)
Definition named_temporary_file (E : environment) (direc : string) : act string :=
  fun w =>
    match tempname E direc (files w) with
    | Raise e => (w, Raise e)
    | Return name => (set_files (<[name := Blank]> (files w)) w, Return name)
    end.

(** [pickle.dump(obj, file)] and [file.close()]. *)
Definition pickle_dump (E : environment) (p : payload) (name : string) : act unit :=
  fun w =>
    if picklable E p
    then (set_files (<[name := Pickled p]> (files w)) w, Return tt)
    else (set_files (<[name := Garbage]> (files w)) w, Raise PickleError).

(** [pickle.load] on the file opened by name. *)
Definition pickle_load (name : string) : act payload :=
  fun w =>
    match files w !! name with
    | None => (w, Raise IOError)
    | Some Blank => (w, Raise EOFError)
    | Some Garbage => (w, Raise PickleError)
    | Some (Pickled p) => (w, Return p)
    end.

(** [if os.path.isfile(name): os.unlink(name)]. *)
Definition unlink_if_file (name : string) : act unit :=
  fun w =>
    match files w !! name with
    | Some _ => (set_files (delete name (files w)) w, Return tt)
    | None => (w, Return tt)
    end.

(** *** The Torque submitter *)

(** [output.split('\n')[-2].strip().split()[-2]]; [None] is the
    [IndexError] of either subscript. *)
Definition parse_status (output : string) : option string :=
  match index_from_end (split_on newline output) 2 with
  | None => None
  | Some line => index_from_end (split_ws (strip line)) 2
  end.

(** [while True:] around one poll.  A loop that never sees ['C'] and never
    fails does not end: [None] is the fuel running out. *)
Fixpoint torque_monitor (fuel : nat) (E : environment) (jobid : string)
  (w : world) : option world :=
  match fuel with
  | O => None
  | S fuel' =>
      match check_output E ("qstat -a " +:+ jobid) w with
      | (w1, Raise _) => Some w1
      | (w1, Return output) =>
          match parse_status output with
          | None => Some w1
          | Some status =>
              if String.eqb status "C" then Some w1
              else torque_monitor fuel' E jobid (fst (sleep 5 w1))
          end
      end
  end.

(** The [try] block of the Torque branch, from [flag = 1] on: the world
    after it and the flag. *)
Definition torque_submit (fuel : nat) (E : environment) (cmd : string)
  (w : world) : option (world * Z) :=
  let w := fst (sleep 2 w) in
  match check_output E cmd w with
  | (w, Raise _) => Some (w, 1)
  | (w, Return out) =>
      let jobid := strip out in
      let w := fst (sleep 5 w) in
      let w := fst (check_output E ("showstart " +:+ jobid) w) in
      match torque_monitor fuel E jobid w with
      | None => None
      | Some w => Some (w, 0)
      end
  end.

(** [construct_mpirun_command(script='mpirun.py', mpirun_par, args)], called
    with a parameter set as [do_run] does: build the line, run it, and return
    the flag with the name of the backend. *)
Definition construct_mpirun_command (fuel : nat) (E : environment)
  (par : mpirun_par) (args : string) (w : world)
  : option (world * outcome (Z * string)) :=
  match build_command (mpirun_loc E) par args with
  | Raise e => Some (w, Raise e)
  | Return cmd =>
      match scheduler par with
      | Torque _ _ _ _ _ _ =>
          match torque_submit fuel E cmd w with
          | None => None
          | Some (w', flag) => Some (w', Return (flag, backend_tag (scheduler par)))
          end
      | _ =>
          match call E cmd w with
          | (w', Return flag) => Some (w', Return (flag, backend_tag (scheduler par)))
          | (w', Raise e) => Some (w', Raise e)
          end
      end
  end.

(** *** The decorated function *)

(** [system.fix_mesh()] when the system has the method, [system.init_mesh()]
    when not. *)
Definition mesh (E : environment) (system : loc) : act unit :=
  fun w =>
    match heap w !! system with
    | None => (w, Raise AttributeError)
    | Some b =>
        if has_fix_mesh b then call_method E fix_mesh system w
        else call_method E init_mesh system w
    end.

(** [params = kwargs.pop('params', None)], and the compute parameter set
    made of all the keyword arguments when there is none. *)
Definition resolve_params (E : environment) (kwargs : gmap string pyval)
  : outcome pyval :=
  match kwargs !! "params" with
  | None | Some PyNone => compute_params E (delete "params" kwargs)
  | Some v => Return v
  end.

(** The parameter set [mpirun_par['np']] is read from: the default one for
    [True]; a value that cannot be subscripted by a name is a [TypeError],
    and a compute parameter set has no [np]. *)
Definition resolve_mpi (E : environment) (v : pyval) : outcome mpirun_par :=
  match v with
  | PyBool true => Return (default_mpi E)
  | PyMpi par => Return par
  | PyParams _ => Raise (KeyError "np")
  | _ => Raise TypeError
  end.

Definition direc_of (E : environment) (par : mpirun_par) : string :=
  match directory (base par) with
  | Some d => if truthy d then d else cwd E
  | None => cwd E
  end.

Record artifacts : Type := {
  sys_file : string;
  args_file : string;
  kwargs_file : string
}.

Definition artifact_names (a : artifacts) : list string :=
  [sys_file a; args_file a; kwargs_file a].

Definition read_body (l : loc) : act body :=
  fun w =>
    match heap w !! l with
    | Some b => (w, Return b)
    | None => (w, Raise AttributeError)
    end.

(** The three temporary files, each created, written and closed in turn. *)
Definition serialize (E : environment) (system : loc) (args : list pyval)
  (kwargs : gmap string pyval) (direc : string) : act artifacts :=
  sys_file <~ named_temporary_file E direc ;;;
  b <~ read_body system ;;;
  pickle_dump E (PSystem b) sys_file ;;;;
  args_file <~ named_temporary_file E direc ;;;
  pickle_dump E (PArgs args) args_file ;;;;
  kwargs_file <~ named_temporary_file E direc ;;;
  pickle_dump E (PKwargs kwargs) kwargs_file ;;;;
  ret {| sys_file := sys_file; args_file := args_file; kwargs_file := kwargs_file |}.

(** Load the results from the system's file and merge them into the
    system.  The unpickled object is a new one; when it is no body it has no
    [walk_type]. *)
Definition collect (system : loc) (a : artifacts) : act unit :=
  p <~ pickle_load (sys_file a) ;;;
  fun w =>
    let results := fresh (dom (heap w)) in
    let h := match p with
             | PSystem b => <[results := b]> (heap w)
             | _ => heap w
             end in
    match merge_synthetic [system; results] h with
    | (h', Return _) => (set_heap h' w, Return tt)
    | (h', Raise e) => (set_heap h' w, Raise e)
    end.

(** The body of the [try], whose [except: raise] lets every exception
    through.  It hands the names of the files to what follows it. *)
Definition attempt (fuel : nat) (E : environment) (system : loc)
  (args : list pyval) (kwargs : gmap string pyval) (par : mpirun_par)
  (w : world) : option (world * outcome artifacts) :=
  match (mesh E system ;;;;
         (if py_truthy (default (PyBool false) (kwargs !! "ltt"))
          then call_method E prepare_ltt system else ret tt) ;;;;
         serialize E system args kwargs (direc_of E par)) w with
  | (w1, Raise e) => Some (w1, Raise e)
  | (w1, Return a) =>
      let args_ := fctn_name E +:+ " " +:+ sys_file a +:+ " " +:+ args_file a
                   +:+ " " +:+ kwargs_file a in
      match construct_mpirun_command fuel E par args_ w1 with
      | None => None
      | Some (w2, Raise e) => Some (w2, Raise e)
      | Some (w2, Return (flag, _)) =>
          if negb (flag =? 0) then Some (w2, Raise (SystemExit 1))
          else Some ((collect system a ;;;; ret a) w2)
      end
  end.

(** The three [if os.path.isfile(...): os.unlink(...)] after the [try]. *)
Definition cleanup (a : artifacts) : act unit :=
  unlink_if_file (sys_file a) ;;;;
  unlink_if_file (args_file a) ;;;;
  unlink_if_file (kwargs_file a).

Definition postprocessing (E : environment) (system : loc) : act unit :=
  call_method E bin_oversampling system ;;;;
  call_method E set_time_0 system ;;;;
  call_method E compute_pblum_or_l3 system ;;;;
  call_method E set_pblum_or_l3 system ;;;;
  call_method E compute_scale_or_offset system ;;;;
  call_method E postprocess system.

(** [do_run(system, *args, **kwargs)].  A function that ends without a
    [return] returns [None]. *)
Definition do_run (fuel : nat) (E : environment) (system : loc)
  (args : list pyval) (kwargs : gmap string pyval) (w : world)
  : option (world * outcome pyval) :=
  let mpirun_par := default PyNone (kwargs !! "mpi") in
  let kwargs := delete "mpi" kwargs in
  match mpirun_par with
  | PyNone => Some ((mesh E system ;;;; fctn E system args kwargs) w)
  | _ =>
      match resolve_params E kwargs with
      | Raise e => Some (w, Raise e)
      | Return params =>
          let kwargs := <["params" := params]> (delete "params" kwargs) in
          match resolve_mpi E mpirun_par with
          | Raise e => Some (w, Raise e)
          | Return par =>
              if np (base par) <=? 1
              then Some (w, Raise (ValueError
                     "For MPI to be useful, you need at least 2 processes (np>=2)"))
              else
                match attempt fuel E system args kwargs par w with
                | None => None
                | Some (w1, Raise e) => Some (w1, Raise e)
                | Some (w1, Return a) =>
                    Some ((cleanup a ;;;;
                           postprocessing E system ;;;;
                           ret PyNone) w1)
                end
          end
      end
  end.

End Dispatch.

(** ** The merge on values

    When no replica is the primary itself, the in-place merge acts on the
    primary's walk alone, the replicas' walks being read-only.  These are the
    same loops on that walk, and what they come to when nothing fails. *)
Module MergeSpec.
Import Merge.

#[global] Instance atom_eq_dec : EqDecision atom.
Proof. solve_decision. Defined.
#[global] Instance value_eq_dec : EqDecision value.
Proof. solve_decision. Defined.

Definition append_field (key : string) (v : list atom) (ps : parset)
  : outcome parset :=
  match get key (items ps) with
  | None => Raise (KeyError key)
  | Some (VList l) => Return (set_items ps (set key (VList (l ++ v)) (items ps)))
  | Some _ => Raise TypeError
  end.

Definition pure_key (rps : parset) (i : nat) (key : string)
  (walk : list parset) : list parset * outcome unit :=
  match excluded rps key with
  | Raise e => (walk, Raise e)
  | Return true => (walk, Return tt)
  | Return false =>
      match get key (items rps) with
      | None => (walk, Raise (KeyError key))
      | Some (VList v) =>
          match walk !! i with
          | None => (walk, Raise IndexError)
          | Some pps =>
              match append_field key v pps with
              | Return pps' => (<[i := pps']> walk, Return tt)
              | Raise e => (walk, Raise e)
              end
          end
      | Some _ => (walk, Return tt)
      end
  end.

Definition pure_parset (i : nat) (replica : list parset)
  (walk : list parset) : list parset * outcome unit :=
  match replica !! i with
  | None => (walk, Raise IndexError)
  | Some rps =>
      if ends_with_syn (context rps)
      then for_each (keys rps) (pure_key rps i) walk
      else (walk, Return tt)
  end.

Definition pure_merge (replicas : list (list parset)) (walk : list parset)
  : list parset * outcome unit :=
  for_each (seq 0 (zip_length (length walk :: map length replicas)))
    (fun i => for_each replicas (pure_parset i)) walk.

(** A field of the replica's record takes part in the merge: the record is
    a synthetic one and its [columns], when it has any, lists the field. *)
Definition eligible (rps : parset) (key : string) : bool :=
  ends_with_syn (context rps) &&
  match excluded rps key with
  | Return false => true
  | _ => false
  end.

(** One field of the primary after the replica's record was merged in. *)
Definition append_from (rps : parset) (kv : string * value) : string * value :=
  match snd kv, get (fst kv) (items rps) with
  | VList l, Some (VList v) =>
      if eligible rps (fst kv) then (fst kv, VList (l ++ v)) else kv
  | _, _ => kv
  end.

Definition merge_record (rps pps : parset) : parset :=
  set_items pps (map (append_from rps) (items pps)).

Definition is_list (o : option value) : bool :=
  match o with
  | Some (VList _) => true
  | _ => false
  end.

Definition columns_iterable (ps : parset) : bool :=
  match get "columns" (items ps) with
  | Some (VNum _) => false
  | _ => true
  end.

(** The replica's record can be merged into the primary's without an
    exception: both map each name once, the replica's [columns] can be
    searched, and each list field of the replica that takes part is a list
    field of the primary. *)
Definition appendable (rps pps : parset) : bool :=
  bool_decide (NoDup (keys rps)) && bool_decide (NoDup (keys pps))
  && columns_iterable rps
  && forallb (fun kv => implb (is_list (Some (snd kv)) && eligible rps (fst kv))
                          (is_list (get (fst kv) (items pps))))
       (items rps).

(** The [i]-th record of the primary after every replica was merged in, in
    the order of the replicas. *)
Definition merged_at (replicas : list (list parset)) (i : nat) (pps : parset)
  : parset :=
  fold_left (fun acc replica =>
               match replica !! i with
               | Some rps => merge_record rps acc
               | None => acc
               end) replicas pps.

Definition merged_walk (replicas : list (list parset)) (walk : list parset)
  : list parset :=
  imap (fun i pps =>
          if Nat.ltb i (zip_length (length walk :: map length replicas))
          then merged_at replicas i pps else pps) walk.

(** Every record of every replica can be merged into the primary's record
    at the same place of the walk. *)
Definition records_appendable (replicas : list (list parset)) (walk : list parset)
  : Prop :=
  forall replica i rps pps,
    In replica replicas -> replica !! i = Some rps -> walk !! i = Some pps ->
    appendable rps pps = true.

(** The same, as a test on the records paired by position. *)
Definition mergeable (replicas : list (list parset)) (walk : list parset) : bool :=
  forallb (fun replica =>
             forallb (fun rp => appendable (fst rp) (snd rp)) (combine replica walk))
    replicas.

Definition value_list (o : option value) : list atom :=
  match o with
  | Some (VList l) => l
  | _ => []
  end.

(** Two records of one structure: the same context, the same names in the
    same order, the same [columns], and under each name two lists of one
    length or two values that are not lists. *)
Definition same_kind (v w : value) : bool :=
  match v, w with
  | VList l, VList m => Nat.eqb (length l) (length m)
  | VList _, _ | _, VList _ => false
  | _, _ => true
  end.

Definition same_structure (a b : parset) : bool :=
  String.eqb (context a) (context b)
  && bool_decide (keys a = keys b)
  && bool_decide (get "columns" (items a) = get "columns" (items b))
  && forallb (fun kv => match get (fst kv) (items b) with
                        | Some w => same_kind (snd kv) w
                        | None => false
                        end) (items a).

Definition well_formed (ps : parset) : bool :=
  bool_decide (NoDup (keys ps)) && columns_iterable ps.

(** The dataset references of a body, in the order of the walk, and the
    [columns] of each. *)
Definition refs (b : body) : list (option value) :=
  map (fun ps => get "ref" (items ps)) (syn b).

Definition columns_of (b : body) : list (option value) :=
  map (fun ps => get "columns" (items ps)) (syn b).

Definition structural_mismatch (primary replica : body) : bool :=
  negb (bool_decide (refs primary = refs replica))
  || negb (bool_decide (columns_of primary = columns_of replica)).

Definition structurally_identical (walk walk' : list parset) : Prop :=
  Forall2 (fun a b => same_structure a b = true) walk walk'.

(** The heap with the walk of the body at [p] replaced. *)
Definition put (h0 : gmap loc body) (p : loc) (f : bool) (walk : list parset)
  : gmap loc body :=
  <[p := {| has_fix_mesh := f; syn := walk |}]> h0.

(** The body at [r] is another object than the primary at [p], and
    [replica] is its walk. *)
Definition replica_of (h0 : gmap loc body) (p : loc) (r : loc)
  (replica : list parset) : Prop :=
  p <> r /\ exists br, h0 !! r = Some br /\ syn br = replica.

(** What the replica at [r] holds under [key] in its [i]-th record, as a
    list: nothing when the record or the field is missing or no list. *)
Definition replica_field (h : gmap loc body) (r : loc) (i : nat) (key : string)
  : list atom :=
  match syn_at h r i with
  | Some ps => value_list (get key (items ps))
  | None => []
  end.

(** What a replica's walk adds to the field [key] of the [i]-th record. *)
Definition contribution (i : nat) (key : string) (replica : list parset) : list atom :=
  match replica !! i with
  | Some rps => if eligible rps key then value_list (get key (items rps)) else []
  | None => []
  end.

End MergeSpec.

(** ** The status query and the command lines, as they are specified *)
Module TorqueSpec.
Import PyStr Cmd Merge Dispatch.

(** Every character of the string passes the test. *)
Fixpoint all_chars (P : ascii -> bool) (s : string) : bool :=
  match s with
  | EmptyString => true
  | String c s' => P c && all_chars P s'
  end.

Definition blank (s : string) : bool := all_chars is_space s.

(** A token: not empty, no whitespace in it. *)
Definition word (s : string) : bool :=
  negb (String.eqb s EmptyString) && all_chars (fun c => negb (is_space c)) s.

Definition no_newline (s : string) : bool :=
  all_chars (fun c => negb (Ascii.eqb c newline)) s.

(** The lines of an output, each but the last ended by a newline. *)
Fixpoint join_lines (ls : list string) : string :=
  match ls with
  | [] => EmptyString
  | [l] => l
  | l :: ls' => l +:+ String newline (join_lines ls')
  end.

(** Tokens, each followed by the whitespace that separates it from the
    next: that whitespace is empty after the last token at most. *)
Fixpoint spaced (ts : list (string * string)) : string :=
  match ts with
  | [] => EmptyString
  | (t, sp) :: ts' => t +:+ sp +:+ spaced ts'
  end.

Fixpoint well_spaced (ts : list (string * string)) : bool :=
  match ts with
  | [] => true
  | (t, sp) :: ts' =>
      word t && blank sp
      && (negb (String.eqb sp EmptyString) || match ts' with [] => true | _ => false end)
      && well_spaced ts'
  end.

(** What the [n]-th external process gives the polling loop when it is a
    status query: the status token, or [None] when the query fails or its
    output has no such token, which both raise in the loop. *)
Definition poll_reply (E : environment) (n : nat) (jobid : string) : option string :=
  let r := proc E n ("qstat -a " +:+ jobid) in
  if status r =? 0 then parse_status (stdout r) else None.

(** [k] polls that saw another status than ['C'], each followed by its
    sleep, and the poll that ended the loop. *)
Definition poll_events (jobid : string) (k : nat) : list event :=
  concat (repeat [Exec ("qstat -a " +:+ jobid); Sleep 5] k)
  ++ [Exec ("qstat -a " +:+ jobid)].

Definition torque_par (c : common) (memory time nodes : Z)
  (email alerts jobname : string) : mpirun_par :=
  {| base := c; scheduler := Torque memory time nodes email alerts jobname |}.

Definition slurm_par (c : common) (memory time : Z) (partition : string) : mpirun_par :=
  {| base := c; scheduler := Slurm memory time partition |}.

(** The submission line up to the wall time. *)
Definition qsub_line (loc : string) (c : common) (args : string) (nodes : Z)
  (time_ : string) : string :=
  "echo " +:+ dquote +:+ "mpirun " +:+ python c +:+ " " +:+ loc +:+ " " +:+ args
  +:+ dquote +:+ " | qsub -V -l nodes=" +:+ str_of_int nodes +:+ ",walltime=" +:+ time_.

Definition email_flag (email : string) : string :=
  if truthy email then " -M " +:+ email else EmptyString.

Definition alert_flag (email alerts : string) : string :=
  if truthy email && truthy alerts then " -m " +:+ alerts else EmptyString.

Definition jobname_flag (jobname : string) : string := " -N " +:+ jobname.

(** [needle in haystack] on strings. *)
Definition occurs (needle haystack : string) : bool :=
  match index 0 needle haystack with
  | Some _ => true
  | None => false
  end.

End TorqueSpec.

Module DispatchSpec.
Import PyStr Cmd Merge Dispatch.

Definition np_message : string :=
  "For MPI to be useful, you need at least 2 processes (np>=2)".

Definition postprocessing_calls (system : loc) : list event :=
  [Call bin_oversampling system; Call set_time_0 system;
   Call compute_pblum_or_l3 system; Call set_pblum_or_l3 system;
   Call compute_scale_or_offset system; Call postprocess system].

(** [mpi] is absent from the keyword arguments, or [None]. *)
Definition no_mpi (kwargs : gmap string pyval) : Prop :=
  kwargs !! "mpi" = None \/ kwargs !! "mpi" = Some PyNone.

End DispatchSpec.

(** ** Concrete inputs *)
Module Examples.
Import PyStr Cmd Merge Dispatch MergeSpec TorqueSpec DispatchSpec.

Definition example_common : common :=
  {| np := 4; hostfile := None; byslot := None; python := "python";
     directory := None |}.

(** An environment whose external processes all end with the status [flag]
    after doing [worker] to the files, and whose engine leaves a body as it
    is. *)
Definition example_env (flag : Z)
  (worker : gmap string content -> gmap string content) : environment :=
  {| mpirun_loc := "/opt/phoebe/backend/mpirun.py";
     cwd := "/work";
     default_mpi := {| base := example_common; scheduler := Local |};
     compute_params := fun _ => Return (PyParams []);
     engine := fun _ b => Return b;
     picklable := fun _ => true;
     tempname := fun dir fs =>
       Return (dir +:+ "/tmp" +:+ str_of_int (Z.of_nat (size fs)));
     proc := fun _ _ => {| status := flag; stdout := EmptyString; effect := worker |};
     fctn_name := "compute";
     fctn := fun _ _ _ w => (w, Return (PyInt 7)) |}.

Definition light_curve (ref : string) (times fluxes : list Z) (sigma : Z) : parset :=
  {| context := "lcsyn";
     items := [("ref", VStr ref);
               ("columns", VList [AStr "time"; AStr "flux"]);
               ("time", VList (map ANum times));
               ("flux", VList (map ANum fluxes));
               ("sigma", VList [ANum sigma]);
               ("oversampling", VNum 1)] |}.

Definition example_body : body :=
  {| has_fix_mesh := true; syn := [light_curve "lc01" [0; 1] [10; 11] 5] |}.

Definition example_world : world :=
  {| heap := {[ 0%nat := example_body ]}; files := ∅; procs := 0; trace := [] |}.

Definition example_kwargs : gmap string pyval := {[ "mpi" := PyBool true ]}.

Definition single_process : mpirun_par :=
  {| base := {| np := 1; hostfile := None; byslot := None; python := "python";
                directory := None |};
     scheduler := Local |}.

(** A primary and two replicas of one structure. *)
Definition three_bodies : gmap loc body :=
  <[0%nat := example_body]>
  (<[1%nat := {| has_fix_mesh := true;
                 syn := [light_curve "lc01" [2; 3] [12; 13] 6] |}]>
  (<[2%nat := {| has_fix_mesh := true;
                 syn := [light_curve "lc01" [4; 5] [14; 15] 7] |}]> ∅)).

(** A primary and a replica with another reference and other columns. *)
Definition mismatched_primary : body :=
  {| has_fix_mesh := true;
     syn := [ {| context := "lcsyn";
                 items := [("ref", VStr "lc01");
                           ("columns", VList [AStr "flux"]);
                           ("flux", VList [ANum 1]);
                           ("time", VList [ANum 0])] |} ] |}.

Definition mismatched_replica : body :=
  {| has_fix_mesh := true;
     syn := [ {| context := "rvsyn";
                 items := [("ref", VStr "rv01");
                           ("columns", VList [AStr "flux"; AStr "time"]);
                           ("flux", VList [ANum 2]);
                           ("time", VList [ANum 9])] |} ] |}.

Definition mismatched : gmap loc body :=
  <[0%nat := mismatched_primary]> (<[1%nat := mismatched_replica]> ∅).

(** Records without a [columns] field. *)
Definition orbit (times xs : list Z) : parset :=
  {| context := "orbsyn";
     items := [("ref", VStr "ltt");
               ("bary_time", VList (map ANum times));
               ("x", VList (map ANum xs))] |}.

Definition orbits : gmap loc body :=
  <[0%nat := {| has_fix_mesh := false; syn := [orbit [0] [100]] |}]>
  (<[1%nat := {| has_fix_mesh := false; syn := [orbit [1; 2] [101; 102]] |}]> ∅).

(** A Torque scheduler: the submission prints a job identifier, the start
    query fails, the first status query shows the job running, and the
    second one fails. *)
Definition qstat_header : string :=
  "Job ID       Username Queue Jobname SessID NDS TSK Memory Time S Time".

Definition qstat_job : list (string * string) :=
  [("4242.master", "  "); ("phoebe", "   "); ("batch", " "); ("run", "     ");
   ("4021", "   "); ("1", "   "); ("4", "   "); ("--", "     "); ("01:30", " ")].

Definition qstat_running : string :=
  join_lines [qstat_header;
              spaced (qstat_job ++ [("R", " "); ("00:02", EmptyString)]);
              EmptyString].

Definition torque_env : environment :=
  {| mpirun_loc := "/opt/phoebe/backend/mpirun.py";
     cwd := "/work";
     default_mpi := {| base := example_common; scheduler := Local |};
     compute_params := fun _ => Return (PyParams []);
     engine := fun _ b => Return b;
     picklable := fun _ => true;
     tempname := fun dir fs =>
       Return (dir +:+ "/tmp" +:+ str_of_int (Z.of_nat (size fs)));
     proc := fun n _ =>
       match n with
       | O => {| status := 0; stdout := "4242.master" +:+ String newline EmptyString;
                 effect := fun fs => fs |}
       | 2%nat => {| status := 0; stdout := qstat_running; effect := fun fs => fs |}
       | _ => {| status := 1; stdout := EmptyString; effect := fun fs => fs |}
       end;
     fctn_name := "compute";
     fctn := fun _ _ _ w => (w, Return PyNone) |}.

Definition torque_example : mpirun_par :=
  torque_par example_common 0 90 2 EmptyString EmptyString "run".

Definition torque_example_cmd : string :=
  "echo " +:+ dquote
  +:+ "mpirun python /opt/phoebe/backend/mpirun.py compute s a k" +:+ dquote
  +:+ " | qsub -V -l nodes=2,walltime=01:30:00 -N run".

End Examples.

(** ** The reference selector *)
Module Refs.
Import PyStr Merge MergeSpec.

#[global] Instance atom_countable : Countable atom.
Proof.
  refine (inj_countable'
            (fun a => match a with ANum x => inl x | AStr s => inr s end)
            (fun c => match c with inl x => ANum x | inr s => AStr s end) _).
  intros []; reflexivity.
Defined.

(** What [inspect.getargspec] tells of the decorated function: the names of
    its arguments, and the defaults of the last of them, [None] when no
    argument has one.  A default is a value or Python's [None]. *)
Record argspec : Type := {
  spec_args : list string;
  spec_defaults : option (list (option value))
}.

(** [l.index(x)]. *)
Fixpoint index_of (x : string) (l : list string) : option nat :=
  match l with
  | [] => None
  | y :: l' => if String.eqb y x then Some O else option_map S (index_of x l')
  end.

(** The default of [ref]: that of the decorated function's signature, read
    at the negative index [args.index('ref') - len(args)] of its defaults, and
    ['all'] for a function that has no [ref] argument. *)
Definition ref_default (sig : argspec) : outcome (option value) :=
  match index_of "ref" (spec_args sig) with
  | None => Return (Some (VStr "all"))
  | Some pos =>
      match spec_defaults sig with
      | None => Raise TypeError
      | Some ds =>
          match index_from_end ds (length (spec_args sig) - pos) with
          | Some d => Return d
          | None => Raise IndexError
          end
      end
  end.

(** [s[-3:] == 'dep']. *)
Definition ends_with_dep (s : string) : bool :=
  String.eqb (substring (String.length s - 3) 3 s) "dep".

(** [parset[key]]. *)
Definition item (ps : parset) (key : string) : outcome value :=
  match get key (items ps) with
  | Some v => Return v
  | None => Raise (KeyError key)
  end.

(** What a set can hold of a value: a list is not hashable. *)
Definition hashable (v : value) : outcome atom :=
  match v with
  | VNum x => Return (ANum x)
  | VStr s => Return (AStr s)
  | VList _ => Raise TypeError
  end.

(** [set(l)]. *)
Fixpoint to_set (l : list value) : outcome (gset atom) :=
  match l with
  | [] => Return ∅
  | v :: l' => a <- hashable v ;;; s <- to_set l' ;;; Return ({[a]} ∪ s)
  end.

(** The loop that collects the references of all [dep] parameter sets of
    the walk. *)
Fixpoint dep_refs (walk : list parset) : outcome (list value) :=
  match walk with
  | [] => Return []
  | ps :: rest =>
      if negb (ends_with_dep (context ps)) then dep_refs rest
      else v <- item ps "ref" ;;; vs <- dep_refs rest ;;; Return (v :: vs)
  end.

(** [ref == 'all' or ref == 'alldep' or ref == parset['ref']]: the field is
    read only when the first two fail. *)
Definition matches (ref : value) (ps : parset) : outcome bool :=
  if bool_decide (ref = VStr "all") || bool_decide (ref = VStr "alldep")
  then Return true
  else v <- item ps "ref" ;;; Return (bool_decide (ref = v)).

(** [ref[:3] == 'all' and parset.context[:2] == ref[3:5]]; a number cannot
    be sliced. *)
Definition matches_category (ref : value) (ps : parset) : outcome bool :=
  match ref with
  | VStr s =>
      Return (String.eqb (substring 0 3 s) "all"
              && String.eqb (substring 0 2 (context ps)) (substring 3 2 s))
  | _ => Raise TypeError
  end.

(** The loop of the last branch, for a [ref] that is a string or a
    number. *)
Fixpoint select_refs (ref : value) (walk : list parset) : outcome (list value) :=
  match walk with
  | [] => Return []
  | ps :: rest =>
      if negb (ends_with_dep (context ps)) then select_refs ref rest
      else
        hit <- matches ref ps ;;;
        if hit : bool
        then v <- item ps "ref" ;;; vs <- select_refs ref rest ;;; Return (v :: vs)
        else
          cat <- matches_category ref ps ;;;
          if cat : bool
          then v <- item ps "ref" ;;; vs <- select_refs ref rest ;;; Return (v :: vs)
          else select_refs ref rest
  end.

(** The references [kwargs['ref']] is set to, as a set: the code makes a
    list of a set, whose order is not determined.  [walk] is what
    [self.walk()] yields, and [ref] what [kwargs.pop('ref', default)] gave. *)
Definition expand_ref (walk : list parset) (ref : option value)
  : outcome (gset atom) :=
  match ref with
  | Some (VList given) =>
      vs <- dep_refs walk ;;;
      avail <- to_set (vs ++ [VStr "__bol"]) ;;;
      Return (list_to_set given ∩ avail)
  | None => Return {[AStr "__bol"]}
  | Some r =>
      if bool_decide (r = VStr "__bol") then Return {[AStr "__bol"]}
      else
        vs <- select_refs r walk ;;;
        to_set ((if bool_decide (r = VStr "all") then [VStr "__bol"] else []) ++ vs)
  end.

(** [parse(self, *args, **kwargs)]: [given] is the [ref] of the keyword
    arguments when there is one, and [fctn] the decorated function, as a
    function of the references it is handed. *)
Definition parse_ref {R : Type} (sig : argspec) (fctn : gset atom -> outcome R)
  (walk : list parset) (given : option (option value)) : outcome R :=
  default <- ref_default sig ;;;
  refs <- expand_ref walk (match given with Some r => r | None => default end) ;;;
  fctn refs.

End Refs.

(** ** What the reference selector is to give *)
Module RefsSpec.
Import PyStr Merge MergeSpec Refs.

Definition bol : atom := AStr "__bol".

Definition dep_sets (walk : list parset) : list parset :=
  List.filter (fun ps => ends_with_dep (context ps)) walk.

Definition atom_of (v : value) : option atom :=
  match v with
  | VNum x => Some (ANum x)
  | VStr s => Some (AStr s)
  | VList _ => None
  end.

(** The reference of a parameter set, when it has one that a set can
    hold. *)
Definition ref_of (ps : parset) : option atom :=
  match get "ref" (items ps) with
  | Some v => atom_of v
  | None => None
  end.

(** Every [dep] parameter set of the walk has such a reference. *)
Definition refs_hashable (walk : list parset) : bool :=
  forallb (fun ps => match ref_of ps with Some _ => true | None => false end)
    (dep_sets walk).

(** The references of the [dep] parameter sets of the walk. *)
Definition available (walk : list parset) : gset atom :=
  list_to_set (omap ref_of (dep_sets walk)).

(** The string [s] selects the parameter set: by its reference, or, when it
    starts with ['all'], by the two letters that follow, the first two of the
    context. *)
Definition selected (s : string) (ps : parset) : bool :=
  bool_decide (get "ref" (items ps) = Some (VStr s))
  || (String.eqb (substring 0 3 s) "all"
      && String.eqb (substring 0 2 (context ps)) (substring 3 2 s)).

Definition selection (s : string) (walk : list parset) : gset atom :=
  list_to_set (omap ref_of (List.filter (selected s) (dep_sets walk))).

End RefsSpec.

(** ** Default units of the plotting functions *)
Module Units.
Import PyStr Cmd Dispatch.

(** What [set_default_units] reads of an observation set: its
    [user_columns] and [user_units] fields, each absent, [None], or a list of
    column names and a dictionary from names to units. *)
Record observation : Type := {
  user_columns : option (option (list string));
  user_units : option (option (gmap string string))
}.

(** The decorated function's name, and the two lookups in the system:
    [system.get_obs(category=..., ref=...)], which gives an observation set
    or [None], and the [[0]] of [system.get_parset(category=..., ref=...)],
    whose value the decorator does not use. *)
Record plot_env : Type := {
  plot_name : string;
  get_obs : string -> pyval -> outcome (option observation);
  get_parset : string -> pyval -> outcome unit
}.

Definition underscore : ascii := ascii_of_nat 95.

(** [fctn.__name__.split('_')[1][:-3]]. *)
Definition category_of (name : string) : outcome string :=
  match split_on underscore name !! 1%nat with
  | None => Raise IndexError
  | Some part => Return (substring 0 (String.length part - 3) part)
  end.

(** [x in l] on a list of names. *)
Definition mem (x : string) (l : list string) : bool := existsb (String.eqb x) l.

(** [kwargs.get(key, None)]. *)
Definition get_or_none (kwargs : gmap string pyval) (key : string) : pyval :=
  default PyNone (kwargs !! key).

Definition is_none (v : pyval) : bool :=
  match v with
  | PyNone => true
  | _ => false
  end.

(** [useru[key]]. *)
Definition unit_of (useru : gmap string string) (key : string) : outcome pyval :=
  match useru !! key with
  | Some u => Return (PyStr u)
  | None => Raise (KeyError key)
  end.

(** The block under [if x_unit is None:]. *)
Definition x_default (category : string) (userc : list string)
  (useru : gmap string string) (phased : pyval) (kwargs : gmap string pyval)
  : outcome (gmap string pyval) :=
  if mem category ["lc"; "rv"] then
    let obs_in_time := mem "time" userc in
    if negb (mem (if obs_in_time then "time" else "phase") userc)
    then Raise (ValueError "'phase' is not in list")
    else if obs_in_time && negb (py_truthy phased) then
      if bool_decide (is_Some (useru !! "time")) || bool_decide (is_Some (useru !! "phase"))
      then u <- unit_of useru (if obs_in_time then "time" else "phase") ;;;
           Return (<["x_unit" := u]> kwargs)
      else Return kwargs
    else Return kwargs
  else Return kwargs.

(** The block under [if y_unit is None:].  A dictionary is true when it is
    not empty. *)
Definition y_default (category : string) (userc : list string)
  (useru : gmap string string) (kwargs : gmap string pyval)
  : outcome (gmap string pyval) :=
  if String.eqb category "lc" then
    if mem "flux" userc || mem "mag" userc then
      if negb (bool_decide (useru = ∅))
      then u <- unit_of useru "flux" ;;; Return (<["y_unit" := u]> kwargs)
      else Return kwargs
    else Return kwargs
  else if String.eqb category "rv" && mem "rv" userc && negb (bool_decide (useru = ∅))
  then u <- unit_of useru "rv" ;;; Return (<["y_unit" := u]> kwargs)
  else Return kwargs.

(** The keyword arguments the decorated function is called with. *)
Definition default_units (E : plot_env) (kwargs : gmap string pyval)
  : outcome (gmap string pyval) :=
  if bool_decide (is_Some (kwargs !! "x_unit")) && bool_decide (is_Some (kwargs !! "y_unit"))
  then Return kwargs
  else
    category <- category_of (plot_name E) ;;;
    let ref := default (PyInt 0) (kwargs !! "ref") in
    obs <- get_obs E category ref ;;;
    _ <- get_parset E category ref ;;;
    match obs with
    | Some {| user_columns := Some (Some userc); user_units := Some (Some useru) |} =>
        let x_unit := get_or_none kwargs "x_unit" in
        let y_unit := get_or_none kwargs "x_unit" in
        let phased := get_or_none kwargs "phased" in
        kwargs <- (if is_none x_unit then x_default category userc useru phased kwargs
                   else Return kwargs) ;;;
        if is_none y_unit then y_default category userc useru kwargs
        else Return kwargs
    | _ => Return kwargs
    end.

(** [parse(system, *args, **kwargs)]: every way out of it is a call of the
    decorated function. *)
Definition set_default_units {R : Type} (E : plot_env)
  (fctn : gmap string pyval -> outcome R) (kwargs : gmap string pyval) : outcome R :=
  kwargs <- default_units E kwargs ;;; fctn kwargs.

End Units.

Module UnitsSpec.
Import PyStr Cmd Dispatch Units.

(** What the decorator does once it has an observation set with columns and
    units: both defaults hang on [x_unit], the one value the code reads. *)
Definition with_user_units (category : string) (userc : list string)
  (useru : gmap string string) (kwargs : gmap string pyval)
  : outcome (gmap string pyval) :=
  let x_unit := get_or_none kwargs "x_unit" in
  kwargs' <- (if is_none x_unit
              then x_default category userc useru (get_or_none kwargs "phased") kwargs
              else Return kwargs) ;;;
  if is_none x_unit then y_default category userc useru kwargs' else Return kwargs'.

(** An observation set with the given columns and units. *)
Definition observed (userc : list string) (useru : gmap string string) : observation :=
  {| user_columns := Some (Some userc); user_units := Some (Some useru) |}.

End UnitsSpec.

(** ** The placeholder for light-travel-time results *)
Module Ltt.
Import PyStr Merge MergeSpec Refs.

(** [body.params] as [prepare_ltt] walks into it: a dictionary from the
    type of parameter sets (['syn'], ['obs'], ...) to a dictionary from the
    category (['lcsyn'], ['orbsyn'], ...) to the ordered dictionary of the
    datasets of that category, by reference. *)
Record ltt_body : Type := {
  params : gmap string (gmap string (list (atom * parset)))
}.

(** A system either has [get_bodies], which gives its bodies, or is a body
    itself. *)
Inductive system : Type :=
| Single (b : ltt_body)
| Bag (bodies : list ltt_body).

Definition get_bodies (s : system) : list ltt_body :=
  match s with
  | Single b => [b]
  | Bag bodies => bodies
  end.

Definition set_bodies (s : system) (bodies : list ltt_body) : system :=
  match s with
  | Single b => Single (List.hd b bodies)
  | Bag _ => Bag bodies
  end.

(** The two assignments of the loop on one body.  [orbsyn] is the dataset
    [datasets.DataSet('orbsyn', ref='ltt')] made.  The empty dictionary is in
    place before the dataset's reference is read. *)
Definition prepare_body (orbsyn : parset) (b : ltt_body) : ltt_body * outcome unit :=
  match params b !! "syn" with
  | None => (b, Raise (KeyError "syn"))
  | Some syn =>
      let b1 := {| params := <["syn" := <["orbsyn" := []]> syn]> (params b) |} in
      match item orbsyn "ref" with
      | Raise e => (b1, Raise e)
      | Return ref =>
          match hashable ref with
          | Raise e => (b1, Raise e)
          | Return key =>
              ({| params := <["syn" := <["orbsyn" := [(key, orbsyn)]]> syn]> (params b) |},
               Return tt)
          end
      end
  end.

(** [for body in bodies:], a body being the [i]-th of the list. *)
Definition prepare_at (orbsyn : parset) (i : nat) (bodies : list ltt_body)
  : list ltt_body * outcome unit :=
  match bodies !! i with
  | None => (bodies, Raise IndexError)
  | Some b =>
      match prepare_body orbsyn b with
      | (b', o) => (<[i := b']> bodies, o)
      end
  end.

(** [prepare_ltt(system)], given the dataset the constructor makes. *)
Definition prepare_ltt (orbsyn : parset) (s : system) : system * outcome unit :=
  match for_each (seq 0 (length (get_bodies s))) (prepare_at orbsyn) (get_bodies s) with
  | (bodies, o) => (set_bodies s bodies, o)
  end.

End Ltt.

Module LttSpec.
Import PyStr Merge MergeSpec Refs Ltt.

(** The body with the one placeholder as its only [orbsyn] dataset. *)
Definition with_placeholder (key : atom) (orbsyn : parset) (b : ltt_body) : ltt_body :=
  match params b !! "syn" with
  | Some syn => {| params := <["syn" := <["orbsyn" := [(key, orbsyn)]]> syn]> (params b) |}
  | None => b
  end.

Definition has_syn (b : ltt_body) : bool := bool_decide (is_Some (params b !! "syn")).

Definition map_bodies (f : ltt_body -> ltt_body) (s : system) : system :=
  match s with
  | Single b => Single (f b)
  | Bag bodies => Bag (map f bodies)
  end.

End LttSpec.

(** ** What a merge can do to the heap at most *)
Module GrowSpec.
Import PyStr Merge MergeSpec.

(** A field keeps its name; a list keeps its elements and may have more
    after them; any other value stays. *)
Definition field_grows (kv kv' : string * value) : Prop :=
  fst kv' = fst kv /\
  match snd kv with
  | VList l => exists more, snd kv' = VList (l ++ more)
  | v => snd kv' = v
  end.

Definition record_grows (ps ps' : parset) : Prop :=
  context ps' = context ps /\ Forall2 field_grows (items ps) (items ps').

Definition body_grows (b b' : body) : Prop :=
  has_fix_mesh b' = has_fix_mesh b /\ Forall2 record_grows (syn b) (syn b').

(** From [h] to [h'] nothing happened but appends to lists of the body at
    [p]. *)
Definition only_appends (p : loc) (h h' : gmap loc body) : Prop :=
  (forall l, l <> p -> h' !! l = h !! l) /\
  match h !! p with
  | Some b => exists b', h' !! p = Some b' /\ body_grows b b'
  | None => h' !! p = None
  end.

End GrowSpec.

Module PartialSpec.
Import PyStr Merge MergeSpec.

(** The primary's record after the fields [done] of the replica's record
    were merged in and no other. *)
Definition merged_until (done : list string) (rps pps : parset) : parset :=
  set_items pps
    (map (fun kv => if bool_decide (fst kv ∈ done) then append_from rps kv else kv)
       (items pps)).

(** What [iteration[0][key] += value] raises when the primary's record
    holds [o] under the key and [o] is no list. *)
Definition append_error (key : string) (o : option value) : exn :=
  match o with
  | None => KeyError key
  | Some _ => TypeError
  end.

End PartialSpec.

(** ** More example data *)
Module MoreExamples.
Import PyStr Cmd Merge Dispatch MergeSpec TorqueSpec DispatchSpec Examples.
Import Refs RefsSpec Units UnitsSpec Ltt LttSpec.

(** The walk of a body with a light curve and a radial velocity curve. *)
Definition passbands : list parset :=
  [ {| context := "lcdep"; items := [("ref", VStr "lc01"); ("passband", VStr "V")] |};
    {| context := "rvdep"; items := [("ref", VStr "rv01")] |};
    light_curve "lc01" [0; 1] [10; 11] 5;
    {| context := "orbit"; items := [("period", VNum 3)] |} ].

(** A decorated method [f(self, ref='all', beaming=None)]. *)
Definition example_signature : argspec :=
  {| spec_args := ["self"; "ref"; "beaming"];
     spec_defaults := Some [Some (VStr "all"); None] |}.

(** A plotting function of light curves on a system whose observations
    have the columns [userc] in the units [useru]. *)
Definition plot_lc (userc : list string) (useru : gmap string string) : plot_env :=
  {| plot_name := "plot_lcobs";
     get_obs := fun _ _ => Return (Some (observed userc useru));
     get_parset := fun _ _ => Return tt |}.

Definition days_and_flux : gmap string string :=
  {[ "time" := "d"; "flux" := "W/m3" ]}.

(** A body with synthetic light curves and an old orbit, and one without
    any synthetic results. *)
Definition star_syn : gmap string (list (atom * parset)) :=
  {[ "lcsyn" := [(AStr "lc01", light_curve "lc01" [0] [10] 5)];
     "orbsyn" := [(AStr "old", orbit [0] [100])] ]}.

Definition star : ltt_body := {| params := {[ "syn" := star_syn; "obs" := ∅ ]} |}.

Definition bare : ltt_body := {| params := {[ "obs" := ∅ ]} |}.

(** A primary whose light curve has no fluxes, and a replica that has. *)
Definition no_flux : parset :=
  {| context := "lcsyn";
     items := [("ref", VStr "lc01"); ("time", VList [ANum 0])] |}.

Definition half_mergeable : gmap loc body :=
  <[0%nat := {| has_fix_mesh := true; syn := [no_flux] |}]>
  (<[1%nat := {| has_fix_mesh := true;
                 syn := [light_curve "lc01" [2; 3] [12; 13] 6] |}]> ∅).

(** A scheduler on which a job runs for ever, and one whose every command
    fails. *)
Definition stuck_env : environment :=
  {| mpirun_loc := "/opt/phoebe/backend/mpirun.py";
     cwd := "/work";
     default_mpi := {| base := example_common; scheduler := Local |};
     compute_params := fun _ => Return (PyParams []);
     engine := fun _ b => Return b;
     picklable := fun _ => true;
     tempname := fun dir fs =>
       Return (dir +:+ "/tmp" +:+ str_of_int (Z.of_nat (size fs)));
     proc := fun _ _ => {| status := 0; stdout := qstat_running; effect := fun fs => fs |};
     fctn_name := "compute";
     fctn := fun _ _ _ w => (w, Return PyNone) |}.

Definition four_processes : mpirun_par :=
  {| base := example_common; scheduler := Local |}.

Definition parallel_kwargs : gmap string pyval := {[ "mpi" := PyMpi four_processes ]}.

(** A world where a worker left its results next to the system. *)
Definition results_file : artifacts :=
  {| sys_file := "/work/tmp0"; args_file := "/work/tmp1"; kwargs_file := "/work/tmp2" |}.

Definition computed_body : body :=
  {| has_fix_mesh := true; syn := [light_curve "lc01" [2; 3] [12; 13] 6] |}.

Definition world_with_results : world :=
  {| heap := {[ 0%nat := example_body ]};
     files := {[ "/work/tmp0" := Pickled (PSystem computed_body) ]};
     procs := 1; trace := [] |}.

End MoreExamples.

(** * Properties *)

(** ** The in-place merge and the merge on values *)
Module MergeProofs.
Import PyStr Cmd Merge Dispatch MergeSpec.

Section Simulation.
Context {S S' A : Type} (g : S' -> S).

Lemma for_each_sim (f : A -> S -> S * outcome unit) (f' : A -> S' -> S' * outcome unit) xs :
  (forall x s, In x xs -> f x (g s) = let (s', o) := f' x s in (g s', o)) ->
  forall s, for_each xs f (g s) = let (s', o) := for_each xs f' s in (g s', o).
Proof.
  induction xs as [|x xs IH]; intros Hstep s; simpl; [reflexivity|].
  rewrite Hstep by (left; reflexivity).
  destruct (f' x s) as [s1 [[]|e]]; [|reflexivity].
  apply IH. intros y t Hy. apply Hstep. right; exact Hy.
Qed.

Lemma for_each_sim2 {B : Type} (R : A -> B -> Prop)
  (f : A -> S -> S * outcome unit) (f' : B -> S' -> S' * outcome unit) xs ys :
  Forall2 R xs ys ->
  (forall x y s, R x y -> f x (g s) = let (s', o) := f' y s in (g s', o)) ->
  forall s, for_each xs f (g s) = let (s', o) := for_each ys f' s in (g s', o).
Proof.
  intros HR Hstep. induction HR as [|x y xs ys Hxy HR IH]; intros s; simpl; [reflexivity|].
  rewrite (Hstep x y s Hxy).
  destruct (f' y s) as [s1 [[]|e]]; [|reflexivity].
  apply IH.
Qed.
End Simulation.

Lemma iadd_put h0 p f walk i key v :
  iadd p i key v (put h0 p f walk) =
  match walk !! i with
  | None => (put h0 p f walk, Raise IndexError)
  | Some pps =>
      match append_field key v pps with
      | Return pps' => (put h0 p f (<[i := pps']> walk), Return tt)
      | Raise e => (put h0 p f walk, Raise e)
      end
  end.
Proof.
  unfold iadd, put. rewrite lookup_insert_eq. simpl.
  destruct (walk !! i) as [pps|]; [|reflexivity].
  unfold append_field. destruct (get key (items pps)) as [[l|x|s]|]; try reflexivity.
  rewrite insert_insert_eq. reflexivity.
Qed.

Lemma merge_key_put h0 p r f walk br rps i key :
  p <> r -> h0 !! r = Some br -> syn br !! i = Some rps ->
  merge_key p r i key (put h0 p f walk) =
  let (walk', o) := pure_key rps i key walk in (put h0 p f walk', o).
Proof.
  intros Hne Hr Hi. unfold merge_key, pure_key, syn_at, put.
  rewrite lookup_insert_ne by exact Hne. rewrite Hr, Hi.
  destruct (excluded rps key) as [[|]|e]; try reflexivity.
  destruct (get key (items rps)) as [[v|x|s]|]; try reflexivity.
  fold (put h0 p f walk). rewrite iadd_put.
  destruct (walk !! i) as [pps|]; [|reflexivity].
  destruct (append_field key v pps); reflexivity.
Qed.

Lemma merge_parset_put h0 p r f walk br i :
  p <> r -> h0 !! r = Some br ->
  merge_parset p i r (put h0 p f walk) =
  let (walk', o) := pure_parset i (syn br) walk in (put h0 p f walk', o).
Proof.
  intros Hne Hr. unfold merge_parset, pure_parset, syn_at.
  unfold put at 1. rewrite lookup_insert_ne by exact Hne. rewrite Hr.
  destruct (syn br !! i) as [rps|] eqn:Hi; [|reflexivity].
  destruct (ends_with_syn (context rps)); [|reflexivity].
  apply (for_each_sim (put h0 p f)). intros key s _.
  apply merge_key_put with (br := br); assumption.
Qed.

Lemma walk_lengths_replicas h0 p rs replicas :
  Forall2 (replica_of h0 p) rs replicas ->
  walk_lengths h0 rs = Return (map length replicas).
Proof.
  induction 1 as [|r replica rs replicas [_ (br & Hr & Hs)] _ IH]; simpl; [reflexivity|].
  rewrite Hr, IH. simpl. rewrite Hs. reflexivity.
Qed.

Lemma merge_synthetic_pure h0 p bp rs replicas :
  h0 !! p = Some bp ->
  Forall2 (replica_of h0 p) rs replicas ->
  merge_synthetic (p :: rs) h0 =
  let (walk', o) := pure_merge replicas (syn bp) in
  (put h0 p (has_fix_mesh bp) walk',
   match o with Return _ => Return p | Raise e => Raise e end).
Proof.
  intros Hp HR. unfold merge_synthetic. simpl walk_lengths.
  rewrite Hp, (walk_lengths_replicas _ _ _ _ HR). simpl bind. cbv iota.
  simpl hd. simpl tail.
  assert (Hh : h0 = put h0 p (has_fix_mesh bp) (syn bp)).
  { unfold put. symmetry. apply insert_id. rewrite Hp. destruct bp; reflexivity. }
  rewrite Hh at 1. unfold pure_merge.
  rewrite (for_each_sim (put h0 p (has_fix_mesh bp))
             (fun i => for_each rs (merge_parset p i))
             (fun i => for_each replicas (pure_parset i))).
  - destruct (for_each _ _ (syn bp)) as [walk' [[]|e]]; reflexivity.
  - intros i s _.
    apply (for_each_sim2 (put h0 p (has_fix_mesh bp)) (replica_of h0 p)); [exact HR|].
    intros r replica t [Hne (br & Hr & Hs)]. subst replica.
    apply merge_parset_put; assumption.
Qed.

Lemma get_none_keys k its : get k its = None <-> ~ In k (map fst its).
Proof.
  induction its as [|[k' v] its IH]; simpl; [tauto|].
  destruct (String.eqb_spec k' k) as [->|Hne].
  - split; [discriminate | intros H; exfalso; apply H; left; reflexivity].
  - rewrite IH. tauto.
Qed.

Lemma get_some_keys k its v : get k its = Some v -> In k (map fst its).
Proof.
  intros H. destruct (in_dec string_dec k (map fst its)) as [Hin|Hnin]; [exact Hin|].
  apply get_none_keys in Hnin. congruence.
Qed.

Lemma get_In its k v : NoDup (map fst its) -> In (k, v) its -> get k its = Some v.
Proof.
  induction its as [|[k' v'] its IH]; simpl; [tauto|].
  intros Hnd [Heq|Hin].
  - inversion Heq; subst. rewrite String.eqb_refl. reflexivity.
  - apply NoDup_cons in Hnd as [Hnin Hnd].
    destruct (String.eqb_spec k' k) as [->|Hne].
    + exfalso. apply Hnin. apply list_elem_of_In. apply (in_map fst) in Hin. exact Hin.
    + apply IH; assumption.
Qed.

Lemma set_map k v its :
  NoDup (map fst its) -> In k (map fst its) ->
  set k v its = map (fun kv => if String.eqb (fst kv) k then (k, v) else kv) its.
Proof.
  induction its as [|[k' w] its IH]; simpl; [tauto|].
  intros Hnd Hin. apply NoDup_cons in Hnd as [Hnin Hnd].
  destruct (String.eqb_spec k' k) as [->|Hne].
  - f_equal. rewrite <- (map_id its) at 1. apply map_ext_in.
    intros [k'' w'] Hin'. simpl.
    destruct (String.eqb_spec k'' k) as [->|]; [|reflexivity].
    exfalso. apply Hnin. apply list_elem_of_In. apply (in_map fst) in Hin'. exact Hin'.
  - f_equal. apply IH; [exact Hnd|]. destruct Hin as [Heq|Hin]; [congruence|exact Hin].
Qed.

Lemma excluded_iterable rps k :
  columns_iterable rps = true -> exists b, excluded rps k = Return b.
Proof.
  unfold columns_iterable, excluded. destruct (get "columns" (items rps)) as [[l|x|s]|]; simpl; intros H; try discriminate; eauto.
Qed.

Lemma append_from_fst rps kv : fst (append_from rps kv) = fst kv.
Proof.
  unfold append_from. destruct (snd kv); try reflexivity.
  destruct (get (fst kv) (items rps)) as [[v|x|s]|]; try reflexivity.
  destruct (eligible rps (fst kv)); reflexivity.
Qed.

Lemma keys_merge_record rps pps : keys (merge_record rps pps) = keys pps.
Proof.
  unfold keys, merge_record. simpl. rewrite map_map. apply map_ext. apply append_from_fst.
Qed.

(** The loop over the keys of the replica's record, the keys [ks] still to
    come being among those of the record. *)
Lemma keys_loop rps pps i ks :
  ends_with_syn (context rps) = true ->
  columns_iterable rps = true ->
  NoDup ks -> (forall k, k ∈ ks -> In k (keys rps)) ->
  forall its walk,
    NoDup (map fst its) ->
    (forall k v, k ∈ ks -> get k (items rps) = Some (VList v) ->
                 eligible rps k = true -> is_list (get k its) = true) ->
    walk !! i = Some (set_items pps its) ->
    for_each ks (pure_key rps i) walk =
    (<[i := set_items pps
              (map (fun kv => if bool_decide (fst kv ∈ ks)
                              then append_from rps kv else kv) its)]> walk,
     Return tt).
Proof.
  intros Hsyn Hcols. induction ks as [|k ks IH]; intros Hnd Hsub its walk Hits Hlist Hwalk.
  - simpl for_each. f_equal. symmetry.
    replace (map _ its) with its; [apply list_insert_id; exact Hwalk|].
    rewrite <- (map_id its) at 1. apply map_ext. intros kv.
    rewrite bool_decide_eq_false_2; [reflexivity|apply not_elem_of_nil].
  - apply NoDup_cons in Hnd as [Hk Hnd].
    assert (Hhd : k ∈ k :: ks) by (apply elem_of_cons; left; reflexivity).
    assert (Htl : forall k', k' ∈ ks -> k' ∈ k :: ks) by (intros k' H; apply elem_of_cons; right; exact H).
    assert (Hrest : forall kv : string * value, fst kv <> k ->
              bool_decide (fst kv ∈ k :: ks) = bool_decide (fst kv ∈ ks)).
    { intros kv Hne. apply bool_decide_ext. rewrite elem_of_cons. tauto. }
    assert (Hsame : forall f : string * value -> string * value,
              (forall kv, fst kv = k -> f kv = kv) ->
              map (fun kv => if bool_decide (fst kv ∈ k :: ks) then f kv else kv) its =
              map (fun kv => if bool_decide (fst kv ∈ ks) then f kv else kv) its).
    { intros f Hf. apply map_ext. intros kv.
      destruct (string_dec (fst kv) k) as [Heq|Hne]; [|rewrite Hrest by exact Hne; reflexivity].
      rewrite (Hf kv Heq). destruct (bool_decide _), (bool_decide _); reflexivity. }
    assert (IHsame : for_each ks (pure_key rps i) walk =
              (<[i := set_items pps
                        (map (fun kv => if bool_decide (fst kv ∈ ks)
                                        then append_from rps kv else kv) its)]> walk,
               Return tt)).
    { apply IH; try assumption.
      - intros k' Hk'. apply Hsub, Htl, Hk'.
      - intros k' v Hk'. apply Hlist, Htl, Hk'. }
    simpl for_each. unfold pure_key at 1.
    destruct (excluded_iterable rps k Hcols) as [b Hb]. rewrite Hb.
    assert (Helig : eligible rps k = negb b).
    { unfold eligible. rewrite Hsyn, Hb. destruct b; reflexivity. }
    destruct b.
    { (* the field is not among the columns *)
      rewrite IHsame. f_equal. f_equal. f_equal. symmetry. apply Hsame.
      intros kv Heq. unfold append_from. rewrite Heq, Helig. simpl.
      destruct (snd kv); try reflexivity.
      destruct (get k (items rps)) as [[v|x|s]|]; reflexivity. }
    destruct (get k (items rps)) as [[v|x|s]|] eqn:Hget.
    + (* a list of the replica: appended *)
      rewrite Hwalk.
      pose proof (Hlist k v Hhd Hget Helig) as Hl.
      unfold append_field. simpl items.
      destruct (get k its) as [[l|?|?]|] eqn:Hgk; try discriminate Hl.
      assert (Hin : In k (map fst its)) by (eapply get_some_keys; exact Hgk).
      rewrite (IH Hnd (fun k' Hk' => Hsub k' (Htl k' Hk'))
                 (set k (VList (l ++ v)) its)).
      * rewrite list_insert_insert_eq. f_equal. f_equal. f_equal.
        rewrite (set_map k _ its Hits Hin). rewrite map_map.
        apply map_ext_in. intros [k' w] Hin'. simpl.
        destruct (String.eqb_spec k' k) as [->|Hne].
        -- simpl. rewrite (bool_decide_eq_true_2 (k ∈ k :: ks)) by exact Hhd.
           rewrite (bool_decide_eq_false_2 (k ∈ ks)) by exact Hk.
           pose proof (get_In its k w Hits Hin') as Hw. rewrite Hgk in Hw.
           inversion Hw; subst w. unfold append_from. simpl. rewrite Hget, Helig. reflexivity.
        -- pose proof (Hrest (k', w) Hne) as Hr. simpl in Hr. rewrite Hr. reflexivity.
      * rewrite (set_map k _ its Hits Hin). rewrite map_map.
        erewrite map_ext; [exact Hits|].
        intros [k' w]. simpl. destruct (String.eqb_spec k' k) as [->|]; reflexivity.
      * intros k' v' Hk' Hg' He'.
        assert (Hne : k <> k') by (intros ->; exact (Hk Hk')).
        specialize (Hlist k' v' (Htl k' Hk') Hg' He').
        revert Hlist. clear -Hne. induction its as [|[k'' w] its IHits]; simpl; [discriminate|].
        destruct (String.eqb_spec k'' k) as [->|Hne'].
        -- simpl. destruct (String.eqb_spec k k'); [contradiction|]. tauto.
        -- simpl. destruct (String.eqb_spec k'' k'); [tauto|]. exact IHits.
      * rewrite list_lookup_insert_eq; [reflexivity|]. eapply lookup_lt_Some; exact Hwalk.
    + rewrite IHsame. f_equal. f_equal. f_equal. symmetry. apply Hsame.
      intros kv Heq. unfold append_from. rewrite Heq, Hget. destruct (snd kv); reflexivity.
    + rewrite IHsame. f_equal. f_equal. f_equal. symmetry. apply Hsame.
      intros kv Heq. unfold append_from. rewrite Heq, Hget. destruct (snd kv); reflexivity.
    + exfalso. apply get_none_keys in Hget. apply Hget. apply Hsub. exact Hhd.
Qed.

Lemma for_each_app {S A : Type} (f : A -> S -> S * outcome unit) xs ys s :
  for_each (xs ++ ys) f s =
  match for_each xs f s with
  | (s', Return _) => for_each ys f s'
  | (s', Raise e) => (s', Raise e)
  end.
Proof.
  revert s. induction xs as [|x xs IH]; intros s; simpl; [reflexivity|].
  destruct (f x s) as [s1 [[]|e]]; [apply IH|reflexivity].
Qed.

Lemma appendable_inv rps pps :
  appendable rps pps = true ->
  NoDup (keys rps) /\ NoDup (keys pps) /\ columns_iterable rps = true /\
  forall k v, get k (items rps) = Some (VList v) -> eligible rps k = true ->
              is_list (get k (items pps)) = true.
Proof.
  unfold appendable. rewrite !andb_true_iff, !bool_decide_eq_true, forallb_forall.
  intros [[[H1 H2] H3] H4]. repeat split; try assumption.
  intros k v Hget Hel.
  assert (Hin : In (k, VList v) (items rps)).
  { clear -Hget. induction (items rps) as [|[k' w] its IH]; simpl in *; [discriminate|].
    destruct (String.eqb_spec k' k) as [->|]; [left; congruence|right; auto]. }
  specialize (H4 _ Hin). simpl in H4. rewrite Hel in H4. exact H4.
Qed.

Lemma merge_record_not_syn rps pps :
  ends_with_syn (context rps) = false -> merge_record rps pps = pps.
Proof.
  intros H. unfold merge_record. replace (map (append_from rps) (items pps)) with (items pps).
  - destruct pps; reflexivity.
  - rewrite <- (map_id (items pps)) at 1. apply map_ext. intros kv.
    unfold append_from, eligible. rewrite H. simpl.
    destruct (snd kv); try reflexivity. destruct (get _ _) as [[?|?|?]|]; reflexivity.
Qed.

Lemma pure_parset_appendable i replica walk rps pps :
  replica !! i = Some rps -> walk !! i = Some pps ->
  appendable rps pps = true ->
  pure_parset i replica walk = (<[i := merge_record rps pps]> walk, Return tt).
Proof.
  intros Hr Hw Happ. unfold pure_parset. rewrite Hr.
  destruct (ends_with_syn (context rps)) eqn:Hsyn.
  - apply appendable_inv in Happ as (Hnr & Hnp & Hcols & Hlist).
    rewrite (keys_loop rps pps i (keys rps) Hsyn Hcols Hnr (fun k H => proj1 (list_elem_of_In _ _) H)
               (items pps) walk Hnp).
    + f_equal. f_equal. unfold merge_record. f_equal. apply map_ext. intros kv.
      destruct (bool_decide (fst kv ∈ keys rps)) eqn:Hd; [reflexivity|].
      apply bool_decide_eq_false in Hd. rewrite list_elem_of_In in Hd.
      apply get_none_keys in Hd. unfold append_from. rewrite Hd.
      destruct (snd kv); reflexivity.
    + intros k v _. apply Hlist.
    + rewrite Hw. destruct pps; reflexivity.
  - rewrite merge_record_not_syn by exact Hsyn. rewrite list_insert_id by exact Hw. reflexivity.
Qed.

Lemma is_list_get_merge_record rps pps k :
  is_list (get k (items (merge_record rps pps))) = is_list (get k (items pps)).
Proof.
  unfold merge_record. simpl. induction (items pps) as [|[k' w] its IH]; simpl; [reflexivity|].
  pose proof (append_from_fst rps (k', w)) as Hf.
  destruct (append_from rps (k', w)) as [k'' w'] eqn:Ha. simpl in Hf. subst k''.
  destruct (String.eqb_spec k' k) as [->|]; [|exact IH].
  unfold append_from in Ha. simpl in Ha.
  destruct w; try (inversion Ha; reflexivity).
  destruct (get k (items rps)) as [[?|?|?]|]; try (inversion Ha; reflexivity).
  destruct (eligible rps k); inversion Ha; reflexivity.
Qed.

Lemma appendable_merge_record rps rps' pps :
  appendable rps pps = true -> appendable rps (merge_record rps' pps) = true.
Proof.
  unfold appendable. rewrite !andb_true_iff, !bool_decide_eq_true, !forallb_forall.
  intros [[[H1 H2] H3] H4]. repeat split; try assumption.
  - rewrite keys_merge_record. exact H2.
  - intros kv Hin. rewrite is_list_get_merge_record. apply H4, Hin.
Qed.

Lemma replicas_loop i replicas :
  forall walk pps,
    walk !! i = Some pps ->
    (forall replica, In replica replicas ->
       exists rps, replica !! i = Some rps /\ appendable rps pps = true) ->
    for_each replicas (pure_parset i) walk =
    (<[i := merged_at replicas i pps]> walk, Return tt).
Proof.
  induction replicas as [|replica replicas IH]; intros walk pps Hw Hall.
  - simpl. rewrite list_insert_id by exact Hw. reflexivity.
  - destruct (Hall replica (or_introl eq_refl)) as (rps & Hr & Happ).
    simpl for_each. rewrite (pure_parset_appendable i replica walk rps pps Hr Hw Happ).
    rewrite (IH _ (merge_record rps pps)).
    + rewrite list_insert_insert_eq. unfold merged_at. simpl. rewrite Hr. reflexivity.
    + apply list_lookup_insert_eq. eapply lookup_lt_Some; exact Hw.
    + intros replica' Hin. destruct (Hall replica' (or_intror Hin)) as (rps' & Hr' & Happ').
      exists rps'. split; [exact Hr'|]. apply appendable_merge_record. exact Happ'.
Qed.

Lemma zip_length_le n ns :
  (zip_length (n :: ns) <= n)%nat /\ Forall (fun m => (zip_length (n :: ns) <= m)%nat) ns.
Proof.
  simpl. revert n. induction ns as [|m ns IH]; intros n; simpl; [split; [lia|constructor]|].
  destruct (IH (Nat.min n m)) as [H1 H2]. split; [lia|].
  constructor; [lia|exact H2].
Qed.

Lemma datasets_loop replicas walk n :
  (n <= zip_length (length walk :: map length replicas))%nat ->
  records_appendable replicas walk ->
  for_each (seq 0 n) (fun i => for_each replicas (pure_parset i)) walk =
  (imap (fun i pps => if Nat.ltb i n then merged_at replicas i pps else pps) walk,
   Return tt).
Proof.
  intros Hn Hm. induction n as [|n IH].
  - simpl. f_equal. apply list_eq. intros j. rewrite list_lookup_imap.
    destruct (walk !! j); reflexivity.
  - rewrite seq_S, for_each_app, IH by lia. simpl for_each.
    destruct (zip_length_le (length walk) (map length replicas)) as [Hlw Hlr].
    assert (Hlt : (n < length walk)%nat) by lia.
    destruct (lookup_lt_is_Some_2 walk n Hlt) as [pps Hpps].
    rewrite (replicas_loop n replicas _ pps).
    + f_equal. apply list_eq. intros j.
      destruct (decide (j = n)) as [->|Hne].
      * rewrite list_lookup_insert_eq by (rewrite length_imap; exact Hlt).
        rewrite list_lookup_imap, Hpps. simpl.
        rewrite (proj2 (Nat.ltb_lt n (S n))) by lia. reflexivity.
      * rewrite list_lookup_insert_ne by congruence.
        rewrite !list_lookup_imap. destruct (walk !! j) as [q|]; [|reflexivity]. simpl.
        destruct (Nat.ltb_spec j n), (Nat.ltb_spec j (S n)); try reflexivity; lia.
    + rewrite list_lookup_imap, Hpps. simpl. rewrite Nat.ltb_irrefl. reflexivity.
    + intros replica Hin.
      assert (Hlen : (n < length replica)%nat).
      { rewrite Forall_forall in Hlr. specialize (Hlr (length replica)).
        assert (length replica ∈ map length replicas).
        { apply list_elem_of_In, in_map, Hin. }
        specialize (Hlr H). lia. }
      destruct (lookup_lt_is_Some_2 replica n Hlen) as [rps Hrps].
      exists rps. split; [exact Hrps|]. eapply Hm; eassumption.
Qed.

Lemma pure_merge_mergeable replicas walk :
  records_appendable replicas walk ->
  pure_merge replicas walk = (merged_walk replicas walk, Return tt).
Proof.
  intros Hm. unfold pure_merge, merged_walk. apply datasets_loop; [lia|exact Hm].
Qed.

(** The in-place merge of replicas that can be merged, none of them the
    primary itself. *)
Lemma merge_synthetic_mergeable h0 p bp rs replicas :
  h0 !! p = Some bp ->
  Forall2 (replica_of h0 p) rs replicas ->
  records_appendable replicas (syn bp) ->
  merge_synthetic (p :: rs) h0 =
  (<[p := {| has_fix_mesh := has_fix_mesh bp; syn := merged_walk replicas (syn bp) |}]> h0,
   Return p).
Proof.
  intros Hp HR Hm. rewrite (merge_synthetic_pure h0 p bp rs replicas Hp HR).
  rewrite (pure_merge_mergeable _ _ Hm). reflexivity.
Qed.

Lemma get_merge_record rps pps k :
  get k (items (merge_record rps pps)) =
  match get k (items pps) with
  | Some (VList l) =>
      Some (VList (l ++ (if eligible rps k then value_list (get k (items rps)) else [])))
  | o => o
  end.
Proof.
  unfold merge_record. simpl. induction (items pps) as [|[k' w] its IH]; simpl; [reflexivity|].
  pose proof (append_from_fst rps (k', w)) as Hf.
  destruct (append_from rps (k', w)) as [k'' w'] eqn:Ha. simpl in Hf. subst k''.
  destruct (String.eqb_spec k' k) as [->|]; [|exact IH].
  unfold append_from in Ha. simpl in Ha.
  destruct w as [l|x|s]; try (inversion Ha; reflexivity).
  destruct (get k (items rps)) as [[v|x|s]|]; simpl;
    destruct (eligible rps k); inversion Ha; rewrite ?app_nil_r; reflexivity.
Qed.

Lemma context_merged_at replicas i : forall pps,
  context (merged_at replicas i pps) = context pps.
Proof.
  induction replicas as [|replica replicas IH]; intros pps; [reflexivity|].
  unfold merged_at in *. simpl. rewrite IH. destruct (replica !! i); reflexivity.
Qed.

Lemma keys_merged_at replicas i : forall pps,
  keys (merged_at replicas i pps) = keys pps.
Proof.
  induction replicas as [|replica replicas IH]; intros pps; [reflexivity|].
  unfold merged_at in *. simpl. rewrite IH.
  destruct (replica !! i); [apply keys_merge_record|reflexivity].
Qed.

Lemma get_merged_at replicas i k : forall pps,
  get k (items (merged_at replicas i pps)) =
  match get k (items pps) with
  | Some (VList l) => Some (VList (l ++ concat (map (contribution i k) replicas)))
  | o => o
  end.
Proof.
  induction replicas as [|replica replicas IH]; intros pps.
  - simpl. destruct (get k (items pps)) as [[l|x|s]|]; rewrite ?app_nil_r; reflexivity.
  - unfold merged_at in *. simpl fold_left. rewrite IH. simpl map. simpl concat.
    assert (Hc : contribution i k replica =
                 match replica !! i with
                 | Some rps => if eligible rps k then value_list (get k (items rps)) else []
                 | None => []
                 end) by reflexivity.
    rewrite Hc. clear Hc.
    destruct (replica !! i) as [rps|].
    + rewrite get_merge_record.
      destruct (get k (items pps)) as [[l|x|s]|]; try reflexivity.
      rewrite <- app_assoc. reflexivity.
    + destruct (get k (items pps)) as [[l|x|s]|]; reflexivity.
Qed.

Lemma same_structure_inv a b :
  same_structure a b = true ->
  context a = context b /\ keys a = keys b /\
  get "columns" (items a) = get "columns" (items b) /\
  forall k v, get k (items a) = Some v ->
              exists w, get k (items b) = Some w /\ same_kind v w = true.
Proof.
  unfold same_structure. rewrite !andb_true_iff, !bool_decide_eq_true, forallb_forall.
  intros [[[H1 H2] H3] H4]. apply String.eqb_eq in H1. repeat split; try assumption.
  intros k v Hget.
  assert (Hin : In (k, v) (items a)).
  { clear -Hget. induction (items a) as [|[k' w] its IH]; simpl in *; [discriminate|].
    destruct (String.eqb_spec k' k) as [->|]; [left; congruence|right; auto]. }
  specialize (H4 _ Hin). simpl in H4.
  destruct (get k (items b)) as [w|]; [eauto|discriminate].
Qed.

Lemma eligible_same_structure a b k :
  same_structure a b = true -> eligible b k = eligible a k.
Proof.
  intros H. apply same_structure_inv in H as (Hc & _ & Hcol & _).
  unfold eligible, excluded. rewrite Hc, Hcol. reflexivity.
Qed.

Lemma same_structure_appendable pps rps :
  well_formed pps = true -> same_structure pps rps = true -> appendable rps pps = true.
Proof.
  intros Hwf Hs. pose proof (eligible_same_structure _ _ "" Hs) as _.
  apply same_structure_inv in Hs as (Hc & Hk & Hcol & Hkind).
  unfold well_formed in Hwf. apply andb_true_iff in Hwf as [Hnd Hit].
  apply bool_decide_eq_true in Hnd.
  unfold appendable. rewrite !andb_true_iff, !bool_decide_eq_true, forallb_forall.
  repeat split.
  - rewrite <- Hk. exact Hnd.
  - exact Hnd.
  - unfold columns_iterable in *. rewrite <- Hcol. exact Hit.
  - intros [k v] Hin. simpl.
    destruct v as [v|x|s]; simpl; try reflexivity.
    destruct (eligible rps k); simpl; [|reflexivity].
    assert (Hkin : In k (keys pps)).
    { rewrite Hk. unfold keys. apply (in_map fst) in Hin. exact Hin. }
    destruct (get k (items pps)) as [w|] eqn:Hg.
    + destruct (Hkind k w Hg) as (w' & Hg' & Hsk).
      assert (Hnd' : NoDup (map fst (items rps))) by (fold (keys rps); rewrite <- Hk; exact Hnd).
      rewrite (get_In _ _ _ Hnd' Hin) in Hg'. inversion Hg'; subst w'.
      destruct w; simpl in Hsk; [reflexivity|discriminate|discriminate].
    + apply get_none_keys in Hg. contradiction.
Qed.

Lemma replicas_of_locs (h : gmap loc body) p (P : list parset -> Prop) rs :
  Forall (fun r => r <> p /\ exists br, h !! r = Some br /\ P (syn br)) rs ->
  exists replicas, Forall2 (replica_of h p) rs replicas /\ Forall P replicas.
Proof.
  induction 1 as [|r rs (Hne & br & Hr & HP) _ (replicas & HR & HF)].
  - exists []. split; constructor.
  - exists (syn br :: replicas). split; constructor; try assumption.
    split; [congruence|]. exists br. split; [exact Hr|reflexivity].
Qed.

Lemma zip_length_same n ns :
  Forall (fun m => m = n) ns -> zip_length (n :: ns) = n.
Proof.
  simpl. induction 1 as [|m ns -> _ IH]; simpl; [reflexivity|].
  rewrite Nat.min_id. exact IH.
Qed.

Lemma merged_walk_lookup replicas walk i pps :
  walk !! i = Some pps ->
  (i < zip_length (length walk :: map length replicas))%nat ->
  merged_walk replicas walk !! i = Some (merged_at replicas i pps).
Proof.
  intros Hw Hlt. unfold merged_walk.
  remember (zip_length (length walk :: map length replicas)) as n.
  rewrite list_lookup_imap, Hw. simpl.
  rewrite (proj2 (Nat.ltb_lt _ _) Hlt). reflexivity.
Qed.

Lemma contributions_of_locs h p rs replicas i k :
  Forall2 (replica_of h p) rs replicas ->
  map (fun replica => match replica !! i with
                      | Some rps => value_list (get k (items rps))
                      | None => []
                      end) replicas =
  map (fun r => replica_field h r i k) rs.
Proof.
  induction 1 as [|r replica rs replicas [_ (br & Hr & Hs)] _ IH]; simpl; [reflexivity|].
  rewrite IH. f_equal. unfold replica_field, syn_at. rewrite Hr, Hs. reflexivity.
Qed.

Lemma concat_same_length {A : Type} (n : nat) (ls : list (list A)) :
  Forall (fun l => length l = n) ls -> length (concat ls) = (length ls * n)%nat.
Proof.
  induction 1 as [|l ls Hl _ IH]; simpl; [reflexivity|].
  rewrite length_app, IH, Hl. reflexivity.
Qed.

(** C8, amended.  Merging a primary with [N] replicas of its own structure,
    each of them another object than the primary, changes the body at the
    primary's location only and returns that location, the first of the
    list.  Each list field that takes part becomes the primary's list
    followed by the replicas' lists in the order of the replicas, [N + 1]
    times as long as one of them; every other field, every context and every
    sequence of names stays as it was.  With no replica the heap is returned
    as it was. *)
Theorem merge_identical_replicas (h : gmap loc body) (p : loc) (bp : body) (rs : list loc) :
  h !! p = Some bp ->
  Forall (fun ps => well_formed ps = true) (syn bp) ->
  Forall (fun r => r <> p /\
            exists br, h !! r = Some br /\ structurally_identical (syn bp) (syn br)) rs ->
  exists walk',
    merge_synthetic (p :: rs) h =
      (<[p := {| has_fix_mesh := has_fix_mesh bp; syn := walk' |}]> h, Return p)
    /\ (rs = [] -> merge_synthetic (p :: rs) h = (h, Return p))
    /\ length walk' = length (syn bp)
    /\ forall i pps, syn bp !! i = Some pps ->
       exists pps',
         walk' !! i = Some pps' /\ context pps' = context pps /\ keys pps' = keys pps /\
         forall k w, get k (items pps) = Some w ->
           match w with
           | VList l =>
               if eligible pps k
               then let merged := (l ++ concat (map (fun r => replica_field h r i k) rs))%list in
                    get k (items pps') = Some (VList merged)
                    /\ length merged = (S (length rs) * length l)%nat
               else get k (items pps') = Some w
           | _ => get k (items pps') = Some w
           end.
Proof.
  intros Hp Hwf Hrs.
  destruct (replicas_of_locs h p _ rs Hrs) as (replicas & HR & Hid).
  assert (Hm : records_appendable replicas (syn bp)).
  { intros replica i rps pps Hin Hr Hw.
    rewrite Forall_forall in Hid. specialize (Hid replica (proj2 (list_elem_of_In _ _) Hin)).
    apply same_structure_appendable.
    - rewrite Forall_forall in Hwf. apply Hwf. apply list_elem_of_lookup. eauto.
    - exact (Forall2_lookup_lr _ _ _ _ _ _ Hid Hw Hr). }
  assert (Hz : zip_length (length (syn bp) :: map length replicas) = length (syn bp)).
  { apply zip_length_same. apply Forall_forall. intros m Hm'.
    apply list_elem_of_In, in_map_iff in Hm' as (replica & <- & Hin).
    rewrite Forall_forall in Hid. specialize (Hid replica (proj2 (list_elem_of_In _ _) Hin)).
    symmetry. exact (Forall2_length _ _ _ Hid). }
  pose proof (merge_synthetic_mergeable h p bp rs replicas Hp HR Hm) as Hmerge.
  exists (merged_walk replicas (syn bp)). split; [exact Hmerge|]. split; [|split].
  - intros ->. inversion HR; subst. rewrite Hmerge. f_equal.
    apply insert_id. rewrite Hp. f_equal.
    destruct bp as [f walk]. simpl. f_equal.
    apply list_eq. intros j. unfold merged_walk. rewrite list_lookup_imap.
    destruct (walk !! j); simpl; [|reflexivity]. destruct (Nat.ltb _ _); reflexivity.
  - unfold merged_walk. apply length_imap.
  - intros i pps Hw. exists (merged_at replicas i pps).
    split; [|split; [apply context_merged_at|split; [apply keys_merged_at|]]].
    { apply merged_walk_lookup; [exact Hw|]. rewrite Hz. eapply lookup_lt_Some; exact Hw. }
    intros k w Hget. rewrite get_merged_at, Hget.
    destruct w as [l|x|s]; try reflexivity.
    assert (Hrec : Forall (fun replica => exists rps, replica !! i = Some rps /\
                                           same_structure pps rps = true) replicas).
    { rewrite Forall_forall in *. intros replica Hin. specialize (Hid replica Hin).
      destruct (Forall2_lookup_l _ _ _ _ _ Hid Hw) as (rps & Hr & Hs). eauto. }
    destruct (eligible pps k) eqn:Hel.
    + assert (Hcontr : map (contribution i k) replicas =
                       map (fun r => replica_field h r i k) rs).
      { rewrite <- (contributions_of_locs h p rs replicas i k HR).
        apply map_ext_in. intros replica Hin. unfold contribution.
        rewrite Forall_forall in Hrec.
        destruct (Hrec replica (proj2 (list_elem_of_In _ _) Hin)) as (rps & Hr & Hs).
        rewrite Hr, (eligible_same_structure _ _ k Hs), Hel. reflexivity. }
      rewrite Hcontr. cbv zeta. split; [reflexivity|].
      rewrite length_app, (concat_same_length (length l)).
      * rewrite length_map. lia.
      * rewrite <- Hcontr. apply Forall_forall. intros c Hc.
        apply list_elem_of_In, in_map_iff in Hc as (replica & <- & Hin).
        rewrite Forall_forall in Hrec.
        destruct (Hrec replica (proj2 (list_elem_of_In _ _) Hin)) as (rps & Hr & Hs).
        unfold contribution. rewrite Hr, (eligible_same_structure _ _ k Hs), Hel.
        apply same_structure_inv in Hs as (_ & _ & _ & Hkind).
        destruct (Hkind k _ Hget) as (w' & Hg' & Hsk). rewrite Hg'.
        destruct w'; simpl in Hsk; try discriminate. simpl.
        symmetry. apply Nat.eqb_eq. exact Hsk.
    + replace (concat (map (contribution i k) replicas)) with (@nil atom);
        [rewrite app_nil_r; reflexivity|].
      symmetry. clear -Hrec Hel. induction Hrec as [|replica replicas (rps & Hr & Hs) _ IH]; [reflexivity|].
      simpl. rewrite IH. unfold contribution.
      rewrite Hr, (eligible_same_structure _ _ k Hs), Hel. reflexivity.
Qed.

Lemma combine_lookup {A B : Type} (l : list A) (k : list B) i a b :
  l !! i = Some a -> k !! i = Some b -> In (a, b) (combine l k).
Proof.
  revert k i. induction l as [|x l IH]; intros [|y k] [|i]; simpl; try discriminate.
  - intros [= ->] [= ->]. left; reflexivity.
  - intros Ha Hb. right. eapply IH; eassumption.
Qed.

Lemma mergeable_sound replicas walk :
  mergeable replicas walk = true -> records_appendable replicas walk.
Proof.
  unfold mergeable. rewrite forallb_forall. intros H replica i rps pps Hin Hr Hw.
  specialize (H replica Hin). rewrite forallb_forall in H.
  exact (H (rps, pps) (combine_lookup _ _ _ _ _ Hr Hw)).
Qed.

(** C3, amended.  The merge compares neither references nor the primary's
    columns.  It pairs the records of the two walks by position, up to the
    shorter walk, and, when the paired records can be merged, it returns the
    primary with each list field extended by the replica's list of the same
    name wherever the replica's own record lets the field take part. *)
Theorem merge_pairs_by_position (h : gmap loc body) (p r : loc) (bp br : body) :
  h !! p = Some bp -> h !! r = Some br -> r <> p ->
  mergeable [syn br] (syn bp) = true ->
  exists walk',
    merge_synthetic [p; r] h =
      (<[p := {| has_fix_mesh := has_fix_mesh bp; syn := walk' |}]> h, Return p)
    /\ length walk' = length (syn bp)
    /\ forall i pps, syn bp !! i = Some pps ->
       exists pps',
         walk' !! i = Some pps' /\
         forall k,
           get k (items pps') =
           match get k (items pps), syn br !! i with
           | Some (VList l), Some rps =>
               Some (VList (l ++ (if eligible rps k
                                  then value_list (get k (items rps)) else [])))
           | o, _ => o
           end.
Proof.
  intros Hp Hr Hne Hm. apply mergeable_sound in Hm.
  assert (HR : Forall2 (replica_of h p) [r] [syn br]).
  { constructor; [|constructor]. split; [congruence|]. exists br. split; [exact Hr|reflexivity]. }
  exists (merged_walk [syn br] (syn bp)).
  split; [exact (merge_synthetic_mergeable h p bp [r] [syn br] Hp HR Hm)|].
  split; [apply length_imap|].
  intros i pps Hw. unfold merged_walk. rewrite list_lookup_imap, Hw.
  remember (zip_length _) as n eqn:Hn. simpl.
  destruct (Nat.ltb_spec i n) as [Hlt|Hge].
  - exists (merged_at [syn br] i pps). split; [reflexivity|]. intros k.
    rewrite get_merged_at. simpl. unfold contribution.
    destruct (get k (items pps)) as [[l|x|s]|]; try reflexivity.
    destruct (syn br !! i) as [rps|]; rewrite !app_nil_r; reflexivity.
  - exists pps. split; [reflexivity|]. intros k.
    assert (Hnone : syn br !! i = None).
    { apply lookup_ge_None. subst n. simpl in Hge.
      apply lookup_lt_Some in Hw. lia. }
    rewrite Hnone. destruct (get k (items pps)) as [[l|x|s]|]; reflexivity.
Qed.

(** C10.  A synthetic record of the replica that has no [columns] field
    excludes nothing: each of its list fields is appended to the primary's
    field of the same name. *)
Theorem merge_without_columns (h : gmap loc body) (p r : loc) (bp br : body)
  (i : nat) (rps pps : parset) :
  h !! p = Some bp -> h !! r = Some br -> r <> p ->
  mergeable [syn br] (syn bp) = true ->
  syn br !! i = Some rps -> syn bp !! i = Some pps ->
  ends_with_syn (context rps) = true ->
  get "columns" (items rps) = None ->
  exists h' pps',
    merge_synthetic [p; r] h = (h', Return p)
    /\ syn_at h' p i = Some pps'
    /\ forall k v, get k (items rps) = Some (VList v) ->
         exists l, get k (items pps) = Some (VList l)
                   /\ get k (items pps') = Some (VList (l ++ v)).
Proof.
  intros Hp Hr Hne Hm Hri Hpi Hsyn Hcol. apply mergeable_sound in Hm.
  assert (HR : Forall2 (replica_of h p) [r] [syn br]).
  { constructor; [|constructor]. split; [congruence|]. exists br. split; [exact Hr|reflexivity]. }
  eexists. exists (merge_record rps pps).
  split; [exact (merge_synthetic_mergeable h p bp [r] [syn br] Hp HR Hm)|]. split.
  - unfold syn_at. rewrite lookup_insert_eq. simpl syn.
    rewrite (merged_walk_lookup [syn br] (syn bp) i pps Hpi).
    + unfold merged_at. simpl. rewrite Hri. reflexivity.
    + simpl. apply lookup_lt_Some in Hri, Hpi. lia.
  - intros k v Hget.
    assert (Hel : eligible rps k = true).
    { unfold eligible, excluded. rewrite Hsyn, Hcol. reflexivity. }
    pose proof (Hm (syn br) i rps pps (or_introl eq_refl) Hri Hpi) as Happ.
    apply appendable_inv in Happ as (_ & _ & _ & Hlist).
    specialize (Hlist k v Hget Hel).
    rewrite get_merge_record. destruct (get k (items pps)) as [[l|x|s]|]; try discriminate.
    exists l. rewrite Hel, Hget. split; reflexivity.
Qed.

End MergeProofs.

(** ** The Torque status query and polling loop *)
Module TorqueProofs.
Import PyStr Cmd Merge Dispatch TorqueSpec.

Lemma split_on_no_sep l :
  no_newline l = true -> split_on newline l = [l].
Proof.
  induction l as [|c l IH]; simpl; [reflexivity|].
  intros H. apply andb_true_iff in H as [Hc Hl].
  destruct (Ascii.eqb c newline); [discriminate|]. rewrite (IH Hl). reflexivity.
Qed.

Lemma split_on_line l rest :
  no_newline l = true ->
  split_on newline (l +:+ String newline rest) = l :: split_on newline rest.
Proof.
  induction l as [|c l IH]; simpl.
  - intros _. reflexivity.
  - intros H. apply andb_true_iff in H as [Hc Hl].
    destruct (Ascii.eqb c newline); [discriminate|]. rewrite (IH Hl). reflexivity.
Qed.

Lemma split_on_join_lines ls :
  ls <> [] -> forallb no_newline ls = true ->
  split_on newline (join_lines ls) = ls.
Proof.
  induction ls as [|l ls IH]; [congruence|]. intros _ H.
  simpl in H. apply andb_true_iff in H as [Hl Hls].
  destruct ls as [|l' ls].
  - simpl. apply split_on_no_sep, Hl.
  - change (join_lines (l :: l' :: ls)) with (l +:+ String newline (join_lines (l' :: ls))).
    rewrite (split_on_line _ _ Hl), IH; [reflexivity|discriminate|exact Hls].
Qed.

Lemma index_from_end_2 {A : Type} (pre : list A) (a b : A) :
  index_from_end (pre ++ [a; b]) 2 = Some a.
Proof.
  unfold index_from_end. rewrite length_app. simpl length.
  destruct (Nat.ltb_spec (length pre + 2) 2); [lia|].
  replace (length pre + 2 - 2)%nat with (length pre + 0)%nat by lia.
  rewrite lookup_app_r by lia. replace (length pre + 0 - length pre)%nat with 0%nat by lia.
  reflexivity.
Qed.

Lemma split_ws_blank s : blank s = true -> split_ws s = [].
Proof.
  induction s as [|c s IH]; simpl; [reflexivity|].
  intros H. apply andb_true_iff in H as [Hc Hs]. rewrite Hc. apply IH, Hs.
Qed.

Lemma split_ws_lead lead s : blank lead = true -> split_ws (lead +:+ s) = split_ws s.
Proof.
  induction lead as [|c lead IH]; simpl; [reflexivity|].
  intros H. apply andb_true_iff in H as [Hc Hs]. rewrite Hc. apply IH, Hs.
Qed.

(** A token followed by nothing or by whitespace is the first token. *)
Lemma split_ws_word t rest :
  word t = true ->
  match rest with EmptyString => true | String c _ => is_space c end = true ->
  split_ws (t +:+ rest) = t :: split_ws rest.
Proof.
  unfold word. intros H Hrest. apply andb_true_iff in H as [Hne Hall].
  induction t as [|c t IH]; [discriminate|].
  simpl in Hall. apply andb_true_iff in Hall as [Hc Ht].
  apply negb_true_iff in Hc.
  destruct t as [|c' t].
  - change (String c EmptyString +:+ rest) with (String c rest).
    cbn [split_ws]. rewrite Hc. destruct rest as [|c' rest]; [reflexivity|].
    rewrite Hrest. reflexivity.
  - change ((String c (String c' t)) +:+ rest) with (String c (String c' t +:+ rest)).
    assert (Hc' : is_space c' = false).
    { simpl in Ht. apply andb_true_iff in Ht as [Hc' _]. apply negb_true_iff in Hc'. exact Hc'. }
    assert (IH' := IH eq_refl Ht).
    change (String c' t +:+ rest) with (String c' (t +:+ rest)) in *.
    cbn [split_ws]. rewrite Hc, Hc'. cbn [split_ws] in IH'. rewrite Hc' in IH'.
    rewrite IH'. reflexivity.
Qed.

Lemma split_ws_spaced ts :
  well_spaced ts = true -> split_ws (spaced ts) = map fst ts.
Proof.
  induction ts as [|[t sp] ts IH]; simpl; [reflexivity|].
  rewrite !andb_true_iff. intros [[[Hw Hb] Hsp] Hts].
  rewrite split_ws_word; [|exact Hw|].
  - rewrite (split_ws_lead _ _ Hb), (IH Hts). reflexivity.
  - destruct sp as [|c sp]; simpl.
    + destruct ts as [|[t' sp'] ts]; [reflexivity|]. simpl in Hsp. discriminate.
    + simpl in Hb. apply andb_true_iff in Hb as [Hc _]. exact Hc.
Qed.

Lemma rstrip_empty_blank s : rstrip s = EmptyString -> blank s = true.
Proof.
  induction s as [|c s IH]; [reflexivity|]. cbn [rstrip blank all_chars].
  destruct (rstrip s) as [|c' r]; [|discriminate].
  destruct (is_space c) eqn:Hc; [|discriminate]. intros _. apply IH. reflexivity.
Qed.

Lemma split_ws_rstrip s : split_ws (rstrip s) = split_ws s.
Proof.
  induction s as [|c s IH]; [reflexivity|].
  cbn [rstrip]. destruct (rstrip s) as [|c' r] eqn:Hr.
  - pose proof (rstrip_empty_blank s Hr) as Hb.
    destruct (is_space c) eqn:Hc.
    + cbn [split_ws]. rewrite Hc. symmetry. apply split_ws_blank, Hb.
    + cbn [split_ws]. rewrite Hc. destruct s as [|c2 s]; [reflexivity|].
      pose proof (split_ws_blank _ Hb) as He.
      cbn [blank all_chars] in Hb. apply andb_true_iff in Hb as [Hc2 Hb]. rewrite Hc2.
      rewrite He. reflexivity.
  - destruct s as [|c2 s]; [discriminate|].
    assert (Hhd : c' = c2).
    { cbn [rstrip] in Hr. destruct (rstrip s); [destruct (is_space c2)|]; congruence. }
    subst c'.
    assert (Hstep : forall x,
              split_ws (String c (String c2 x)) =
              if is_space c then split_ws (String c2 x)
              else if is_space c2 then String c EmptyString :: split_ws (String c2 x)
                   else match split_ws (String c2 x) with
                        | w :: ws => String c w :: ws
                        | [] => [String c EmptyString]
                        end) by reflexivity.
    rewrite !Hstep, IH. reflexivity.
Qed.

Lemma split_ws_lstrip s : split_ws (lstrip s) = split_ws s.
Proof.
  induction s as [|c s IH]; [reflexivity|].
  cbn [lstrip]. destruct (is_space c) eqn:Hc; [|reflexivity].
  rewrite IH. cbn [split_ws]. rewrite Hc. reflexivity.
Qed.

Lemma split_ws_strip s : split_ws (strip s) = split_ws s.
Proof. unfold strip. rewrite split_ws_rstrip. apply split_ws_lstrip. Qed.

Lemma parse_status_line pre line last ts tok sp1 w sp2 lead :
  forallb no_newline (pre ++ [line; last]) = true ->
  line = lead +:+ spaced (ts ++ [(tok, sp1); (w, sp2)]) ->
  blank lead = true -> well_spaced (ts ++ [(tok, sp1); (w, sp2)]) = true ->
  parse_status (join_lines (pre ++ [line; last])) = Some tok.
Proof.
  intros Hnl -> Hlead Hws. unfold parse_status.
  rewrite split_on_join_lines; [|destruct pre; discriminate|exact Hnl].
  rewrite index_from_end_2, split_ws_strip, (split_ws_lead _ _ Hlead), (split_ws_spaced _ Hws).
  rewrite map_app. simpl. apply index_from_end_2.
Qed.

Lemma torque_monitor_ends E jobid k : forall w fuel,
  (forall j, (j < k)%nat ->
     exists tok, poll_reply E (procs w + j) jobid = Some tok /\ tok <> "C") ->
  (poll_reply E (procs w + k) jobid = None \/
   poll_reply E (procs w + k) jobid = Some "C") ->
  (k < fuel)%nat ->
  exists w', torque_monitor fuel E jobid w = Some w'
             /\ trace w' = trace w ++ poll_events jobid k
             /\ heap w' = heap w.
Proof.
  induction k as [|k IH]; intros w fuel Hrun Hend Hfuel;
    (destruct fuel as [|fuel]; [lia|]); cbn [torque_monitor];
    unfold check_output, abind, run_process, ret, raise.
  - rewrite Nat.add_0_r in Hend. unfold poll_reply in Hend.
    destruct (status _ =? 0).
    + destruct Hend as [-> | ->]; eexists; (split; [reflexivity|split; reflexivity]).
    + eexists; (split; [reflexivity|split; reflexivity]).
  - destruct (Hrun 0%nat ltac:(lia)) as (tok & Hrep & Hne).
    rewrite Nat.add_0_r in Hrep. unfold poll_reply in Hrep.
    destruct (status _ =? 0); [|discriminate]. rewrite Hrep.
    destruct (String.eqb_spec tok "C") as [|_]; [contradiction|].
    edestruct (IH (fst (sleep 5 {| heap := heap w;
                                   files := effect (proc E (procs w) ("qstat -a " +:+ jobid)) (files w);
                                   procs := S (procs w);
                                   trace := trace w ++ [Exec ("qstat -a " +:+ jobid)] |})) fuel)
      as (w' & Hw' & Htr & Hh).
    + intros j Hj. simpl procs. replace (S (procs w) + j)%nat with (procs w + S j)%nat by lia.
      apply Hrun. lia.
    + simpl procs. replace (S (procs w) + k)%nat with (procs w + S k)%nat by lia. exact Hend.
    + lia.
    + exists w'. split; [exact Hw'|]. split; [|exact Hh].
      rewrite Htr. simpl trace. unfold poll_events. simpl repeat. simpl concat.
      rewrite <- !app_assoc. reflexivity.
Qed.

Lemma check_output_fst E cmd w :
  fst (check_output E cmd w) = fst (run_process E cmd w).
Proof.
  unfold check_output, abind, run_process, ret, raise.
  destruct (status _ =? 0); reflexivity.
Qed.

Lemma check_output_ok E cmd w :
  status (proc E (procs w) cmd) = 0 ->
  check_output E cmd w = (fst (run_process E cmd w), Return (stdout (proc E (procs w) cmd))).
Proof.
  intros H. unfold check_output, abind, run_process, ret, raise. rewrite H. reflexivity.
Qed.

(** C2.  The status is the last token but one of the last line but one of
    the query's output.  While a poll shows a status other than ['C'] the loop
    sleeps 5 and polls again; the first poll that shows ['C'], fails or cannot
    be parsed ends the loop, and the submitter returns the flag 0. *)
Theorem torque_polling :
  (forall pre line last ts tok sp1 w sp2 lead,
     forallb no_newline (pre ++ [line; last]) = true ->
     line = lead +:+ spaced (ts ++ [(tok, sp1); (w, sp2)]) ->
     blank lead = true -> well_spaced (ts ++ [(tok, sp1); (w, sp2)]) = true ->
     parse_status (join_lines (pre ++ [line; last])) = Some tok)
  /\
  (forall fuel E par args w cmd k,
     backend_tag (scheduler par) = "torque" ->
     build_command (mpirun_loc E) par args = Return cmd ->
     status (proc E (procs w) cmd) = 0 ->
     let jobid := strip (stdout (proc E (procs w) cmd)) in
     (forall j, (j < k)%nat ->
        exists tok, poll_reply E (procs w + 2 + j) jobid = Some tok /\ tok <> "C") ->
     (poll_reply E (procs w + 2 + k) jobid = None \/
      poll_reply E (procs w + 2 + k) jobid = Some "C") ->
     (k < fuel)%nat ->
     exists w',
       construct_mpirun_command fuel E par args w = Some (w', Return (0, "torque"))
       /\ trace w' = trace w
                     ++ [Sleep 2; Exec cmd; Sleep 5; Exec ("showstart " +:+ jobid)]
                     ++ poll_events jobid k).
Proof.
  split; [exact parse_status_line|].
  intros fuel E par args w cmd k Htag Hcmd Hst jobid Hrun Hend Hfuel.
  unfold construct_mpirun_command. rewrite Hcmd.
  destruct (scheduler par) eqn:Hs; try discriminate Htag.
  unfold torque_submit. rewrite check_output_ok by exact Hst.
  rewrite check_output_fst. cbn [sleep log run_process fst procs heap files trace].
  fold jobid.
  match goal with |- context [torque_monitor fuel E jobid ?w0] =>
    destruct (torque_monitor_ends E jobid k w0 fuel) as (w' & Hw' & Htr & _) end.
  - intros j Hj. cbn [procs].
    replace (S (S (procs w)) + j)%nat with (procs w + 2 + j)%nat by lia. apply Hrun, Hj.
  - cbn [procs].
    replace (S (S (procs w)) + k)%nat with (procs w + 2 + k)%nat by lia. exact Hend.
  - exact Hfuel.
  - rewrite Hw'. exists w'. split; [reflexivity|]. rewrite Htr.
    cbn [trace]. rewrite <- !app_assoc. reflexivity.
Qed.

End TorqueProofs.

(** ** The command lines *)
Module CommandProofs.
Import PyStr Cmd Merge Dispatch TorqueSpec Examples.

Lemma append_cons (x : ascii) (a b : string) : String x a +:+ b = String x (a +:+ b).
Proof. reflexivity. Qed.

Lemma append_assoc (a b c : string) : (a +:+ b) +:+ c = a +:+ (b +:+ c).
Proof.
  induction a as [|x a IH]; [reflexivity|]. rewrite !append_cons, IH. reflexivity.
Qed.

Lemma append_empty_r (a : string) : a +:+ EmptyString = a.
Proof.
  induction a as [|x a IH]; [reflexivity|]. rewrite append_cons, IH. reflexivity.
Qed.

(** C7, amended.  The Torque line ends with [-M <email>] when the email is
    not empty, then [-m <alerts>] when both the email and the alerts are not
    empty, then [-N <jobname>] always, in that order. *)
Theorem torque_optional_flags (loc : string) (c : common) (memory time nodes : Z)
  (email alerts jobname args : string) :
  build_command loc (torque_par c memory time nodes email alerts jobname) args =
  (_ <- torque_memory memory ;;;
   time_ <- walltime time ;;;
   Return (qsub_line loc c args nodes time_ +:+ email_flag email
           +:+ alert_flag email alerts +:+ jobname_flag jobname)).
Proof.
  unfold build_command, torque_par. cbn [scheduler base].
  destruct (torque_memory memory) as [m|e]; [|reflexivity]. cbn [bind].
  destruct (walltime time) as [t|e]; [|reflexivity]. cbn [bind]. f_equal.
  unfold qsub_line, email_flag, alert_flag, jobname_flag.
  destruct (truthy email); cbn [andb]; [destruct (truthy alerts)|];
    rewrite ?append_assoc, ?append_empty_r; reflexivity.
Qed.

(** C7, as stated, fails: with alert flags but no email there is no [-m],
    and with an empty job name there is still a [-N]. *)
Lemma torque_flags_not_independent :
  exists cmd,
    build_command "/opt/phoebe/backend/mpirun.py"
      (torque_par example_common 0 90 2 EmptyString "abe" EmptyString)
      "compute s a k" = Return cmd
    /\ truthy "abe" = true /\ occurs " -m " cmd = false
    /\ truthy EmptyString = false /\ occurs " -N " cmd = true.
Proof.
  eexists. split; [vm_compute; reflexivity|]. repeat split; vm_compute; reflexivity.
Qed.

(** C6, at the failing input.  With 512 MB and 90 minutes the wall time is
    rendered as 01:30:00, and the memory suffix, although computed, is not in
    the line. *)
Theorem torque_memory_dropped :
  build_command "/opt/phoebe/backend/mpirun.py"
    (torque_par example_common 512 90 2 EmptyString EmptyString "run")
    "compute s a k" = Return torque_example_cmd
  /\ torque_memory 512 = Return ",mppmem=512M"
  /\ occurs "mppmem" torque_example_cmd = false.
Proof. repeat split; vm_compute; reflexivity. Qed.

(** The memory field never reaches the Torque line: a memory that can be
    formatted gives the line of no memory at all. *)
Lemma torque_memory_ignored (loc : string) (c : common) (memory time nodes : Z)
  (email alerts jobname args m : string) :
  torque_memory memory = Return m ->
  build_command loc (torque_par c memory time nodes email alerts jobname) args =
  build_command loc (torque_par c 0 time nodes email alerts jobname) args.
Proof.
  intros H. unfold build_command, torque_par. cbn [scheduler base].
  rewrite H. reflexivity.
Qed.

(** A Slurm configuration with a partition name builds no command line. *)
Lemma slurm_partition_raises (loc : string) (c : common) (memory time : Z)
  (partition args : string) :
  truthy partition = true ->
  build_command loc (slurm_par c memory time partition) args =
  (_ <- slurm_memory memory ;;;
   _ <- slurm_time time ;;;
   Raise (ValueError "Unknown format code 'f' for object of type 'str'")).
Proof.
  intros H. unfold build_command, slurm_par. cbn [scheduler base].
  destruct (slurm_memory memory); [|reflexivity]. cbn [bind].
  destruct (slurm_time time); [|reflexivity]. cbn [bind].
  unfold slurm_partition. rewrite H. reflexivity.
Qed.

(** C5, at the failing input.  Memory and time appear as [--mem] and
    [--time] when they are not zero and an empty partition gives no flag, but
    a partition name makes the construction raise a [ValueError]. *)
Theorem slurm_partition_name_raises :
  build_command "/opt/phoebe/backend/mpirun.py"
    (slurm_par example_common 0 0 "debug") "compute s a k" =
    Raise (ValueError "Unknown format code 'f' for object of type 'str'")
  /\ build_command "/opt/phoebe/backend/mpirun.py"
       (slurm_par example_common 2048 90 EmptyString) "compute s a k" =
     Return ("srun --time=90 --mem=2048  mpirun -np 4   python "
             +:+ "/opt/phoebe/backend/mpirun.py compute s a k")
  /\ build_command "/opt/phoebe/backend/mpirun.py"
       (slurm_par example_common 0 0 EmptyString) "compute s a k" =
     Return ("srun    mpirun -np 4   python "
             +:+ "/opt/phoebe/backend/mpirun.py compute s a k").
Proof. repeat split; vm_compute; reflexivity. Qed.

End CommandProofs.

(** ** The decorated function *)
Module DispatchProofs.
Import PyStr Cmd Merge Dispatch DispatchSpec Examples.

Lemma call_method_return E m l w w' :
  call_method E m l w = (w', Return tt) -> trace w' = trace w ++ [Call m l].
Proof.
  unfold call_method. destruct (heap w !! l) as [b|]; [|discriminate].
  destruct (engine E m b); [|discriminate]. intros [= <-]. reflexivity.
Qed.

Lemma abind_return {A B : Type} (m : act A) (k : A -> act B) w w' b :
  abind m k w = (w', Return b) ->
  exists w1 a, m w = (w1, Return a) /\ k a w1 = (w', Return b).
Proof.
  unfold abind. destruct (m w) as [w1 [a|e]]; [eauto|discriminate].
Qed.

Lemma unlink_if_file_trace name w w' o :
  unlink_if_file name w = (w', o) -> trace w' = trace w /\ o = Return tt.
Proof.
  unfold unlink_if_file. destruct (files w !! name); intros [= <- <-]; split; reflexivity.
Qed.

Lemma cleanup_return a w : exists w', cleanup a w = (w', Return tt) /\ trace w' = trace w.
Proof.
  unfold cleanup, abind.
  destruct (unlink_if_file (sys_file a) w) as [w1 o1] eqn:H1.
  apply unlink_if_file_trace in H1 as [T1 ->].
  destruct (unlink_if_file (args_file a) w1) as [w2 o2] eqn:H2.
  apply unlink_if_file_trace in H2 as [T2 ->].
  destruct (unlink_if_file (kwargs_file a) w2) as [w3 o3] eqn:H3.
  apply unlink_if_file_trace in H3 as [T3 ->].
  exists w3. split; [reflexivity|congruence].
Qed.

Lemma postprocessing_return E system w w' :
  postprocessing E system w = (w', Return tt) ->
  trace w' = trace w ++ postprocessing_calls system.
Proof.
  unfold postprocessing. intros H.
  repeat (apply abind_return in H as (? & [] & ?%call_method_return & H)).
  apply call_method_return in H. unfold postprocessing_calls.
  repeat match goal with Ht : trace _ = _ |- _ => rewrite Ht; clear Ht end.
  rewrite <- !app_assoc. reflexivity.
Qed.

(** C4.  A distributed call with fewer than two processes raises before
    anything happens: the world is left as it was, so no file is created and
    no process started.  The exception is the [ValueError] of the check, or
    that of keyword arguments that make no compute parameter set. *)
Theorem np_below_two_rejected (fuel : nat) (E : environment) (system : loc)
  (args : list pyval) (kwargs : gmap string pyval) (w : world)
  (v : pyval) (par : mpirun_par) :
  kwargs !! "mpi" = Some v -> resolve_mpi E v = Return par -> np (base par) < 2 ->
  exists e,
    do_run fuel E system args kwargs w = Some (w, Raise e)
    /\ (e = ValueError np_message
        \/ resolve_params E (delete "mpi" kwargs) = Raise e).
Proof.
  intros Hv Hpar Hnp. unfold do_run. rewrite Hv. cbn [default from_option id]. cbv zeta.
  assert (Hnone : v <> PyNone) by (intros ->; discriminate Hpar).
  destruct (resolve_params E (delete "mpi" kwargs)) as [params|e] eqn:Hparams.
  - exists (ValueError np_message). split; [|left; reflexivity].
    destruct v; try contradiction; rewrite Hpar;
      (destruct (Z.leb_spec (np (base par)) 1); [reflexivity|lia]).
  - exists e. split; [|right; reflexivity].
    destruct v; try contradiction; reflexivity.
Qed.

(** C9.  Without [mpi] the call returns what the decorated function
    returns.  With it, a call that returns returns [None], after the
    post-processing calls on the caller's system. *)
Theorem return_value_asymmetry (fuel : nat) (E : environment) (system : loc)
  (args : list pyval) (kwargs : gmap string pyval) (w : world) :
  (no_mpi kwargs ->
   forall w1 w2 out,
     mesh E system w = (w1, Return tt) ->
     fctn E system args (delete "mpi" kwargs) w1 = (w2, Return out) ->
     do_run fuel E system args kwargs w = Some (w2, Return out))
  /\
  (~ no_mpi kwargs ->
   forall w' r,
     do_run fuel E system args kwargs w = Some (w', Return r) ->
     r = PyNone
     /\ exists before, trace w' = before ++ postprocessing_calls system).
Proof.
  split.
  - intros Hno w1 w2 out Hmesh Hf. unfold do_run.
    assert (Hd : default PyNone (kwargs !! "mpi") = PyNone).
    { destruct Hno as [-> | ->]; reflexivity. }
    rewrite Hd. unfold abind. rewrite Hmesh. rewrite Hf. reflexivity.
  - intros Hmpi w' r Hrun. unfold do_run in Hrun.
    destruct (default PyNone (kwargs !! "mpi")) as [|b|z|s|par|opts] eqn:Hd.
    { exfalso. apply Hmpi. unfold no_mpi.
      destruct (kwargs !! "mpi") as [v|]; [right|left; reflexivity].
      simpl in Hd. congruence. }
    all: destruct (resolve_params E _); [|discriminate Hrun].
    all: destruct (resolve_mpi E _); [|discriminate Hrun].
    all: destruct (np _ <=? 1); [discriminate Hrun|].
    all: destruct (attempt _ _ _ _ _ _ _) as [[w1 [arts|e]]|]; try discriminate Hrun.
    all: injection Hrun as Hrun.
    all: apply abind_return in Hrun as (w2 & [] & Hc & Hrun).
    all: apply abind_return in Hrun as (w3 & [] & Hp & Hrun).
    all: unfold ret in Hrun; injection Hrun as <- <-.
    all: split; [reflexivity|].
    all: apply postprocessing_return in Hp; eexists; exact Hp.
Qed.


Lemma unlink_if_file_files name w :
  exists w', unlink_if_file name w = (w', Return tt)
             /\ files w' = delete name (files w).
Proof.
  unfold unlink_if_file. destruct (files w !! name) eqn:H.
  - eexists. split; reflexivity.
  - exists w. split; [reflexivity|]. symmetry. apply delete_id. exact H.
Qed.

(** Once the cleanup is reached, none of the three files is left. *)
Lemma cleanup_removes_artifacts (a : artifacts) (w : world) :
  exists w', cleanup a w = (w', Return tt)
             /\ forall name, In name (artifact_names a) -> files w' !! name = None.
Proof.
  unfold cleanup, abind.
  destruct (unlink_if_file_files (sys_file a) w) as (w1 & -> & F1).
  destruct (unlink_if_file_files (args_file a) w1) as (w2 & -> & F2).
  destruct (unlink_if_file_files (kwargs_file a) w2) as (w3 & -> & F3).
  exists w3. split; [reflexivity|]. intros name Hin. rewrite F3, F2, F1.
  destruct (decide (name = kwargs_file a)) as [->|H3]; [apply lookup_delete_eq|].
  rewrite lookup_delete_ne by congruence.
  destruct (decide (name = args_file a)) as [->|H2]; [apply lookup_delete_eq|].
  rewrite lookup_delete_ne by congruence.
  destruct (decide (name = sys_file a)) as [->|H1]; [apply lookup_delete_eq|].
  simpl in Hin. destruct Hin as [?|[?|[?|[]]]]; congruence.
Qed.

(** An attempt that raises ends the call as it stands: nothing runs after
    it. *)
Lemma failed_attempt_ends_run (fuel : nat) (E : environment) (system : loc)
  (args : list pyval) (kwargs : gmap string pyval) (w w1 : world)
  (par : mpirun_par) (params : pyval) (e : exn) :
  kwargs !! "mpi" = Some (PyMpi par) ->
  resolve_params E (delete "mpi" kwargs) = Return params ->
  1 < np (base par) ->
  attempt fuel E system args
    (<["params" := params]> (delete "params" (delete "mpi" kwargs))) par w =
    Some (w1, Raise e) ->
  do_run fuel E system args kwargs w = Some (w1, Raise e).
Proof.
  intros Hmpi Hparams Hnp Hatt. unfold do_run. rewrite Hmpi.
  cbn [default from_option id]. cbv zeta. rewrite Hparams. cbn [resolve_mpi].
  destruct (Z.leb_spec (np (base par)) 1); [lia|]. rewrite Hatt. reflexivity.
Qed.

(** C1, at the failing inputs.  A submission that ends with a non-zero
    status makes the call raise [SystemExit] with the three files still on
    disk, and so does a result file that cannot be unpickled: the three
    [os.unlink] come after the [try], not in a [finally]. *)
Theorem cleanup_skipped_on_failure :
  (exists w',
     do_run 0 (example_env 1 (fun fs => fs)) 0%nat [] example_kwargs example_world =
       Some (w', Raise (SystemExit 1))
     /\ files w' !! "/work/tmp0" = Some (Pickled (PSystem example_body))
     /\ files w' !! "/work/tmp1" = Some (Pickled (PArgs []))
     /\ files w' !! "/work/tmp2" =
        Some (Pickled (PKwargs {[ "params" := PyParams [] ]})))
  /\
  (exists w',
     do_run 0 (example_env 0 (fun fs => <["/work/tmp0" := Garbage]> fs)) 0%nat []
       example_kwargs example_world = Some (w', Raise PickleError)
     /\ files w' !! "/work/tmp0" = Some Garbage
     /\ files w' !! "/work/tmp1" = Some (Pickled (PArgs []))
     /\ files w' !! "/work/tmp2" =
        Some (Pickled (PKwargs {[ "params" := PyParams [] ]}))).
Proof.
  split; eexists; (split; [vm_compute; reflexivity|]);
    repeat split; vm_compute; reflexivity.
Qed.

End DispatchProofs.

(** ** The properties at concrete inputs *)
Module Instances.
Import PyStr Cmd Merge Dispatch MergeSpec TorqueSpec DispatchSpec Examples.
Import MergeProofs TorqueProofs CommandProofs DispatchProofs.

(** C8, as stated, fails: a replica may be the primary itself.  With the
    replicas at 1 and at 0, both of the primary's structure, the merge appends
    the primary's lists, already extended by the first replica, to themselves:
    the lists of two elements end with eight, four times and not three times
    their length. *)
Lemma merge_replica_is_the_primary :
  Forall (fun r => exists br, three_bodies !! r = Some br
                              /\ structurally_identical (syn example_body) (syn br))
    [1%nat; 0%nat]
  /\ exists h',
       merge_synthetic [0%nat; 1%nat; 0%nat] three_bodies = (h', Return 0%nat)
       /\ syn_at h' 0%nat 0%nat =
          Some (light_curve "lc01" [0; 1; 2; 3; 0; 1; 2; 3]
                  [10; 11; 12; 13; 10; 11; 12; 13] 5).
Proof.
  split.
  - repeat constructor; eexists; (split; [reflexivity|]); repeat constructor.
  - eexists. split; vm_compute; reflexivity.
Qed.

(** C8, amended, at a primary and two replicas of its structure: the times
    and the fluxes, which the columns list, are those of the three bodies in
    order, and the errors, which the columns do not list, stay. *)
Lemma merge_identical_replicas_witness :
  exists walk' pps',
    merge_synthetic [0%nat; 1%nat; 2%nat] three_bodies =
      (<[0%nat := {| has_fix_mesh := true; syn := walk' |}]> three_bodies, Return 0%nat)
    /\ length walk' = 1%nat
    /\ walk' !! 0%nat = Some pps'
    /\ get "time" (items pps') = Some (VList (map ANum [0; 1; 2; 3; 4; 5]))
    /\ get "flux" (items pps') = Some (VList (map ANum [10; 11; 12; 13; 14; 15]))
    /\ get "sigma" (items pps') = Some (VList [ANum 5]).
Proof.
  destruct (merge_identical_replicas three_bodies 0%nat example_body [1%nat; 2%nat])
    as (walk' & Hmerge & _ & Hlen & Hfields).
  - reflexivity.
  - repeat constructor.
  - repeat constructor; try discriminate; eexists; (split; [reflexivity|]);
      repeat constructor.
  - destruct (Hfields 0%nat (light_curve "lc01" [0; 1] [10; 11] 5) eq_refl)
      as (pps' & Hat & _ & _ & Hget).
    exists walk', pps'. split; [exact Hmerge|]. split; [exact Hlen|].
    split; [exact Hat|]. split; [|split].
    + exact (proj1 (Hget "time" (VList (map ANum [0; 1])) eq_refl)).
    + exact (proj1 (Hget "flux" (VList (map ANum [10; 11])) eq_refl)).
    + exact (Hget "sigma" (VList [ANum 5]) eq_refl).
Defined.

(** C3, as stated, fails: a replica with another reference and other columns
    is merged, and the primary's lists grow. *)
Lemma merge_rejects_no_mismatch :
  structural_mismatch mismatched_primary mismatched_replica = true
  /\ exists h',
       merge_synthetic [0%nat; 1%nat] mismatched = (h', Return 0%nat)
       /\ syn_at h' 0%nat 0%nat =
          Some {| context := "lcsyn";
                  items := [("ref", VStr "lc01");
                            ("columns", VList [AStr "flux"]);
                            ("flux", VList [ANum 1; ANum 2]);
                            ("time", VList [ANum 0; ANum 9])] |}.
Proof.
  split; [reflexivity|]. eexists. split; [vm_compute; reflexivity|]. vm_compute. reflexivity.
Qed.

(** C3, amended, at the same two bodies. *)
Lemma merge_pairs_by_position_witness :
  exists walk',
    merge_synthetic [0%nat; 1%nat] mismatched =
      (<[0%nat := {| has_fix_mesh := true; syn := walk' |}]> mismatched, Return 0%nat)
    /\ length walk' = 1%nat.
Proof.
  destruct (merge_pairs_by_position mismatched 0%nat 1%nat mismatched_primary
              mismatched_replica) as (walk' & Hmerge & Hlen & _).
  - reflexivity.
  - reflexivity.
  - discriminate.
  - reflexivity.
  - exists walk'. split; [exact Hmerge|exact Hlen].
Defined.

(** C10 at two orbit records. *)
Lemma merge_without_columns_witness :
  exists h' pps',
    merge_synthetic [0%nat; 1%nat] orbits = (h', Return 0%nat)
    /\ syn_at h' 0%nat 0%nat = Some pps'
    /\ get "x" (items pps') = Some (VList [ANum 100; ANum 101; ANum 102]).
Proof.
  destruct (merge_without_columns orbits 0%nat 1%nat
              {| has_fix_mesh := false; syn := [orbit [0] [100]] |}
              {| has_fix_mesh := false; syn := [orbit [1; 2] [101; 102]] |}
              0%nat (orbit [1; 2] [101; 102]) (orbit [0] [100]))
    as (h' & pps' & Hmerge & Hat & Hfields); try reflexivity; try discriminate.
  exists h', pps'. split; [exact Hmerge|]. split; [exact Hat|].
  destruct (Hfields "x" [ANum 101; ANum 102] eq_refl) as (l & Hl & Hx).
  injection Hl as <-. exact Hx.
Defined.

(** C2 at a job seen running once before a status query fails. *)
Lemma torque_polling_witness :
  parse_status qstat_running = Some "R"
  /\ exists w',
       construct_mpirun_command 2 torque_env torque_example "compute s a k"
         example_world = Some (w', Return (0, "torque"))
       /\ trace w' =
          [Sleep 2; Exec torque_example_cmd; Sleep 5; Exec "showstart 4242.master";
           Exec "qstat -a 4242.master"; Sleep 5; Exec "qstat -a 4242.master"].
Proof.
  split.
  - exact (proj1 torque_polling [qstat_header]
             (spaced (qstat_job ++ [("R", " "); ("00:02", EmptyString)]))
             EmptyString qstat_job "R" " " "00:02" EmptyString EmptyString
             eq_refl eq_refl eq_refl eq_refl).
  - destruct (proj2 torque_polling 2%nat torque_env torque_example "compute s a k"
                example_world torque_example_cmd 1%nat)
      as (w' & Hrun & Htrace).
    + reflexivity.
    + vm_compute. reflexivity.
    + reflexivity.
    + intros j Hj. assert (j = 0%nat) as -> by lia.
      exists "R". split; [vm_compute; reflexivity|discriminate].
    + left. vm_compute. reflexivity.
    + lia.
    + exists w'. split; [exact Hrun|]. rewrite Htrace. vm_compute. reflexivity.
Defined.

(** C4 at a parameter set with one process. *)
Lemma np_below_two_rejected_witness :
  exists e,
    do_run 0 (example_env 0 (fun fs => fs)) 0%nat []
      {[ "mpi" := PyMpi single_process ]} example_world =
    Some (example_world, Raise e).
Proof.
  destruct (np_below_two_rejected 0 (example_env 0 (fun fs => fs)) 0%nat []
              {[ "mpi" := PyMpi single_process ]} example_world
              (PyMpi single_process) single_process)
    as (e & Hrun & _).
  - reflexivity.
  - reflexivity.
  - reflexivity.
  - exists e. exact Hrun.
Defined.

(** C9 on both paths. *)
Lemma return_value_asymmetry_witness :
  (exists w', do_run 0 (example_env 0 (fun fs => fs)) 0%nat [] ∅ example_world =
              Some (w', Return (PyInt 7)))
  /\ (exists w', do_run 0 (example_env 0 (fun fs => fs)) 0%nat [] example_kwargs
                   example_world = Some (w', Return PyNone)).
Proof.
  split.
  - eexists.
    eapply (proj1 (return_value_asymmetry 0 (example_env 0 (fun fs => fs)) 0%nat [] ∅
                     example_world)).
    + left. reflexivity.
    + vm_compute. reflexivity.
    + reflexivity.
  - destruct (do_run 0 (example_env 0 (fun fs => fs)) 0%nat [] example_kwargs example_world)
      as [[w' [r|e]]|] eqn:Hrun.
    + exists w'. f_equal. f_equal. f_equal.
      apply (proj2 (return_value_asymmetry 0 (example_env 0 (fun fs => fs)) 0%nat []
                      example_kwargs example_world)) in Hrun as [Hr _]; [exact Hr|].
      intros [H|H]; vm_compute in H; discriminate H.
    + vm_compute in Hrun. discriminate Hrun.
    + vm_compute in Hrun. discriminate Hrun.
Defined.

End Instances.

(** * Further properties *)

(** ** The reference selector *)
Module RefsProofs.
Import PyStr Merge MergeSpec Refs RefsSpec.

Lemma hashable_atom_of v a : hashable v = Return a <-> atom_of v = Some a.
Proof. destruct v; simpl; split; intros H; inversion H; reflexivity. Qed.

Lemma to_set_return l S :
  to_set l = Return S -> S = list_to_set (omap atom_of l) /\ Forall (fun v => is_Some (atom_of v)) l.
Proof.
  revert S. induction l as [|v l IH]; simpl; intros S H.
  - inversion H. split; [reflexivity|constructor].
  - destruct (hashable v) as [a|e] eqn:Hv; [|discriminate]. simpl in H.
    destruct (to_set l) as [S'|e]; [|discriminate]. simpl in H. inversion H; subst S.
    apply hashable_atom_of in Hv. destruct (IH S' eq_refl) as [-> Hall].
    rewrite Hv. simpl. split; [reflexivity|]. constructor; [eauto|exact Hall].
Qed.

Lemma to_set_hashable l :
  Forall (fun v => is_Some (atom_of v)) l ->
  to_set l = Return (list_to_set (omap atom_of l)).
Proof.
  induction 1 as [|v l [a Ha] _ IH]; simpl; [reflexivity|].
  rewrite (proj2 (hashable_atom_of v a) Ha), IH, Ha. reflexivity.
Qed.

Lemma dep_refs_return walk vs :
  dep_refs walk = Return vs ->
  Forall2 (fun ps v => get "ref" (items ps) = Some v) (dep_sets walk) vs.
Proof.
  revert vs. induction walk as [|ps walk IH]; simpl; intros vs H.
  - inversion H. constructor.
  - unfold dep_sets in *. simpl. destruct (ends_with_dep (context ps)); simpl in H.
    + unfold item in H. destruct (get "ref" (items ps)) as [v|] eqn:Hg; [|discriminate].
      simpl in H. destruct (dep_refs walk) as [vs'|]; [|discriminate]. inversion H; subst.
      constructor; [exact Hg|apply IH; reflexivity].
    + apply IH, H.
Qed.

Lemma omap_ref_of deps vs :
  Forall2 (fun ps v => get "ref" (items ps) = Some v) deps vs ->
  omap atom_of vs = omap ref_of deps.
Proof.
  induction 1 as [|ps v deps vs Hg _ IH]; [reflexivity|].
  assert (Hr : ref_of ps = atom_of v) by (unfold ref_of; rewrite Hg; reflexivity).
  simpl. rewrite Hr. destruct (atom_of v); [f_equal|]; exact IH.
Qed.

Lemma refs_hashable_dep_refs walk :
  refs_hashable walk = true ->
  exists vs, dep_refs walk = Return vs
             /\ Forall2 (fun ps v => get "ref" (items ps) = Some v) (dep_sets walk) vs
             /\ Forall (fun v => is_Some (atom_of v)) vs.
Proof.
  unfold refs_hashable, dep_sets. induction walk as [|ps walk IH]; simpl; intros H.
  - exists []. repeat split; constructor.
  - destruct (ends_with_dep (context ps)) eqn:Hd; simpl in *.
    + apply andb_true_iff in H as [Hps H]. destruct (IH H) as (vs & -> & HF & HA).
      unfold ref_of in Hps. unfold item.
      destruct (get "ref" (items ps)) as [v|] eqn:Hg; [|discriminate]. simpl.
      exists (v :: vs). repeat split; constructor; try assumption.
      destruct (atom_of v); [eauto|discriminate].
    + apply IH, H.
Qed.

Lemma available_of_refs walk vs :
  Forall2 (fun ps v => get "ref" (items ps) = Some v) (dep_sets walk) vs ->
  list_to_set (omap atom_of vs) = available walk.
Proof. intros H. unfold available. rewrite (omap_ref_of _ _ H). reflexivity. Qed.

Lemma omap_app_bol vs :
  list_to_set (omap atom_of (vs ++ [VStr "__bol"])) =@{gset atom}
  list_to_set (omap atom_of vs) ∪ {[bol]}.
Proof.
  rewrite omap_app, list_to_set_app_L. simpl. unfold bol. set_solver.
Qed.

(** The list branch. *)
Lemma expand_list walk given :
  refs_hashable walk = true ->
  expand_ref walk (Some (VList given)) =
  Return (list_to_set given ∩ (available walk ∪ {[bol]})).
Proof.
  intros H. destruct (refs_hashable_dep_refs walk H) as (vs & Hvs & HF & HA).
  unfold expand_ref. rewrite Hvs. simpl.
  rewrite to_set_hashable.
  - simpl. rewrite omap_app_bol, (available_of_refs _ _ HF). reflexivity.
  - apply Forall_app. split; [exact HA|]. repeat constructor. simpl. eauto.
Qed.

Lemma select_refs_return r walk vs :
  select_refs r walk = Return vs ->
  exists deps, Forall2 (fun ps v => get "ref" (items ps) = Some v) deps vs
               /\ forall ps, In ps deps -> In ps (dep_sets walk).
Proof.
  revert vs. unfold dep_sets. induction walk as [|ps walk IH]; simpl; intros vs H.
  - inversion H. exists []. split; [constructor|tauto].
  - destruct (ends_with_dep (context ps)); simpl in H.
    + assert (Hkeep : forall vs, (v <- item ps "ref" ;;; vs' <- select_refs r walk ;;; Return (v :: vs')) = Return vs ->
               exists deps, Forall2 (fun ps v => get "ref" (items ps) = Some v) deps vs
                            /\ forall ps', In ps' deps -> In ps' (ps :: List.filter (fun ps => ends_with_dep (context ps)) walk)).
      { intros vs0 H0. unfold item in H0.
        destruct (get "ref" (items ps)) as [v|] eqn:Hg; [|discriminate]. simpl in H0.
        destruct (select_refs r walk) as [vs'|]; [|discriminate]. inversion H0; subst.
        destruct (IH vs' eq_refl) as (deps & HF & Hin).
        exists (ps :: deps). split; [constructor; assumption|].
        intros ps' [->|Hp]; [left; reflexivity|right; apply Hin, Hp]. }
      assert (Hskip : forall vs, select_refs r walk = Return vs ->
               exists deps, Forall2 (fun ps v => get "ref" (items ps) = Some v) deps vs
                            /\ forall ps', In ps' deps -> In ps' (ps :: List.filter (fun ps => ends_with_dep (context ps)) walk)).
      { intros vs0 H0. destruct (IH vs0 H0) as (deps & HF & Hin).
        exists deps. split; [exact HF|]. intros ps' Hp. right. apply Hin, Hp. }
      destruct (matches r ps) as [[|]|]; simpl in H; [apply Hkeep, H| |discriminate].
      destruct (matches_category r ps) as [[|]|]; simpl in H;
        [apply Hkeep, H|apply Hskip, H|discriminate].
    + apply IH, H.
Qed.

Lemma ref_of_available walk ps a :
  In ps (dep_sets walk) -> ref_of ps = Some a -> a ∈ available walk.
Proof.
  intros Hin Ha. unfold available. apply elem_of_list_to_set, list_elem_of_omap.
  exists ps. split; [apply list_elem_of_In, Hin|exact Ha].
Qed.

Lemma expand_ref_subset (walk : list parset) (ref : option value) (refs : gset atom) :
  expand_ref walk ref = Return refs -> refs ⊆ available walk ∪ {[bol]}.
Proof.
  unfold expand_ref. intros H.
  assert (Hbol : forall R, Return ({[AStr "__bol"]} : gset atom) = Return R ->
                           R ⊆ available walk ∪ {[bol]}).
  { intros R HR. inversion HR. unfold bol. set_solver. }
  assert (Hsel : forall r pre,
            (forall v, In v pre -> v = VStr "__bol") ->
            (vs <- select_refs r walk ;;; to_set (pre ++ vs)) = Return refs ->
            refs ⊆ available walk ∪ {[bol]}).
  { intros r pre Hpre H0.
    destruct (select_refs r walk) as [vs|] eqn:Hs; [|discriminate]. simpl in H0.
    apply select_refs_return in Hs as (deps & HF & Hin).
    apply to_set_return in H0 as [-> _].
    intros a Ha. apply elem_of_list_to_set, list_elem_of_omap in Ha as (v & Hv & Hav).
    apply list_elem_of_In, in_app_or in Hv as [Hv|Hv].
    - rewrite (Hpre v Hv) in Hav. inversion Hav. unfold bol. set_solver.
    - apply elem_of_union_l.
      apply list_elem_of_In in Hv. apply list_elem_of_lookup_1 in Hv as [i Hi].
      destruct (Forall2_lookup_r _ _ _ _ _ HF Hi) as (ps & Hps & Hg).
      apply (ref_of_available walk ps).
      + apply Hin. apply list_elem_of_In. apply list_elem_of_lookup. eauto.
      + unfold ref_of. rewrite Hg. exact Hav. }
  destruct ref as [[given|x|s]|].
  - destruct (dep_refs walk) as [vs|] eqn:Hd; [|discriminate]. simpl in H.
    destruct (to_set (vs ++ [VStr "__bol"])) as [avail|] eqn:Ha; [|discriminate].
    simpl in H. inversion H; subst refs.
    apply to_set_return in Ha as [-> _]. apply dep_refs_return in Hd.
    rewrite omap_app_bol, (available_of_refs _ _ Hd). apply intersection_subseteq_r.
  - destruct (bool_decide (VNum x = VStr "__bol")); [apply Hbol, H|].
    apply (Hsel (VNum x) _) in H; [exact H|].
    destruct (bool_decide _); simpl; intros v []; [symmetry; assumption|contradiction].
  - destruct (bool_decide (VStr s = VStr "__bol")); [apply Hbol, H|].
    apply (Hsel (VStr s) _) in H; [exact H|].
    destruct (bool_decide _); simpl; intros v []; [symmetry; assumption|contradiction].
  - apply Hbol, H.
Qed.

Lemma select_refs_hashable s walk :
  refs_hashable walk = true ->
  exists vs,
    select_refs (VStr s) walk = Return vs
    /\ Forall (fun v => is_Some (atom_of v)) vs
    /\ omap atom_of vs =
       omap ref_of
         (List.filter (fun ps => String.eqb s "all" || String.eqb s "alldep" || selected s ps)
            (dep_sets walk)).
Proof.
  set (keep := fun ps => String.eqb s "all" || String.eqb s "alldep" || selected s ps).
  unfold refs_hashable, dep_sets. induction walk as [|ps walk IH]; intros H.
  - exists []. repeat split; constructor.
  - cbn [List.filter forallb select_refs] in *.
    destruct (ends_with_dep (context ps)) eqn:Hd; cbn [negb forallb] in *; [|apply IH, H].
    apply andb_true_iff in H as [Hps H]. destruct (IH H) as (vs & Hvs & HA & HO).
    rewrite Hvs. unfold ref_of in Hps.
    destruct (get "ref" (items ps)) as [v|] eqn:Hg; [|discriminate].
    destruct (atom_of v) as [a|] eqn:Ha; [|discriminate].
    assert (Hr : ref_of ps = Some a) by (unfold ref_of; rewrite Hg; exact Ha).
    assert (Hkeep : keep ps = true ->
              exists vs', Return (v :: vs) = Return vs'
                /\ Forall (fun v => is_Some (atom_of v)) vs'
                /\ omap atom_of vs' =
                   omap ref_of (List.filter keep
                     (ps :: List.filter (fun ps => ends_with_dep (context ps)) walk))).
    { intros Hk. exists (v :: vs). split; [reflexivity|]. split; [constructor; eauto|].
      cbn [List.filter]. rewrite Hk.
      change (omap atom_of (v :: vs)) with
        (match atom_of v with Some y => y :: omap atom_of vs | None => omap atom_of vs end).
      change (omap ref_of (ps :: ?l)) with
        (match ref_of ps with Some y => y :: omap ref_of l | None => omap ref_of l end).
      rewrite Ha, Hr, HO. reflexivity. }
    assert (Hskip : keep ps = false ->
              exists vs', Return vs = Return vs'
                /\ Forall (fun v => is_Some (atom_of v)) vs'
                /\ omap atom_of vs' =
                   omap ref_of (List.filter keep
                     (ps :: List.filter (fun ps => ends_with_dep (context ps)) walk))).
    { intros Hk. exists vs. split; [reflexivity|]. split; [exact HA|].
      cbn [List.filter]. rewrite Hk. exact HO. }
    unfold matches, matches_category, item. rewrite Hg.
    assert (Hall : forall t, bool_decide (VStr s = VStr t) = String.eqb s t).
    { intros t. destruct (String.eqb_spec s t) as [->|Hne].
      - apply bool_decide_eq_true_2. reflexivity.
      - apply bool_decide_eq_false_2. congruence. }
    rewrite !Hall.
    assert (Href : bool_decide (VStr s = v) = bool_decide (Some v = Some (VStr s))).
    { apply bool_decide_ext. split; congruence. }
    unfold keep, selected in Hkeep, Hskip. rewrite Hg in Hkeep, Hskip.
    destruct (String.eqb s "all" || String.eqb s "alldep"); cbn [bind orb] in *;
      [apply Hkeep; reflexivity|].
    rewrite Href. destruct (bool_decide (Some v = Some (VStr s))); cbn [bind orb] in *;
      [apply Hkeep; reflexivity|].
    destruct (_ && _); cbn [bind] in *; [apply Hkeep; reflexivity|apply Hskip; reflexivity].
Qed.

Lemma filter_all {A : Type} (l : list A) : List.filter (fun _ => true) l = l.
Proof. induction l as [|x l IH]; simpl; [reflexivity|]. rewrite IH. reflexivity. Qed.

(** X1.  When every [dep] parameter set of the walk has a reference that a set
    can hold, [ref='all'] expands to the bolometric reference together with
    the references of all [dep] parameter sets, and [ref='alldep'] to those
    references without the bolometric one. *)
Theorem expand_ref_all (walk : list parset) :
  refs_hashable walk = true ->
  expand_ref walk (Some (VStr "all")) = Return ({[bol]} ∪ available walk)
  /\ expand_ref walk (Some (VStr "alldep")) = Return (available walk).
Proof.
  intros H. split.
  - destruct (select_refs_hashable "all" walk H) as (vs & Hvs & HA & HO).
    unfold expand_ref. simpl bool_decide. cbv iota. rewrite Hvs. simpl.
    rewrite to_set_hashable by exact HA. simpl. rewrite HO.
    simpl. rewrite filter_all. reflexivity.
  - destruct (select_refs_hashable "alldep" walk H) as (vs & Hvs & HA & HO).
    unfold expand_ref. simpl bool_decide. cbv iota. rewrite Hvs. simpl.
    rewrite to_set_hashable by exact HA. rewrite HO.
    simpl. rewrite filter_all. reflexivity.
Qed.

(** X2.  Any other string selects the [dep] parameter sets it names: those
    whose reference it is and, when it starts with ['all'], those whose
    context starts with the two letters that follow.  A string that does not
    start with ['all'] gives itself when it is the reference of a [dep]
    parameter set and nothing otherwise. *)
Theorem expand_ref_selection (walk : list parset) (s : string) :
  refs_hashable walk = true ->
  s <> "__bol" -> s <> "all" -> s <> "alldep" ->
  expand_ref walk (Some (VStr s)) = Return (selection s walk)
  /\ (substring 0 3 s <> "all" ->
      selection s walk = if bool_decide (AStr s ∈ available walk) then {[AStr s]} else ∅).
Proof.
  intros H Hbol Hall Hdep. split.
  - destruct (select_refs_hashable s walk H) as (vs & Hvs & HA & HO).
    unfold expand_ref.
    rewrite (bool_decide_eq_false_2 (VStr s = VStr "__bol")) by congruence.
    rewrite (bool_decide_eq_false_2 (VStr s = VStr "all")) by congruence.
    rewrite Hvs. simpl. rewrite to_set_hashable by exact HA. rewrite HO.
    apply String.eqb_neq in Hall, Hdep. rewrite Hall, Hdep. reflexivity.
  - intros Hpre. apply String.eqb_neq in Hpre.
    unfold selection, available. apply set_eq. intros a.
    rewrite elem_of_list_to_set, list_elem_of_omap.
    split.
    + intros (ps & Hin & Ha). apply list_elem_of_In, filter_In in Hin as [Hin Hsel].
      unfold selected in Hsel. rewrite Hpre in Hsel. simpl in Hsel.
      rewrite orb_false_r in Hsel. apply bool_decide_eq_true in Hsel.
      unfold ref_of in Ha. rewrite Hsel in Ha. simpl in Ha. inversion Ha; subst a.
      rewrite bool_decide_eq_true_2; [set_solver|].
      apply elem_of_list_to_set, list_elem_of_omap. exists ps.
      split; [apply list_elem_of_In, Hin|]. unfold ref_of. rewrite Hsel. reflexivity.
    + destruct (bool_decide (AStr s ∈ _)) eqn:Hd; [|set_solver].
      intros Ha. apply elem_of_singleton in Ha. subst a.
      apply bool_decide_eq_true in Hd.
      apply elem_of_list_to_set, list_elem_of_omap in Hd as (ps & Hin & Ha).
      exists ps. split; [|exact Ha].
      apply list_elem_of_In, filter_In. split; [apply list_elem_of_In, Hin|].
      unfold selected. apply orb_true_iff. left. apply bool_decide_eq_true.
      unfold ref_of in Ha. destruct (get "ref" (items ps)) as [[l|x|t]|]; simpl in Ha;
        inversion Ha; reflexivity.
Qed.

(** X3.  A list of references is cut down to those that are available, the
    references of the [dep] parameter sets and the bolometric one: references
    the body does not have are dropped without an error, and a list of
    available references is passed on as the set of its elements. *)
Theorem expand_ref_list (walk : list parset) (given : list atom) :
  refs_hashable walk = true ->
  expand_ref walk (Some (VList given)) =
    Return (list_to_set given ∩ (available walk ∪ {[bol]}))
  /\ (list_to_set given ⊆ available walk ∪ {[bol]} ->
      expand_ref walk (Some (VList given)) = Return (list_to_set given)).
Proof.
  intros H. rewrite (expand_list walk given H). split; [reflexivity|].
  intros Hsub. f_equal. apply subseteq_intersection_1_L, Hsub.
Qed.

(** X4.  Expanding is idempotent: the references an expansion gave, handed
    back as a list, expand to themselves. *)
Theorem expand_ref_idempotent (walk : list parset) (ref : option value) (refs : gset atom) :
  refs_hashable walk = true ->
  expand_ref walk ref = Return refs ->
  expand_ref walk (Some (VList (elements refs))) = Return refs.
Proof.
  intros H Hex. rewrite (expand_list walk _ H). f_equal.
  pose proof (expand_ref_subset walk ref refs Hex) as Hsub.
  rewrite list_to_set_elements_L. apply subseteq_intersection_1_L, Hsub.
Qed.

(** X5.  Whenever the decorated call returns, the decorated function was
    called, and the references it was handed are references of [dep]
    parameter sets of the walk or the bolometric one. *)
Theorem parse_ref_only_available {R : Type} (sig : argspec)
  (fctn : gset atom -> outcome R) (walk : list parset)
  (given : option (option value)) (r : R) :
  parse_ref sig fctn walk given = Return r ->
  exists refs, fctn refs = Return r /\ refs ⊆ available walk ∪ {[bol]}.
Proof.
  unfold parse_ref. intros H.
  destruct (ref_default sig) as [d|]; [|discriminate]. cbn [bind] in H.
  destruct (expand_ref walk _) as [refs|] eqn:Hex; [|discriminate]. cbn [bind] in H.
  exists refs. split; [exact H|]. eapply expand_ref_subset, Hex.
Qed.

Lemma index_of_app pre post :
  ~ In "ref" pre -> index_of "ref" (pre ++ "ref" :: post) = Some (length pre).
Proof.
  induction pre as [|x pre IH]; simpl; intros Hn; [reflexivity|].
  destruct (String.eqb_spec x "ref") as [->|_]; [exfalso; apply Hn; left; reflexivity|].
  rewrite IH by tauto. reflexivity.
Qed.

(** X6.  The default of [ref] is read from the end of the signature's
    defaults: it is found whenever every argument after [ref] has a default,
    whatever comes before; with no more defaults than arguments after [ref]
    the call raises an [IndexError], and with no defaults at all a
    [TypeError]. *)
Theorem ref_default_aligned (pre post : list string) :
  ~ In "ref" pre ->
  (forall dpre d dpost,
     length dpost = length post ->
     ref_default {| spec_args := pre ++ "ref" :: post;
                    spec_defaults := Some (dpre ++ d :: dpost) |} = Return d)
  /\ (forall ds,
        (length ds <= length post)%nat ->
        ref_default {| spec_args := pre ++ "ref" :: post;
                       spec_defaults := Some ds |} = Raise IndexError)
  /\ ref_default {| spec_args := pre ++ "ref" :: post; spec_defaults := None |}
     = Raise TypeError.
Proof.
  intros Hn. unfold ref_default. cbn [spec_args spec_defaults].
  rewrite (index_of_app pre post Hn), length_app. cbn [length].
  replace (length pre + S (length post) - length pre)%nat with (S (length post)) by lia.
  repeat split.
  - intros dpre d dpost Hlen. unfold index_from_end.
    rewrite length_app. cbn [length].
    destruct (Nat.ltb_spec (length dpre + S (length dpost)) (S (length post))); [lia|].
    rewrite lookup_app_r by lia.
    replace (length dpre + S (length dpost) - S (length post) - length dpre)%nat with O by lia.
    reflexivity.
  - intros ds Hlen. unfold index_from_end.
    destruct (Nat.ltb_spec (length ds) (S (length post))); [reflexivity|lia].
Qed.

End RefsProofs.

(** ** Default units *)
Module UnitsProofs.
Import PyStr Cmd Dispatch Units UnitsSpec.

Lemma x_default_frame category userc useru phased kwargs k' key :
  x_default category userc useru phased kwargs = Return k' ->
  key <> "x_unit" -> k' !! key = kwargs !! key.
Proof.
  unfold x_default, unit_of. intros H Hk.
  repeat match type of H with
         | (if ?c then _ else _) = _ => destruct c
         | bind (match ?o with _ => _ end) _ = _ => destruct o
         end; cbn [bind] in H; try discriminate; inversion H; subst;
    try reflexivity; apply lookup_insert_ne; congruence.
Qed.

Lemma y_default_frame category userc useru kwargs k' key :
  y_default category userc useru kwargs = Return k' ->
  key <> "y_unit" -> k' !! key = kwargs !! key.
Proof.
  unfold y_default, unit_of. intros H Hk.
  repeat match type of H with
         | (if ?c then _ else _) = _ => destruct c
         | bind (match ?o with _ => _ end) _ = _ => destruct o
         end; cbn [bind] in H; try discriminate; inversion H; subst;
    try reflexivity; apply lookup_insert_ne; congruence.
Qed.

Lemma default_units_cases E kwargs :
  default_units E kwargs = Return kwargs
  \/ (exists e, default_units E kwargs = Raise e
                /\ (category_of (plot_name E) = Raise e
                    \/ (exists c, category_of (plot_name E) = Return c /\
                          (get_obs E c (default (PyInt 0) (kwargs !! "ref")) = Raise e
                           \/ get_parset E c (default (PyInt 0) (kwargs !! "ref")) = Raise e))))
  \/ (exists c userc useru,
        category_of (plot_name E) = Return c
        /\ get_obs E c (default (PyInt 0) (kwargs !! "ref")) =
           Return (Some {| user_columns := Some (Some userc);
                           user_units := Some (Some useru) |})
        /\ ~ (is_Some (kwargs !! "x_unit") /\ is_Some (kwargs !! "y_unit"))
        /\ default_units E kwargs = with_user_units c userc useru kwargs).
Proof.
  unfold default_units.
  destruct (bool_decide (is_Some (kwargs !! "x_unit")) &&
            bool_decide (is_Some (kwargs !! "y_unit"))) eqn:Hboth; [left; reflexivity|].
  assert (Hnot : ~ (is_Some (kwargs !! "x_unit") /\ is_Some (kwargs !! "y_unit"))).
  { intros [Hx Hy]. rewrite !bool_decide_eq_true_2 in Hboth by assumption. discriminate. }
  destruct (category_of (plot_name E)) as [c|e] eqn:Hc; cbn [bind];
    [|right; left; exists e; split; [reflexivity|left; reflexivity]].
  destruct (get_obs E c _) as [obs|e] eqn:Ho; cbn [bind];
    [|right; left; exists e; split; [reflexivity|right; exists c; split; [reflexivity|left; exact Ho]]].
  destruct (get_parset E c _) as [[]|e] eqn:Hp; cbn [bind];
    [|right; left; exists e; split; [reflexivity|right; exists c; split; [reflexivity|right; exact Hp]]].
  destruct obs as [[[[userc|]|] [[useru|]|]]|]; try (left; reflexivity).
  right; right. exists c, userc, useru. repeat split; try assumption; tauto.
Qed.

(** X7.  A given [x_unit] that is not [None] switches both defaults off: the
    [y_unit] is read under the key ['x_unit'] too, so the keyword arguments
    reach the decorated function as they came, without a [y_unit] from the
    observations. *)
Theorem x_unit_given_switches_off (E : plot_env) (kwargs k' : gmap string pyval) (v : pyval) :
  kwargs !! "x_unit" = Some v -> v <> PyNone ->
  default_units E kwargs = Return k' -> k' = kwargs.
Proof.
  intros Hx Hv H.
  destruct (default_units_cases E kwargs) as [Hc|[(e & Hc & _)|(c & userc & useru & _ & _ & _ & Hc)]];
    rewrite Hc in H; [congruence|discriminate|].
  unfold with_user_units, get_or_none in H. rewrite Hx in H. cbn [default from_option id] in H.
  destruct v; try contradiction; cbn [is_none bind] in H; congruence.
Qed.

(** X8.  The decorator writes to no keyword but [x_unit] and [y_unit]: every
    other keyword argument reaches the decorated function as it was given. *)
Theorem default_units_frame (E : plot_env) (kwargs k' : gmap string pyval) :
  default_units E kwargs = Return k' ->
  forall key, key <> "x_unit" -> key <> "y_unit" -> k' !! key = kwargs !! key.
Proof.
  intros H key Hkx Hky.
  destruct (default_units_cases E kwargs) as [Hc|[(e & Hc & _)|(c & userc & useru & _ & _ & _ & Hc)]];
    rewrite Hc in H; [congruence|discriminate|].
  unfold with_user_units in H.
  destruct (is_none (get_or_none kwargs "x_unit")); cbn [bind] in H; [|congruence].
  destruct (x_default c userc useru _ kwargs) as [k1|] eqn:Hx1; [|discriminate].
  cbn [bind] in H.
  rewrite (y_default_frame _ _ _ _ _ key H Hky).
  exact (x_default_frame _ _ _ _ _ _ key Hx1 Hkx).
Qed.

Lemma default_units_observed E kwargs c userc useru :
  kwargs !! "x_unit" = None ->
  category_of (plot_name E) = Return c ->
  get_obs E c (default (PyInt 0) (kwargs !! "ref")) = Return (Some (observed userc useru)) ->
  default_units E kwargs =
  (_ <- get_parset E c (default (PyInt 0) (kwargs !! "ref")) ;;;
   k1 <- x_default c userc useru (get_or_none kwargs "phased") kwargs ;;;
   y_default c userc useru k1).
Proof.
  intros Hx Hc Ho. unfold default_units. rewrite Hx.
  rewrite (bool_decide_eq_false_2 (is_Some None)) by (intros [? ?]; discriminate).
  cbn [andb]. rewrite Hc. cbn [bind]. rewrite Ho. cbn [bind].
  destruct (get_parset E c _) as [[]|]; [|reflexivity]. cbn [bind observed].
  assert (Hn : get_or_none kwargs "x_unit" = PyNone) by (unfold get_or_none; rewrite Hx; reflexivity).
  rewrite Hn. reflexivity.
Qed.

(** X9.  Without an [x_unit], a light curve observed in flux or magnitude
    whose units name the flux gets that unit as [y_unit], over a [y_unit]
    the caller gave. *)
Theorem y_unit_overridden (E : plot_env) (kwargs k' : gmap string pyval)
  (userc : list string) (useru : gmap string string) (u : string) :
  kwargs !! "x_unit" = None ->
  category_of (plot_name E) = Return "lc" ->
  get_obs E "lc" (default (PyInt 0) (kwargs !! "ref")) = Return (Some (observed userc useru)) ->
  mem "flux" userc || mem "mag" userc = true ->
  useru !! "flux" = Some u ->
  default_units E kwargs = Return k' ->
  k' !! "y_unit" = Some (PyStr u).
Proof.
  intros Hx Hcat Hobs Hcol Hu H.
  rewrite (default_units_observed E kwargs "lc" userc useru Hx Hcat Hobs) in H.
  destruct (get_parset E "lc" _) as [[]|]; [|discriminate]. cbn [bind] in H.
  destruct (x_default _ _ _ _ kwargs) as [k1|]; [|discriminate]. cbn [bind] in H.
  unfold y_default, unit_of in H. rewrite Hcol, Hu in H.
  rewrite (bool_decide_eq_false_2 (useru = ∅)) in H
    by (intros ->; rewrite lookup_empty in Hu; discriminate).
  cbn in H. inversion H. apply lookup_insert_eq.
Qed.

(** X10.  Without an [x_unit], a light or radial velocity curve whose
    observations have columns but neither a time nor a phase column makes the
    call raise a [ValueError]. *)
Theorem neither_time_nor_phase (E : plot_env) (kwargs : gmap string pyval)
  (c : string) (userc : list string) (useru : gmap string string) :
  kwargs !! "x_unit" = None ->
  category_of (plot_name E) = Return c ->
  mem c ["lc"; "rv"] = true ->
  get_obs E c (default (PyInt 0) (kwargs !! "ref")) = Return (Some (observed userc useru)) ->
  get_parset E c (default (PyInt 0) (kwargs !! "ref")) = Return tt ->
  mem "time" userc = false -> mem "phase" userc = false ->
  default_units E kwargs = Raise (ValueError "'phase' is not in list").
Proof.
  intros Hx Hcat Hc Hobs Hp Ht Hph.
  rewrite (default_units_observed E kwargs c userc useru Hx Hcat Hobs), Hp. cbn [bind].
  unfold x_default. rewrite Hc, Ht, Hph. reflexivity.
Qed.

(** X11.  A light curve observed in phase and magnitude whose units name the
    magnitude but no flux makes the call raise a [KeyError] for ['flux']. *)
Theorem magnitudes_need_flux_unit (E : plot_env) (kwargs : gmap string pyval)
  (userc : list string) (useru : gmap string string) (u : string) :
  kwargs !! "x_unit" = None ->
  category_of (plot_name E) = Return "lc" ->
  get_obs E "lc" (default (PyInt 0) (kwargs !! "ref")) = Return (Some (observed userc useru)) ->
  get_parset E "lc" (default (PyInt 0) (kwargs !! "ref")) = Return tt ->
  mem "time" userc = false -> mem "phase" userc = true ->
  mem "mag" userc = true ->
  useru !! "mag" = Some u -> useru !! "flux" = None ->
  default_units E kwargs = Raise (KeyError "flux").
Proof.
  intros Hx Hcat Hobs Hp Ht Hph Hm Hu Hf.
  rewrite (default_units_observed E kwargs "lc" userc useru Hx Hcat Hobs), Hp. cbn [bind].
  unfold x_default. rewrite Ht, Hph. cbn. 
  unfold y_default, unit_of. rewrite Hm, Hf, orb_true_r.
  rewrite (bool_decide_eq_false_2 (useru = ∅))
    by (intros ->; rewrite lookup_empty in Hu; discriminate).
  reflexivity.
Qed.

End UnitsProofs.

(** ** The placeholder for light-travel-time results *)
Module LttProofs.
Import PyStr Merge MergeSpec Refs Ltt LttSpec MergeProofs.

Lemma prepare_body_ok orbsyn ref key b :
  get "ref" (items orbsyn) = Some ref -> hashable ref = Return key ->
  has_syn b = true ->
  prepare_body orbsyn b = (with_placeholder key orbsyn b, Return tt).
Proof.
  intros Hg Hk Hs. unfold prepare_body, with_placeholder, item.
  apply bool_decide_eq_true in Hs as [syn Hs]. rewrite Hs, Hg, Hk. reflexivity.
Qed.

Lemma prepare_body_no_syn orbsyn b :
  has_syn b = false -> prepare_body orbsyn b = (b, Raise (KeyError "syn")).
Proof.
  intros Hs. unfold prepare_body. apply bool_decide_eq_false in Hs.
  destruct (params b !! "syn") eqn:H; [exfalso; apply Hs; eauto|reflexivity].
Qed.

Lemma with_placeholder_idem key orbsyn b :
  with_placeholder key orbsyn (with_placeholder key orbsyn b) = with_placeholder key orbsyn b.
Proof.
  unfold with_placeholder. destruct (params b !! "syn") as [syn|] eqn:Hs; [|rewrite Hs; reflexivity].
  cbn [params]. rewrite lookup_insert_eq. rewrite !insert_insert_eq. reflexivity.
Qed.

Lemma has_syn_with_placeholder key orbsyn b :
  has_syn (with_placeholder key orbsyn b) = has_syn b.
Proof.
  unfold has_syn, with_placeholder. destruct (params b !! "syn") as [syn|] eqn:Hs;
    [|rewrite Hs; reflexivity].
  cbn [params]. rewrite lookup_insert_eq.
  rewrite !bool_decide_eq_true_2 by eauto. reflexivity.
Qed.

(** The loop over the first [n] bodies, all of which have ['syn']. *)
Lemma prepare_loop orbsyn ref key bodies n :
  get "ref" (items orbsyn) = Some ref -> hashable ref = Return key ->
  (n <= length bodies)%nat ->
  forallb has_syn (take n bodies) = true ->
  for_each (seq 0 n) (prepare_at orbsyn) bodies =
  (map (with_placeholder key orbsyn) (take n bodies) ++ drop n bodies, Return tt).
Proof.
  intros Hg Hk. induction n as [|n IH]; intros Hn Hall.
  - simpl. rewrite drop_0. reflexivity.
  - destruct (lookup_lt_is_Some_2 bodies n ltac:(lia)) as [b Hb].
    rewrite (take_S_r _ _ _ Hb) in Hall |- *.
    rewrite forallb_app in Hall. apply andb_true_iff in Hall as [Hall Hb'].
    simpl in Hb'. rewrite andb_true_r in Hb'.
    rewrite seq_S, for_each_app, IH by (assumption || lia). simpl for_each.
    unfold prepare_at.
    assert (Hlen : length (map (with_placeholder key orbsyn) (take n bodies)) = n).
    { rewrite length_map, length_take. lia. }
    rewrite lookup_app_r by lia. rewrite Hlen, Nat.sub_diag, lookup_drop, Nat.add_0_r, Hb.
    rewrite (prepare_body_ok orbsyn ref key b Hg Hk Hb').
    f_equal. rewrite map_app. simpl. rewrite <- app_assoc. simpl.
    replace n with (length (map (with_placeholder key orbsyn) (take n bodies)) + 0)%nat at 1 by lia.
    rewrite insert_app_r. f_equal.
    rewrite (drop_S _ _ _ Hb). reflexivity.
Qed.

(** X12.  When every body has synthetic results, [prepare_ltt] gives each of
    them the one placeholder dataset as its only [orbsyn] result, under the
    dataset's reference, and raises nothing; preparing a prepared system
    again changes nothing. *)
Theorem prepare_ltt_placeholder (orbsyn : parset) (ref : value) (key : atom) (s : system) :
  get "ref" (items orbsyn) = Some ref -> hashable ref = Return key ->
  forallb has_syn (get_bodies s) = true ->
  prepare_ltt orbsyn s = (map_bodies (with_placeholder key orbsyn) s, Return tt)
  /\ prepare_ltt orbsyn (fst (prepare_ltt orbsyn s)) = prepare_ltt orbsyn s.
Proof.
  intros Hg Hk Hall.
  assert (Hrun : forall s', forallb has_syn (get_bodies s') = true ->
            prepare_ltt orbsyn s' = (map_bodies (with_placeholder key orbsyn) s', Return tt)).
  { intros s' Hall'. unfold prepare_ltt.
    rewrite (prepare_loop orbsyn ref key (get_bodies s') _ Hg Hk (le_n _)).
    - rewrite firstn_all, drop_all, app_nil_r. destruct s'; reflexivity.
    - rewrite firstn_all. exact Hall'. }
  rewrite (Hrun s Hall). split; [reflexivity|]. cbn [fst].
  rewrite Hrun.
  - f_equal. destruct s as [b|bodies]; cbn [map_bodies].
    + rewrite with_placeholder_idem. reflexivity.
    + rewrite map_map. f_equal. apply map_ext. intros b. apply with_placeholder_idem.
  - destruct s as [b|bodies]; cbn [map_bodies get_bodies forallb] in *.
    + rewrite has_syn_with_placeholder. exact Hall.
    + rewrite forallb_forall in *. intros b Hin. apply in_map_iff in Hin as (b0 & <- & Hin).
      rewrite has_syn_with_placeholder. apply Hall, Hin.
Qed.

(** X13.  On a body, [prepare_ltt] replaces the [orbsyn] results, whatever
    they were, by the placeholder alone, and leaves the synthetic results of
    every other category and the parameter sets of every other type as they
    were. *)
Theorem prepare_ltt_keeps_the_rest (orbsyn : parset) (ref : value) (key : atom)
  (b : ltt_body) (syn : gmap string (list (atom * parset))) :
  get "ref" (items orbsyn) = Some ref -> hashable ref = Return key ->
  params b !! "syn" = Some syn ->
  exists b' syn',
    prepare_ltt orbsyn (Single b) = (Single b', Return tt)
    /\ params b' !! "syn" = Some syn'
    /\ syn' !! "orbsyn" = Some [(key, orbsyn)]
    /\ (forall category, category <> "orbsyn" -> syn' !! category = syn !! category)
    /\ (forall type, type <> "syn" -> params b' !! type = params b !! type).
Proof.
  intros Hg Hk Hs. unfold prepare_ltt. cbn [get_bodies length seq for_each].
  unfold prepare_at. cbn [lookup list_lookup].
  unfold prepare_body, item. rewrite Hs, Hg, Hk.
  cbn [insert list_insert set_bodies List.hd].
  eexists _, _. split; [reflexivity|]. cbn [params].
  split; [apply lookup_insert_eq|].
  split; [apply lookup_insert_eq|].
  split.
  - intros c Hc. apply lookup_insert_ne. congruence.
  - intros t Ht. apply lookup_insert_ne. congruence.
Qed.

(** X14.  The first body without synthetic results makes [prepare_ltt] raise
    a [KeyError] for ['syn']: the bodies before it have been prepared, that
    body and those after it are as they were. *)
Theorem prepare_ltt_missing_syn (orbsyn : parset) (ref : value) (key : atom)
  (before : list ltt_body) (b : ltt_body) (after : list ltt_body) :
  get "ref" (items orbsyn) = Some ref -> hashable ref = Return key ->
  forallb has_syn before = true -> has_syn b = false ->
  prepare_ltt orbsyn (Bag (before ++ b :: after)) =
  (Bag (map (with_placeholder key orbsyn) before ++ b :: after), Raise (KeyError "syn")).
Proof.
  intros Hg Hk Hall Hb. unfold prepare_ltt. cbn [get_bodies set_bodies].
  rewrite length_app. cbn [length].
  replace (length before + S (length after))%nat with (length before + (1 + length after))%nat by lia.
  rewrite seq_app, for_each_app.
  rewrite (prepare_loop orbsyn ref key _ (length before) Hg Hk).
  - rewrite take_app_length, drop_app_length. cbn [seq for_each Nat.add].
    unfold prepare_at at 1.
    rewrite lookup_app_r by (rewrite length_map; lia).
    rewrite length_map, Nat.sub_diag. cbn [lookup list_lookup].
    rewrite (prepare_body_no_syn orbsyn b Hb).
    f_equal. f_equal.
    replace (length before) with (length (map (with_placeholder key orbsyn) before) + 0)%nat
      by (rewrite length_map; lia).
    rewrite insert_app_r. reflexivity.
  - rewrite length_app. lia.
  - rewrite take_app_length. exact Hall.
Qed.

End LttProofs.

(** ** The merge only appends *)
Module GrowProofs.
Import PyStr Merge MergeSpec GrowSpec.

Lemma field_grows_refl kv : field_grows kv kv.
Proof.
  split; [reflexivity|]. destruct (snd kv) as [l|x|s]; try reflexivity.
  exists []. rewrite app_nil_r. reflexivity.
Qed.

Lemma field_grows_trans a b c : field_grows a b -> field_grows b c -> field_grows a c.
Proof.
  intros [Hk1 H1] [Hk2 H2]. split; [congruence|].
  destruct (snd a) as [l|x|s].
  - destruct H1 as [m1 H1]. rewrite H1 in H2. destruct H2 as [m2 H2].
    exists (m1 ++ m2). rewrite H2, app_assoc. reflexivity.
  - rewrite H1 in H2. exact H2.
  - rewrite H1 in H2. exact H2.
Qed.

Lemma Forall2_refl_of {A : Type} (R : A -> A -> Prop) (l : list A) :
  (forall x, R x x) -> Forall2 R l l.
Proof. intros H. induction l; constructor; auto. Qed.

Lemma Forall2_trans_of {A : Type} (R : A -> A -> Prop) :
  (forall x y z, R x y -> R y z -> R x z) ->
  forall l1 l2 l3, Forall2 R l1 l2 -> Forall2 R l2 l3 -> Forall2 R l1 l3.
Proof.
  intros HR l1 l2 l3 H12. revert l3. induction H12; intros l3 H23; inversion H23; subst;
    constructor; eauto.
Qed.

Lemma record_grows_refl ps : record_grows ps ps.
Proof. split; [reflexivity|]. apply Forall2_refl_of, field_grows_refl. Qed.

Lemma record_grows_trans a b c : record_grows a b -> record_grows b c -> record_grows a c.
Proof.
  intros [Hc1 H1] [Hc2 H2]. split; [congruence|].
  eapply Forall2_trans_of; [apply field_grows_trans| |]; eassumption.
Qed.

Lemma body_grows_refl b : body_grows b b.
Proof. split; [reflexivity|]. apply Forall2_refl_of, record_grows_refl. Qed.

Lemma body_grows_trans a b c : body_grows a b -> body_grows b c -> body_grows a c.
Proof.
  intros [Hc1 H1] [Hc2 H2]. split; [congruence|].
  eapply Forall2_trans_of; [apply record_grows_trans| |]; eassumption.
Qed.

Lemma only_appends_refl p h : only_appends p h h.
Proof.
  split; [reflexivity|]. destruct (h !! p) as [b|] eqn:H; [|reflexivity].
  exists b. split; [reflexivity|apply body_grows_refl].
Qed.

Lemma only_appends_trans p h1 h2 h3 :
  only_appends p h1 h2 -> only_appends p h2 h3 -> only_appends p h1 h3.
Proof.
  intros [F1 G1] [F2 G2]. split.
  - intros l Hl. rewrite F2, F1 by exact Hl. reflexivity.
  - destruct (h1 !! p) as [b1|].
    + destruct G1 as (b2 & H2 & G1). rewrite H2 in G2. destruct G2 as (b3 & H3 & G2).
      exists b3. split; [exact H3|]. eapply body_grows_trans; eassumption.
    + rewrite G1 in G2. exact G2.
Qed.

Lemma set_grows key l more its :
  get key its = Some (VList l) ->
  Forall2 field_grows its (set key (VList (l ++ more)) its).
Proof.
  induction its as [|[k w] its IH]; simpl; [discriminate|].
  destruct (String.eqb_spec k key) as [->|Hne].
  - intros [= ->]. constructor; [|apply Forall2_refl_of, field_grows_refl].
    split; [reflexivity|]. simpl. eauto.
  - intros H. constructor; [apply field_grows_refl|apply IH, H].
Qed.

Lemma iadd_only_appends p i key v h :
  only_appends p h (fst (iadd p i key v h)).
Proof.
  unfold iadd. destruct (h !! p) as [b|] eqn:Hp; [|apply only_appends_refl].
  destruct (syn b !! i) as [ps|] eqn:Hi; [|apply only_appends_refl].
  destruct (get key (items ps)) as [[l|x|s]|] eqn:Hg; try apply only_appends_refl.
  cbn [fst]. split.
  - intros l' Hl. apply lookup_insert_ne. congruence.
  - rewrite Hp. eexists. split; [apply lookup_insert_eq|].
    split; [reflexivity|]. cbn [syn set_syn].
    rewrite <- (list_insert_id (syn b) i ps Hi) at 1.
    apply Forall2_insert; [apply Forall2_refl_of, record_grows_refl|].
    split; [reflexivity|]. cbn [items set_items]. apply set_grows, Hg.
Qed.

Lemma for_each_preorder {S A : Type} (R : S -> S -> Prop) (f : A -> S -> S * outcome unit) :
  (forall s, R s s) -> (forall a b c, R a b -> R b c -> R a c) ->
  (forall x s, R s (fst (f x s))) ->
  forall xs s, R s (fst (for_each xs f s)).
Proof.
  intros Hrefl Htrans Hstep xs. induction xs as [|x xs IH]; intros s; simpl; [apply Hrefl|].
  pose proof (Hstep x s) as H1. destruct (f x s) as [s1 [[]|e]]; simpl in *; [|exact H1].
  eapply Htrans; [exact H1|apply IH].
Qed.

Lemma merge_key_only_appends p r i key h :
  only_appends p h (fst (merge_key p r i key h)).
Proof.
  unfold merge_key. destruct (syn_at h r i) as [ps|]; [|apply only_appends_refl].
  destruct (excluded ps key) as [[|]|]; try apply only_appends_refl.
  destruct (get key (items ps)) as [[v|x|s]|]; try apply only_appends_refl.
  apply iadd_only_appends.
Qed.

Lemma merge_parset_only_appends p i r h :
  only_appends p h (fst (merge_parset p i r h)).
Proof.
  unfold merge_parset. destruct (syn_at h r i) as [ps|]; [|apply only_appends_refl].
  destruct (ends_with_syn (context ps)); [|apply only_appends_refl].
  apply for_each_preorder;
    [apply only_appends_refl|apply only_appends_trans|intros; apply merge_key_only_appends].
Qed.

(** X15.  Whatever the list of bodies and whether the merge returns or raises,
    it changes no body but the first of the list, and that one only by
    appending to its list fields: no record and no field is added, removed,
    renamed or reordered, no context changes, and every field that is not a
    list keeps its value. *)
Theorem merge_only_appends (list_of_bodies : list loc) (h : gmap loc body) :
  only_appends (hd O list_of_bodies) h (fst (merge_synthetic list_of_bodies h)).
Proof.
  unfold merge_synthetic.
  destruct (walk_lengths h list_of_bodies) as [ns|]; [|apply only_appends_refl].
  match goal with |- context [for_each ?xs ?f h] =>
    pose proof (for_each_preorder (only_appends (hd O list_of_bodies)) f
                  (only_appends_refl _) (only_appends_trans _)) as Hloop;
    specialize (Hloop (fun i s => for_each_preorder (only_appends (hd O list_of_bodies)) _
                                     (only_appends_refl _) (only_appends_trans _)
                                     (fun r s' => merge_parset_only_appends _ i r s') _ s) xs h);
    destruct (for_each xs f h) as [h' [[]|e]]
  end; cbn [fst] in *.
  - destruct list_of_bodies; exact Hloop.
  - exact Hloop.
Qed.

End GrowProofs.

(** ** A merge that fails half-way *)
Module PartialProofs.
Import PyStr Merge MergeSpec PartialSpec MergeProofs.

Lemma get_map_not_list (g : string * value -> string * value) k its :
  (forall kv, fst (g kv) = fst kv) ->
  (forall kv, is_list (Some (snd kv)) = false -> g kv = kv) ->
  is_list (get k its) = false ->
  get k (map g its) = get k its.
Proof.
  intros Hfst Hsame. induction its as [|[k' w] its IH]; simpl; [reflexivity|].
  intros H. destruct (g (k', w)) as [k'' w'] eqn:Hg.
  assert (Hk : k'' = k') by (specialize (Hfst (k', w)); rewrite Hg in Hfst; exact Hfst).
  subst k''. destruct (String.eqb k' k).
  - rewrite Hsame in Hg by exact H. congruence.
  - apply IH, H.
Qed.


(** X16.  The merge is not atomic.  When the first records of a primary and
    a replica are paired and a list field of the replica that takes part is
    missing from the primary's record, or is no list there, the merge raises
    a [KeyError] for that field, or a [TypeError], and the primary keeps the
    fields that were appended before it. *)
Theorem merge_stops_at_first_bad_field (h : gmap loc body) (p r : loc) (bp br : body)
  (pps rps : parset) (prest rrest : list parset)
  (before after : list (string * value)) (k : string) (v : list atom) :
  h !! p = Some bp -> h !! r = Some br -> p <> r ->
  syn bp = pps :: prest -> syn br = rps :: rrest ->
  well_formed rps = true -> NoDup (keys pps) ->
  items rps = before ++ (k, VList v) :: after ->
  eligible rps k = true ->
  is_list (get k (items pps)) = false ->
  (forall k' v', In k' (map fst before) ->
                 get k' (items rps) = Some (VList v') ->
                 eligible rps k' = true -> is_list (get k' (items pps)) = true) ->
  merge_synthetic [p; r] h =
  (<[p := {| has_fix_mesh := has_fix_mesh bp;
             syn := merged_until (map fst before) rps pps :: prest |}]> h,
   Raise (append_error k (get k (items pps)))).
Proof.
  intros Hp Hr Hne Hsp Hsr Hwf Hndp Hits Hel Hbad Hbefore.
  unfold well_formed in Hwf. apply andb_prop in Hwf as [Hndr Hcols].
  apply bool_decide_eq_true in Hndr.
  assert (Hsyn : ends_with_syn (context rps) = true).
  { unfold eligible in Hel. apply andb_prop in Hel as [H _]. exact H. }
  rewrite (merge_synthetic_pure h p bp [r] [syn br] Hp).
  2:{ constructor; [|constructor]. split; [exact Hne|]. eauto. }
  unfold pure_merge. rewrite Hsp, Hsr. cbn [length map zip_length fold_left].
  destruct (Nat.min (S (length prest)) (S (length rrest))) as [|n] eqn:Hn; [lia|].
  cbn [seq for_each]. unfold pure_parset at 1. cbn [lookup list_lookup].
  rewrite Hsyn. unfold keys at 1. rewrite Hits, map_app. cbn [map fst].
  rewrite for_each_app.
  assert (Hkeys : keys rps = map fst before ++ k :: map fst after).
  { unfold keys. rewrite Hits, map_app. reflexivity. }
  rewrite Hkeys in Hndr. apply NoDup_app in Hndr as (Hndb & Hdisj & Hnda).
  rewrite (keys_loop rps pps 0 (map fst before) Hsyn Hcols Hndb) with (its := items pps).
  - cbn [for_each]. unfold pure_key at 1.
    assert (Hex : excluded rps k = Return false).
    { unfold eligible in Hel. rewrite Hsyn in Hel. simpl in Hel.
      destruct (excluded rps k) as [[]|]; try discriminate. reflexivity. }
    rewrite Hex.
    assert (Hget : get k (items rps) = Some (VList v)).
    { apply get_In.
      - fold (keys rps). rewrite Hkeys. apply NoDup_app. auto.
      - rewrite Hits. apply in_or_app. right. left. reflexivity. }
    rewrite Hget. cbn [insert list_insert lookup list_lookup].
    unfold append_field. cbn [items set_items].
    rewrite (get_map_not_list _ k (items pps)).
    + unfold put, merged_until, append_error.
      destruct (get k (items pps)) as [[l|x|s]|]; try discriminate; reflexivity.
    + intros kv. destruct (bool_decide _); [apply append_from_fst|reflexivity].
    + intros [k0 w] Hw. destruct (bool_decide _); [|reflexivity].
      unfold append_from. simpl in *. destruct w; try discriminate; reflexivity.
    + exact Hbad.
  - intros k0 Hk0. rewrite Hkeys. apply in_or_app. left. apply list_elem_of_In. exact Hk0.
  - exact Hndp.
  - intros k0 v0 Hk0. apply Hbefore. apply list_elem_of_In. exact Hk0.
  - destruct pps; reflexivity.
Qed.

End PartialProofs.

(** ** The Torque branch when things go wrong *)
Module TorqueMore.
Import PyStr Cmd Merge Dispatch TorqueSpec TorqueProofs.

(** X17.  A job whose every status query succeeds and shows another status
    than ['C'] keeps the polling loop going: no number of rounds ends it. *)
Theorem torque_monitor_never_ends (E : environment) (jobid : string) (w : world) :
  (forall j, exists tok, poll_reply E (procs w + j) jobid = Some tok /\ tok <> "C") ->
  forall fuel, torque_monitor fuel E jobid w = None.
Proof.
  intros Hrun fuel. revert w Hrun. induction fuel as [|fuel IH]; intros w Hrun; [reflexivity|].
  cbn [torque_monitor]. unfold check_output, abind, run_process, ret, raise.
  destruct (Hrun 0%nat) as (tok & Hrep & Hne).
  rewrite Nat.add_0_r in Hrep. unfold poll_reply in Hrep.
  destruct (status _ =? 0); [|discriminate]. rewrite Hrep.
  destruct (String.eqb_spec tok "C") as [|_]; [contradiction|].
  apply IH. intros j. cbn [sleep log fst procs].
  replace (S (procs w) + j)%nat with (procs w + S j)%nat by lia. apply Hrun.
Qed.

(** X18.  When the submission itself fails, the Torque branch catches the
    exception and returns the flag 1 with the backend's name; it has slept 2
    seconds and run the one command, and asks neither for the start nor for
    the status of a job. *)
Theorem torque_submission_failure (fuel : nat) (E : environment) (par : mpirun_par)
  (args : string) (w : world) (cmd : string) :
  backend_tag (scheduler par) = "torque" ->
  build_command (mpirun_loc E) par args = Return cmd ->
  status (proc E (procs w) cmd) <> 0 ->
  construct_mpirun_command fuel E par args w =
  Some ({| heap := heap w;
           files := effect (proc E (procs w) cmd) (files w);
           procs := S (procs w);
           trace := trace w ++ [Sleep 2; Exec cmd] |},
        Return (1, "torque")).
Proof.
  intros Htag Hcmd Hst. unfold construct_mpirun_command. rewrite Hcmd.
  destruct (scheduler par) eqn:Hs; try discriminate Htag.
  unfold torque_submit, check_output, abind, run_process, ret, raise, sleep, log.
  cbn [fst procs heap files trace].
  destruct (Z.eqb_spec (status (proc E (procs w) cmd)) 0) as [|_]; [contradiction|].
  rewrite <- app_assoc. reflexivity.
Qed.

Lemma index_from_end_short {A : Type} (l : list A) k :
  (length l < k)%nat -> index_from_end l k = None.
Proof.
  intros H. unfold index_from_end. destruct (Nat.ltb_spec (length l) k); [reflexivity|lia].
Qed.

(** X19.  No status is read from an output of one line, nor from an output
    whose last line but one holds a single word: the index the code takes is
    out of range there. *)
Theorem parse_status_nothing :
  (forall out, no_newline out = true -> parse_status out = None)
  /\ (forall pre lead token sp last,
        forallb no_newline (pre ++ [lead +:+ token +:+ sp; last]) = true ->
        blank lead = true -> word token = true -> blank sp = true ->
        parse_status (join_lines (pre ++ [lead +:+ token +:+ sp; last])) = None).
Proof.
  split.
  - intros out H. unfold parse_status. rewrite (split_on_no_sep out H). reflexivity.
  - intros pre lead token sp last Hnl Hlead Hw Hsp. unfold parse_status.
    rewrite split_on_join_lines; [|destruct pre; discriminate|exact Hnl].
    rewrite index_from_end_2, split_ws_strip, (split_ws_lead _ _ Hlead).
    rewrite split_ws_word; [|exact Hw|].
    + rewrite (split_ws_blank _ Hsp). reflexivity.
    + destruct sp as [|c sp]; [reflexivity|]. simpl in Hsp.
      apply andb_true_iff in Hsp as [Hc _]. exact Hc.
Qed.

End TorqueMore.

(** ** Wall time and numerals *)
Module CommandMore.
Import PyStr Cmd Merge Dispatch TorqueSpec.

(** X20.  For a time that is a whole number [m] of minutes, an integer as
    [walltime] takes it, the wall time is the truncated quotient of [m] by 60
    and the remainder of the floored division, each on two digits at least,
    and ['00'] for the seconds, a whole minute leaving none; it is an
    [OverflowError] when [m] is beyond what a [timedelta] holds.  A time with
    a fraction of a minute, which the code renders as seconds, is not an
    input of [walltime]. *)
Theorem walltime_hours_minutes (minutes : Z) :
  walltime minutes =
  if Z.abs (minutes / 1440) <=? 999999999
  then Return (pad2 (Z.quot minutes 60) +:+ ":" +:+ pad2 (minutes mod 60) +:+ ":00")
  else Raise OverflowError.
Proof.
  unfold walltime, total_seconds.
  destruct (Z.abs (minutes / 1440) <=? 999999999); [|reflexivity]. cbn [bind].
  replace 3600 with (60 * 60) by reflexivity.
  rewrite Z.quot_mul_cancel_l by lia.
  rewrite Zmult_mod_distr_l.
  replace (60 * (minutes mod 60)) with ((minutes mod 60) * 60) by lia.
  rewrite Z.quot_mul by lia.
  replace (60 * minutes) with (minutes * 60) by lia.
  rewrite Z_mod_mult. reflexivity.
Qed.

Lemma float_of_int_exact (n : Z) :
  Z.abs n < 2 ^ 53 -> float_of_int n = Some n.
Proof.
  intros H. unfold float_of_int.
  assert (Hk : Z.log2 (Z.abs n) + 1 - 53 <= 0).
  { destruct (Z.eq_dec (Z.abs n) 0) as [->|Hz]; [simpl; lia|].
    assert (Z.log2 (Z.abs n) < 53); [|lia].
    apply Z.log2_lt_pow2; lia. }
  destruct (Z.leb_spec (Z.log2 (Z.abs n) + 1 - 53) 0); [|lia].
  destruct (Z.leb_spec (2 ^ 1024) (Z.abs n)).
  - exfalso. assert (2 ^ 53 < 2 ^ 1024) by (apply Z.pow_lt_mono_r; lia). lia.
  - f_equal. destruct n; reflexivity.
Qed.

(** X21.  For a memory and a time below 2^53 the number in [--mem=], [--time=]
    and [,mppmem=...M] is the decimal numeral of the integer, and a zero
    gives no flag. *)
Theorem slurm_flags_exact (memory time : Z) :
  0 <= memory < 2 ^ 53 -> 0 <= time < 2 ^ 53 ->
  slurm_memory memory =
    Return (if memory =? 0 then EmptyString else "--mem=" +:+ str_of_int memory)
  /\ slurm_time time =
     Return (if time =? 0 then EmptyString else "--time=" +:+ str_of_int time)
  /\ torque_memory memory =
     Return (if memory =? 0 then EmptyString
             else ",mppmem=" +:+ str_of_int memory +:+ "M").
Proof.
  intros Hm Ht. unfold slurm_memory, slurm_time, torque_memory, format_0f.
  rewrite !float_of_int_exact by (rewrite Z.abs_eq; lia).
  destruct (memory =? 0), (time =? 0); repeat split; reflexivity.
Qed.

End CommandMore.

(** ** The temporary files of a run *)
Module DispatchMore.
Import PyStr Cmd Merge Dispatch MergeSpec DispatchSpec MergeProofs DispatchProofs.

Lemma call_method_files E m l w : files (fst (call_method E m l w)) = files w.
Proof.
  unfold call_method. destruct (heap w !! l) as [b|]; [|reflexivity].
  destruct (engine E m b); reflexivity.
Qed.

Lemma abind_files {A B : Type} (m : act A) (k : A -> act B) :
  (forall w, files (fst (m w)) = files w) ->
  (forall a w, files (fst (k a w)) = files w) ->
  forall w, files (fst (abind m k w)) = files w.
Proof.
  intros Hm Hk w. unfold abind. specialize (Hm w).
  destruct (m w) as [w1 [a|e]]; cbn [fst] in *; [rewrite Hk; exact Hm|exact Hm].
Qed.

Lemma postprocessing_files E system w :
  files (fst (postprocessing E system w)) = files w.
Proof.
  revert w. unfold postprocessing.
  repeat (apply abind_files; [intros w; apply call_method_files|intros _]).
  intros w; apply call_method_files.
Qed.

(** X22.  When the body of the [try] returns, the parallel run ends, and
    none of the three temporary files is left, whatever the post-processing
    does. *)
Theorem artifacts_removed_on_return (fuel : nat) (E : environment) (system : loc)
  (args : list pyval) (kwargs : gmap string pyval) (w w1 : world)
  (par : mpirun_par) (params : pyval) (a : artifacts) :
  kwargs !! "mpi" = Some (PyMpi par) ->
  resolve_params E (delete "mpi" kwargs) = Return params ->
  1 < np (base par) ->
  attempt fuel E system args
    (<["params" := params]> (delete "params" (delete "mpi" kwargs))) par w =
    Some (w1, Return a) ->
  exists w' o,
    do_run fuel E system args kwargs w = Some (w', o)
    /\ forall name, In name (artifact_names a) -> files w' !! name = None.
Proof.
  intros Hmpi Hparams Hnp Hatt. unfold do_run. rewrite Hmpi.
  cbn [default from_option id]. cbv zeta. rewrite Hparams. cbn [resolve_mpi].
  destruct (Z.leb_spec (np (base par)) 1); [lia|]. rewrite Hatt.
  destruct (cleanup_removes_artifacts a w1) as (w2 & Hc & Hgone).
  unfold abind at 1. rewrite Hc.
  pose proof (postprocessing_files E system w2) as Hf.
  unfold abind. destruct (postprocessing E system w2) as [w3 [[]|e]]; cbn [fst] in Hf;
    eexists; eexists; (split; [reflexivity|]); intros name Hin; cbn [ret files];
    rewrite ?Hf; apply Hgone, Hin.
Qed.

(** X24.  The results are loaded into a new object, never the system itself,
    and when their walk can be merged into the system's, the system's list
    fields are extended by those of the results. *)
Theorem collect_merges_a_new_object (system : loc) (a : artifacts) (w : world)
  (bp br : body) :
  heap w !! system = Some bp ->
  files w !! sys_file a = Some (Pickled (PSystem br)) ->
  mergeable [syn br] (syn bp) = true ->
  fresh (dom (heap w)) <> system
  /\ collect system a w =
     (set_heap
        (<[system := {| has_fix_mesh := has_fix_mesh bp;
                        syn := merged_walk [syn br] (syn bp) |}]>
           (<[fresh (dom (heap w)) := br]> (heap w))) w,
      Return tt).
Proof.
  intros Hp Hf Hm.
  assert (Hne : fresh (dom (heap w)) <> system).
  { intros Heq. apply (is_fresh (dom (heap w))). rewrite Heq.
    apply elem_of_dom. eauto. }
  split; [exact Hne|].
  unfold collect, abind, pickle_load. rewrite Hf.
  rewrite (merge_synthetic_mergeable _ system bp [fresh (dom (heap w))] [syn br]).
  - reflexivity.
  - rewrite lookup_insert_ne by exact Hne. exact Hp.
  - constructor; [|constructor]. split; [congruence|].
    exists br. split; [apply lookup_insert_eq|reflexivity].
  - apply mergeable_sound, Hm.
Qed.

End DispatchMore.

(** ** The further properties at concrete inputs *)
Module MoreInstances.
Import PyStr Cmd Merge Dispatch MergeSpec TorqueSpec DispatchSpec Examples.
Import Refs RefsSpec Units UnitsSpec LttSpec PartialSpec MoreExamples.
Import RefsProofs UnitsProofs LttProofs PartialProofs TorqueMore CommandMore DispatchMore.

(** X1 on a body with a light curve and a radial velocity curve. *)
Lemma expand_ref_all_witness :
  expand_ref passbands (Some (VStr "all")) = Return ({[bol]} ∪ available passbands)
  /\ expand_ref passbands (Some (VStr "alldep")) = Return (available passbands).
Proof. exact (expand_ref_all passbands eq_refl). Defined.

(** X2 at [alllcdep] and at a reference of the body. *)
Lemma expand_ref_selection_witness :
  expand_ref passbands (Some (VStr "alllcdep")) = Return (selection "alllcdep" passbands)
  /\ expand_ref passbands (Some (VStr "rv01")) = Return {[AStr "rv01"]}.
Proof.
  split.
  - apply (expand_ref_selection passbands "alllcdep"); [reflexivity|discriminate..].
  - destruct (expand_ref_selection passbands "rv01") as [Hsel Hone];
      [reflexivity|discriminate..|].
    rewrite Hsel, Hone by discriminate. reflexivity.
Defined.

(** X3 at a list with a reference the body does not have. *)
Lemma expand_ref_list_witness :
  expand_ref passbands (Some (VList [AStr "lc01"; AStr "nope"])) =
  Return (list_to_set [AStr "lc01"; AStr "nope"] ∩ (available passbands ∪ {[bol]})).
Proof. exact (proj1 (expand_ref_list passbands [AStr "lc01"; AStr "nope"] eq_refl)). Defined.

(** X4 at the expansion of [alldep]. *)
Lemma expand_ref_idempotent_witness :
  expand_ref passbands (Some (VList (elements (available passbands)))) =
  Return (available passbands).
Proof.
  apply (expand_ref_idempotent passbands (Some (VStr "alldep"))); [reflexivity|].
  vm_compute. reflexivity.
Defined.

(** X5 at a function that counts the references it is handed. *)
Lemma parse_ref_only_available_witness :
  exists refs,
    Return (size refs) = Return 3%nat :> outcome nat
    /\ refs ⊆ available passbands ∪ {[bol]}.
Proof.
  apply (parse_ref_only_available example_signature (fun refs => Return (size refs))
           passbands None 3%nat).
  vm_compute. reflexivity.
Defined.

(** X6 at a signature with an argument after [ref]. *)
Lemma ref_default_aligned_witness :
  ref_default example_signature = Return (Some (VStr "all")).
Proof.
  assert (H : ~ In "ref" ["self"]) by (intros [H|[]]; discriminate H).
  exact (proj1 (ref_default_aligned ["self"] ["beaming"] H) [] (Some (VStr "all")) [None]
           eq_refl).
Defined.

(** X7 at a call with an [x_unit] only. *)
Lemma x_unit_given_switches_off_witness :
  exists k',
    default_units (plot_lc ["time"; "flux"] days_and_flux) {[ "x_unit" := PyStr "s" ]}
      = Return k'
    /\ k' = {[ "x_unit" := PyStr "s" ]}.
Proof.
  eexists. split; [vm_compute; reflexivity|].
  apply (x_unit_given_switches_off (plot_lc ["time"; "flux"] days_and_flux)
           {[ "x_unit" := PyStr "s" ]} _ (PyStr "s"));
    [vm_compute; reflexivity|discriminate|vm_compute; reflexivity].
Defined.

(** X8 at a call with a reference only. *)
Lemma default_units_frame_witness :
  exists k',
    default_units (plot_lc ["time"; "flux"] days_and_flux) {[ "ref" := PyStr "lc01" ]}
      = Return k'
    /\ k' !! "x_unit" = Some (PyStr "d")
    /\ k' !! "ref" = Some (PyStr "lc01").
Proof.
  assert (Hrun : default_units (plot_lc ["time"; "flux"] days_and_flux)
                   {[ "ref" := PyStr "lc01" ]} =
                 Return {[ "ref" := PyStr "lc01"; "x_unit" := PyStr "d";
                           "y_unit" := PyStr "W/m3" ]})
    by (vm_compute; reflexivity).
  eexists. split; [exact Hrun|]. split; [vm_compute; reflexivity|].
  rewrite (default_units_frame _ _ _ Hrun "ref") by discriminate.
  vm_compute. reflexivity.
Defined.

(** X9 at a call that asks for magnitudes. *)
Lemma y_unit_overridden_witness :
  exists k',
    default_units (plot_lc ["time"; "flux"] days_and_flux) {[ "y_unit" := PyStr "mag" ]}
      = Return k'
    /\ k' !! "y_unit" = Some (PyStr "W/m3").
Proof.
  eexists. split; [vm_compute; reflexivity|].
  apply (y_unit_overridden (plot_lc ["time"; "flux"] days_and_flux)
           {[ "y_unit" := PyStr "mag" ]} _ ["time"; "flux"] days_and_flux "W/m3");
    vm_compute; reflexivity.
Defined.

(** X10 at observations with a flux column only. *)
Lemma neither_time_nor_phase_witness :
  default_units (plot_lc ["flux"] days_and_flux) ∅ =
  Raise (ValueError "'phase' is not in list").
Proof.
  apply (neither_time_nor_phase (plot_lc ["flux"] days_and_flux) ∅ "lc" ["flux"]
           days_and_flux); vm_compute; reflexivity.
Defined.

(** X11 at observations in phase and magnitude. *)
Lemma magnitudes_need_flux_unit_witness :
  default_units (plot_lc ["phase"; "mag"] {[ "mag" := "mag" ]}) ∅ = Raise (KeyError "flux").
Proof.
  apply (magnitudes_need_flux_unit (plot_lc ["phase"; "mag"] {[ "mag" := "mag" ]}) ∅
           ["phase"; "mag"] {[ "mag" := "mag" ]} "mag"); vm_compute; reflexivity.
Defined.

(** X12 at a system of two bodies. *)
Lemma prepare_ltt_placeholder_witness :
  Ltt.prepare_ltt (orbit [] []) (Ltt.Bag [star; star]) =
  (map_bodies (with_placeholder (AStr "ltt") (orbit [] [])) (Ltt.Bag [star; star]),
   Return tt).
Proof.
  exact (proj1 (prepare_ltt_placeholder (orbit [] []) (VStr "ltt") (AStr "ltt")
                  (Ltt.Bag [star; star]) eq_refl eq_refl eq_refl)).
Defined.

(** X13 at a body with a light curve and an old orbit. *)
Lemma prepare_ltt_keeps_the_rest_witness :
  exists b' syn',
    Ltt.prepare_ltt (orbit [] []) (Ltt.Single star) = (Ltt.Single b', Return tt)
    /\ Ltt.params b' !! "syn" = Some syn'
    /\ syn' !! "orbsyn" = Some [(AStr "ltt", orbit [] [])]
    /\ syn' !! "lcsyn" = Some [(AStr "lc01", light_curve "lc01" [0] [10] 5)].
Proof.
  assert (Hstar : Ltt.params star !! "syn" = Some star_syn) by (vm_compute; reflexivity).
  destruct (prepare_ltt_keeps_the_rest (orbit [] []) (VStr "ltt") (AStr "ltt") star
              star_syn eq_refl eq_refl Hstar)
    as (b' & syn' & Hrun & Hsyn & Horb & Hcat & _).
  exists b', syn'. repeat split; try assumption.
  rewrite Hcat by discriminate. vm_compute. reflexivity.
Defined.

(** X14 at a system whose second body has no synthetic results. *)
Lemma prepare_ltt_missing_syn_witness :
  Ltt.prepare_ltt (orbit [] []) (Ltt.Bag [star; bare; star]) =
  (Ltt.Bag [with_placeholder (AStr "ltt") (orbit [] []) star; bare; star],
   Raise (KeyError "syn")).
Proof.
  exact (prepare_ltt_missing_syn (orbit [] []) (VStr "ltt") (AStr "ltt") [star] bare [star]
           eq_refl eq_refl eq_refl eq_refl).
Defined.

(** X16 at a primary without fluxes: the times were appended. *)
Lemma merge_stops_at_first_bad_field_witness :
  exists h',
    merge_synthetic [0%nat; 1%nat] half_mergeable = (h', Raise (KeyError "flux"))
    /\ syn_at h' 0%nat 0%nat =
       Some {| context := "lcsyn";
               items := [("ref", VStr "lc01");
                         ("time", VList [ANum 0; ANum 2; ANum 3])] |}.
Proof.
  assert (Hnd : NoDup (keys no_flux)) by (apply (bool_decide_unpack _); vm_compute; exact I).
  assert (Hbefore : forall k' v',
            In k' (map fst [("ref", VStr "lc01");
                            ("columns", VList [AStr "time"; AStr "flux"]);
                            ("time", VList [ANum 2; ANum 3])]) ->
            get k' (items (light_curve "lc01" [2; 3] [12; 13] 6)) = Some (VList v') ->
            eligible (light_curve "lc01" [2; 3] [12; 13] 6) k' = true ->
            is_list (get k' (items no_flux)) = true).
  { intros k' v' Hin Hg He.
    destruct Hin as [<-|[<-|[<-|[]]]]; vm_compute in Hg, He |- *;
      first [reflexivity | discriminate Hg | discriminate He]. }
  pose proof (merge_stops_at_first_bad_field half_mergeable 0%nat 1%nat
               {| has_fix_mesh := true; syn := [no_flux] |}
               {| has_fix_mesh := true; syn := [light_curve "lc01" [2; 3] [12; 13] 6] |}
               no_flux (light_curve "lc01" [2; 3] [12; 13] 6) [] []
               [("ref", VStr "lc01"); ("columns", VList [AStr "time"; AStr "flux"]);
                ("time", VList [ANum 2; ANum 3])]
               [("sigma", VList [ANum 6]); ("oversampling", VNum 1)]
               "flux" [ANum 12; ANum 13]
               eq_refl eq_refl ltac:(discriminate) eq_refl eq_refl eq_refl Hnd
               eq_refl eq_refl eq_refl Hbefore) as Hrun.
  eexists. split; [exact Hrun|]. vm_compute. reflexivity.
Defined.

(** X17 at a job that is always running. *)
Lemma torque_monitor_never_ends_witness :
  torque_monitor 1000 stuck_env "4242.master" example_world = None.
Proof.
  apply torque_monitor_never_ends. intros j. exists "R".
  split; [vm_compute; reflexivity|discriminate].
Defined.

(** X18 at a scheduler whose commands all fail. *)
Lemma torque_submission_failure_witness :
  exists w',
    construct_mpirun_command 0 (example_env 1 (fun fs => fs)) torque_example
      "compute s a k" example_world = Some (w', Return (1, "torque"))
    /\ trace w' = [Sleep 2; Exec torque_example_cmd].
Proof.
  eexists. split.
  - apply (torque_submission_failure 0 (example_env 1 (fun fs => fs)) torque_example
             "compute s a k" example_world torque_example_cmd);
      [reflexivity|vm_compute; reflexivity|discriminate].
  - reflexivity.
Defined.

(** X21 at 2048 MB and no time limit. *)
Lemma slurm_flags_exact_witness :
  slurm_memory 2048 = Return "--mem=2048"
  /\ slurm_time 0 = Return EmptyString
  /\ torque_memory 2048 = Return ",mppmem=2048M".
Proof.
  destruct (slurm_flags_exact 2048 0) as (Hm & Ht & Hq); [lia|lia|].
  rewrite Hm, Ht, Hq. repeat split; vm_compute; reflexivity.
Defined.

(** X22 at a run on four processes. *)
Lemma artifacts_removed_on_return_witness :
  exists w' o,
    do_run 0 (example_env 0 (fun fs => fs)) 0%nat [] parallel_kwargs example_world
      = Some (w', o)
    /\ files w' !! "/work/tmp0" = None.
Proof.
  assert (Hmpi : parallel_kwargs !! "mpi" = Some (PyMpi four_processes))
    by (vm_compute; reflexivity).
  assert (Hparams : resolve_params (example_env 0 (fun fs => fs))
                      (delete "mpi" parallel_kwargs) = Return (PyParams []))
    by (vm_compute; reflexivity).
  eassert (Hatt : attempt 0 (example_env 0 (fun fs => fs)) 0%nat []
                    (<["params" := PyParams []]>
                       (delete "params" (delete "mpi" parallel_kwargs)))
                    four_processes example_world = Some (_, Return _))
    by (vm_compute; reflexivity).
  destruct (artifacts_removed_on_return 0 (example_env 0 (fun fs => fs)) 0%nat []
              parallel_kwargs example_world _ four_processes
              (PyParams []) _ Hmpi Hparams eq_refl Hatt) as (w' & o & Hrun & Hgone).
  exists w', o. split; [exact Hrun|]. apply Hgone. left. reflexivity.
Defined.

(** X24 at results with two more points. *)
Lemma collect_merges_a_new_object_witness :
  exists h',
    collect 0%nat results_file world_with_results =
      (set_heap h' world_with_results, Return tt)
    /\ h' !! 1%nat = Some computed_body
    /\ syn_at h' 0%nat 0%nat = Some (light_curve "lc01" [0; 1; 2; 3] [10; 11; 12; 13] 5).
Proof.
  eexists. split.
  - apply (proj2 (collect_merges_a_new_object 0%nat results_file world_with_results
                    example_body computed_body eq_refl eq_refl eq_refl)).
  - split; vm_compute; reflexivity.
Defined.

End MoreInstances.
